(** * orchwf: a shallow embedding of the workflow orchestrator

    The development follows the Go sources of the repository:
    - [types.go]          : statuses, definitions, instances, events;
    - [builder.go]        : [WorkflowBuilder.Build];
    - [state_manager.go]  : [InMemoryStateManager] and its copy helpers;
    - [orchestrator.go]   : [Orchestrator] (registration, start, resume,
                            the wave scheduler and the step attempt loop).

    Conventions.
    - A Go [map[string]interface{}] is a [gmap string Value]; a nil map and
      an empty map are not distinguished (every read of a nil map behaves as
      a read of the empty map, and the engine allocates before writing).
    - A Go [error] is the string returned by its [Error()] method, [None]
      standing for the nil error.
    - A pointer field that may be nil ([*time.Time], [*string]) is an
      [option].
    - [time.Time] values are ticks of a logical clock.
    - Go [int]/[int64]/[time.Duration] are [Z]; no integer arithmetic of
      the engine can overflow on the inputs considered here.
    - A Go [float64] is a binary64 number of the Standard Library's
      [SpecFloat] (precision 53, [emax] 1024): products round to nearest,
      ties to even, and overflow to an infinity.
    - Record fields carry a prefix naming their struct ([sd_] for
      [StepDefinition], [si_] for [StepInstance], ...), since Go reuses field
      names such as [ID] across structs. *)

From stdpp Require Import base strings gmap list pretty sorting.
From Stdlib Require Import ZArith QArith Qround Qpower Lia SpecFloat.

Local Open Scope string_scope.
Local Open Scope list_scope.
Local Open Scope Z_scope.

#[local] Set Warnings "-register-all".

(** ** Dynamically typed values ([interface{}]) *)

Inductive Value : Type :=
  | VNil
  | VBool (b : bool)
  | VInt (z : Z)
  | VStr (s : string)
  | VMap (m : gmap string Value).

Abbreviation GoMap := (gmap string Value).

(** [for k, v := range src { dst[k] = v }] *)
Definition rangeAssign (src dst : GoMap) : GoMap :=
  map_fold (λ k v acc, <[k := v]> acc) dst src.

(** ** types.go *)

Inductive WorkflowStatus : Type :=
  | WorkflowStatusPending
  | WorkflowStatusRunning
  | WorkflowStatusCompleted
  | WorkflowStatusFailed
  | WorkflowStatusCancelled
  | WorkflowStatusRetrying.

Inductive StepStatus : Type :=
  | StepStatusPending
  | StepStatusRunning
  | StepStatusCompleted
  | StepStatusFailed
  | StepStatusSkipped
  | StepStatusRetrying.

#[global] Instance WorkflowStatus_eq_dec : EqDecision WorkflowStatus.
Proof. solve_decision. Defined.
#[global] Instance StepStatus_eq_dec : EqDecision StepStatus.
Proof. solve_decision. Defined.

(** [float64] *)
Abbreviation float64 := spec_float.

(** The [float64] nearest to [m * 2^e]. *)
Definition f64_dyadic (m e : Z) : float64 := binary_normalize 53 1024 m e false.

(** [float64(x)] for an integer [x]; also an integer constant such as [2.0]. *)
Definition f64_of_int (x : Z) : float64 := f64_dyadic x 0.

(** [x * y] *)
Definition f64_mul (x y : float64) : float64 := SFmul 53 1024 x y.

(** [int(f)], [int64(f)], [time.Duration(f)]: the fraction is discarded.
    When the value does not fit an [int64] (or is not a number) the Go
    specification leaves the result to the implementation; on amd64, the
    platform modelled here, the conversion instruction returns the smallest
    [int64]. *)
Definition f64_to_int (f : float64) : Z :=
  match f with
  | S754_zero _ => 0
  | S754_finite s m e =>
      let magnitude := Z.shiftl (Zpos m) e in
      let z := if s then - magnitude else magnitude in
      if bool_decide (- 2 ^ 63 <= z < 2 ^ 63) then z else - 2 ^ 63
  | S754_infinity _ | S754_nan => - 2 ^ 63
  end.

Record RetryPolicy : Type := mkRetryPolicy {
  rp_MaxAttempts : Z;
  rp_InitialInterval : Z;          (* time.Duration, nanoseconds *)
  rp_MaxInterval : Z;              (* time.Duration, nanoseconds *)
  rp_Multiplier : float64;
  rp_RetryableErrors : list string
}.

Record StepInstance : Type := mkStepInstance {
  si_ID : string;
  si_StepID : string;
  si_WorkflowInstID : string;
  si_Status : StepStatus;
  si_Input : GoMap;
  si_Output : GoMap;
  si_StartedAt : option nat;
  si_CompletedAt : option nat;
  si_Error : option string;
  si_RetryCount : Z;
  si_LastRetryAt : option nat;
  si_DurationMs : Z;
  si_ExecutionOrder : Z
}.

Record WorkflowInstance : Type := mkWorkflowInstance {
  wi_ID : string;
  wi_WorkflowID : string;
  wi_Status : WorkflowStatus;
  wi_Input : GoMap;
  wi_Output : GoMap;
  wi_Context : GoMap;
  wi_CurrentStepID : string;
  wi_Steps : list StepInstance;
  wi_StartedAt : nat;
  wi_CompletedAt : option nat;
  wi_Error : option string;
  wi_RetryCount : Z;
  wi_LastRetryAt : option nat;
  wi_Metadata : GoMap;
  wi_TraceID : string;
  wi_CorrelationID : string;
  wi_BusinessID : string
}.

Record WorkflowEvent : Type := mkWorkflowEvent {
  ev_ID : string;
  ev_WorkflowInstID : string;
  ev_StepInstID : option string;
  ev_EventType : string;
  ev_EventData : GoMap;
  ev_Timestamp : nat
}.

(** [WorkflowInstance.IsCompleted] *)
Definition wi_IsCompleted (w : WorkflowInstance) : bool :=
  bool_decide (wi_Status w = WorkflowStatusCompleted)
  || bool_decide (wi_Status w = WorkflowStatusFailed)
  || bool_decide (wi_Status w = WorkflowStatusCancelled).

(** [StepInstance.IsCompleted] *)
Definition si_IsCompleted (s : StepInstance) : bool :=
  bool_decide (si_Status s = StepStatusCompleted)
  || bool_decide (si_Status s = StepStatusFailed)
  || bool_decide (si_Status s = StepStatusSkipped).

(** Field assignments through a pointer ([s.Status = st], ...). *)
Definition si_with_Status (st : StepStatus) (s : StepInstance) : StepInstance :=
  mkStepInstance (si_ID s) (si_StepID s) (si_WorkflowInstID s) st (si_Input s)
    (si_Output s) (si_StartedAt s) (si_CompletedAt s) (si_Error s)
    (si_RetryCount s) (si_LastRetryAt s) (si_DurationMs s) (si_ExecutionOrder s).
Definition si_with_Output (o : GoMap) (s : StepInstance) : StepInstance :=
  mkStepInstance (si_ID s) (si_StepID s) (si_WorkflowInstID s) (si_Status s)
    (si_Input s) o (si_StartedAt s) (si_CompletedAt s) (si_Error s)
    (si_RetryCount s) (si_LastRetryAt s) (si_DurationMs s) (si_ExecutionOrder s).
Definition si_with_StartedAt (t : option nat) (s : StepInstance) : StepInstance :=
  mkStepInstance (si_ID s) (si_StepID s) (si_WorkflowInstID s) (si_Status s)
    (si_Input s) (si_Output s) t (si_CompletedAt s) (si_Error s)
    (si_RetryCount s) (si_LastRetryAt s) (si_DurationMs s) (si_ExecutionOrder s).
Definition si_with_CompletedAt (t : option nat) (s : StepInstance) : StepInstance :=
  mkStepInstance (si_ID s) (si_StepID s) (si_WorkflowInstID s) (si_Status s)
    (si_Input s) (si_Output s) (si_StartedAt s) t (si_Error s)
    (si_RetryCount s) (si_LastRetryAt s) (si_DurationMs s) (si_ExecutionOrder s).
Definition si_with_Error (e : option string) (s : StepInstance) : StepInstance :=
  mkStepInstance (si_ID s) (si_StepID s) (si_WorkflowInstID s) (si_Status s)
    (si_Input s) (si_Output s) (si_StartedAt s) (si_CompletedAt s) e
    (si_RetryCount s) (si_LastRetryAt s) (si_DurationMs s) (si_ExecutionOrder s).
Definition si_with_RetryCount (n : Z) (s : StepInstance) : StepInstance :=
  mkStepInstance (si_ID s) (si_StepID s) (si_WorkflowInstID s) (si_Status s)
    (si_Input s) (si_Output s) (si_StartedAt s) (si_CompletedAt s) (si_Error s)
    n (si_LastRetryAt s) (si_DurationMs s) (si_ExecutionOrder s).
Definition si_with_LastRetryAt (t : option nat) (s : StepInstance) : StepInstance :=
  mkStepInstance (si_ID s) (si_StepID s) (si_WorkflowInstID s) (si_Status s)
    (si_Input s) (si_Output s) (si_StartedAt s) (si_CompletedAt s) (si_Error s)
    (si_RetryCount s) t (si_DurationMs s) (si_ExecutionOrder s).
Definition si_with_DurationMs (d : Z) (s : StepInstance) : StepInstance :=
  mkStepInstance (si_ID s) (si_StepID s) (si_WorkflowInstID s) (si_Status s)
    (si_Input s) (si_Output s) (si_StartedAt s) (si_CompletedAt s) (si_Error s)
    (si_RetryCount s) (si_LastRetryAt s) d (si_ExecutionOrder s).

Definition wi_with_Status (st : WorkflowStatus) (w : WorkflowInstance) : WorkflowInstance :=
  mkWorkflowInstance (wi_ID w) (wi_WorkflowID w) st (wi_Input w) (wi_Output w)
    (wi_Context w) (wi_CurrentStepID w) (wi_Steps w) (wi_StartedAt w)
    (wi_CompletedAt w) (wi_Error w) (wi_RetryCount w) (wi_LastRetryAt w)
    (wi_Metadata w) (wi_TraceID w) (wi_CorrelationID w) (wi_BusinessID w).
Definition wi_with_Output (o : GoMap) (w : WorkflowInstance) : WorkflowInstance :=
  mkWorkflowInstance (wi_ID w) (wi_WorkflowID w) (wi_Status w) (wi_Input w) o
    (wi_Context w) (wi_CurrentStepID w) (wi_Steps w) (wi_StartedAt w)
    (wi_CompletedAt w) (wi_Error w) (wi_RetryCount w) (wi_LastRetryAt w)
    (wi_Metadata w) (wi_TraceID w) (wi_CorrelationID w) (wi_BusinessID w).
Definition wi_with_Context (c : GoMap) (w : WorkflowInstance) : WorkflowInstance :=
  mkWorkflowInstance (wi_ID w) (wi_WorkflowID w) (wi_Status w) (wi_Input w)
    (wi_Output w) c (wi_CurrentStepID w) (wi_Steps w) (wi_StartedAt w)
    (wi_CompletedAt w) (wi_Error w) (wi_RetryCount w) (wi_LastRetryAt w)
    (wi_Metadata w) (wi_TraceID w) (wi_CorrelationID w) (wi_BusinessID w).
Definition wi_with_Steps (l : list StepInstance) (w : WorkflowInstance) : WorkflowInstance :=
  mkWorkflowInstance (wi_ID w) (wi_WorkflowID w) (wi_Status w) (wi_Input w)
    (wi_Output w) (wi_Context w) (wi_CurrentStepID w) l (wi_StartedAt w)
    (wi_CompletedAt w) (wi_Error w) (wi_RetryCount w) (wi_LastRetryAt w)
    (wi_Metadata w) (wi_TraceID w) (wi_CorrelationID w) (wi_BusinessID w).
Definition wi_with_CompletedAt (t : option nat) (w : WorkflowInstance) : WorkflowInstance :=
  mkWorkflowInstance (wi_ID w) (wi_WorkflowID w) (wi_Status w) (wi_Input w)
    (wi_Output w) (wi_Context w) (wi_CurrentStepID w) (wi_Steps w) (wi_StartedAt w)
    t (wi_Error w) (wi_RetryCount w) (wi_LastRetryAt w)
    (wi_Metadata w) (wi_TraceID w) (wi_CorrelationID w) (wi_BusinessID w).
Definition wi_with_Error (e : option string) (w : WorkflowInstance) : WorkflowInstance :=
  mkWorkflowInstance (wi_ID w) (wi_WorkflowID w) (wi_Status w) (wi_Input w)
    (wi_Output w) (wi_Context w) (wi_CurrentStepID w) (wi_Steps w) (wi_StartedAt w)
    (wi_CompletedAt w) e (wi_RetryCount w) (wi_LastRetryAt w)
    (wi_Metadata w) (wi_TraceID w) (wi_CorrelationID w) (wi_BusinessID w).

(** ** state_manager.go: the in-memory store *)

Record InMemoryStateManager : Type := mkStore {
  workflows : gmap string WorkflowInstance;
  steps : gmap string StepInstance;
  events : gmap string WorkflowEvent
}.

Definition NewInMemoryStateManager : InMemoryStateManager :=
  mkStore ∅ ∅ ∅.

(** [deepCopyStep]: a fresh struct, pointer fields re-allocated when
    non-nil, both maps re-built entry by entry. *)
Definition deepCopyStep (s : StepInstance) : StepInstance :=
  {| si_ID := si_ID s;
     si_StepID := si_StepID s;
     si_WorkflowInstID := si_WorkflowInstID s;
     si_Status := si_Status s;
     si_RetryCount := si_RetryCount s;
     si_DurationMs := si_DurationMs s;
     si_ExecutionOrder := si_ExecutionOrder s;
     si_StartedAt := match si_StartedAt s with Some t => Some t | None => None end;
     si_CompletedAt := match si_CompletedAt s with Some t => Some t | None => None end;
     si_Error := match si_Error s with Some e => Some e | None => None end;
     si_LastRetryAt := match si_LastRetryAt s with Some t => Some t | None => None end;
     si_Input := rangeAssign (si_Input s) ∅;
     si_Output := rangeAssign (si_Output s) ∅ |}.

(** [deepCopyWorkflow] *)
Definition deepCopyWorkflow (w : WorkflowInstance) : WorkflowInstance :=
  {| wi_ID := wi_ID w;
     wi_WorkflowID := wi_WorkflowID w;
     wi_Status := wi_Status w;
     wi_CurrentStepID := wi_CurrentStepID w;
     wi_StartedAt := wi_StartedAt w;
     wi_RetryCount := wi_RetryCount w;
     wi_TraceID := wi_TraceID w;
     wi_CorrelationID := wi_CorrelationID w;
     wi_BusinessID := wi_BusinessID w;
     wi_CompletedAt := match wi_CompletedAt w with Some t => Some t | None => None end;
     wi_Error := match wi_Error w with Some e => Some e | None => None end;
     wi_LastRetryAt := match wi_LastRetryAt w with Some t => Some t | None => None end;
     wi_Input := rangeAssign (wi_Input w) ∅;
     wi_Output := rangeAssign (wi_Output w) ∅;
     wi_Context := rangeAssign (wi_Context w) ∅;
     wi_Metadata := rangeAssign (wi_Metadata w) ∅;
     wi_Steps := map deepCopyStep (wi_Steps w) |}.

(** [deepCopyEvent] *)
Definition deepCopyEvent (e : WorkflowEvent) : WorkflowEvent :=
  {| ev_ID := ev_ID e;
     ev_WorkflowInstID := ev_WorkflowInstID e;
     ev_EventType := ev_EventType e;
     ev_Timestamp := ev_Timestamp e;
     ev_StepInstID := match ev_StepInstID e with Some i => Some i | None => None end;
     ev_EventData := rangeAssign (ev_EventData e) ∅ |}.

Definition store_with_workflows (ws : gmap string WorkflowInstance)
    (m : InMemoryStateManager) : InMemoryStateManager :=
  mkStore ws (steps m) (events m).
Definition store_with_steps (ss : gmap string StepInstance)
    (m : InMemoryStateManager) : InMemoryStateManager :=
  mkStore (workflows m) ss (events m).
Definition store_with_events (es : gmap string WorkflowEvent)
    (m : InMemoryStateManager) : InMemoryStateManager :=
  mkStore (workflows m) (steps m) es.

(** Every operation returns the Go [error] ([None] is nil) next to the
    store it leaves behind. Operations that stamp a time take the value of
    [time.Now()] as [now]. *)

Definition SaveWorkflow (m : InMemoryStateManager) (workflow : WorkflowInstance)
  : option string * InMemoryStateManager :=
  let workflowCopy := deepCopyWorkflow workflow in
  (None, store_with_workflows (<[wi_ID workflow := workflowCopy]> (workflows m)) m).

Definition GetWorkflow (m : InMemoryStateManager) (workflowInstID : string)
  : WorkflowInstance + string :=
  match workflows m !! workflowInstID with
  | None => inr ("workflow not found: " +:+ workflowInstID)
  | Some workflow => inl (deepCopyWorkflow workflow)
  end.

Definition UpdateWorkflowStatus (now : nat) (m : InMemoryStateManager)
    (workflowInstID : string) (status : WorkflowStatus)
  : option string * InMemoryStateManager :=
  match workflows m !! workflowInstID with
  | None => (Some ("workflow not found: " +:+ workflowInstID), m)
  | Some workflow =>
      let workflow := wi_with_Status status workflow in
      let workflow :=
        if bool_decide (status = WorkflowStatusCompleted)
           || bool_decide (status = WorkflowStatusFailed)
           || bool_decide (status = WorkflowStatusCancelled)
        then wi_with_CompletedAt (Some now) workflow else workflow in
      (None, store_with_workflows (<[workflowInstID := workflow]> (workflows m)) m)
  end.

Definition UpdateWorkflowOutput (m : InMemoryStateManager)
    (workflowInstID : string) (output : GoMap)
  : option string * InMemoryStateManager :=
  match workflows m !! workflowInstID with
  | None => (Some ("workflow not found: " +:+ workflowInstID), m)
  | Some workflow =>
      let workflow := wi_with_Output (rangeAssign output ∅) workflow in
      (None, store_with_workflows (<[workflowInstID := workflow]> (workflows m)) m)
  end.

Definition UpdateWorkflowError (now : nat) (m : InMemoryStateManager)
    (workflowInstID : string) (err : string)
  : option string * InMemoryStateManager :=
  match workflows m !! workflowInstID with
  | None => (Some ("workflow not found: " +:+ workflowInstID), m)
  | Some workflow =>
      let workflow := wi_with_Error (Some err) workflow in
      let workflow := wi_with_Status WorkflowStatusFailed workflow in
      let workflow := wi_with_CompletedAt (Some now) workflow in
      (None, store_with_workflows (<[workflowInstID := workflow]> (workflows m)) m)
  end.

Definition SaveStep (m : InMemoryStateManager) (step : StepInstance)
  : option string * InMemoryStateManager :=
  let stepCopy := deepCopyStep step in
  (None, store_with_steps (<[si_ID step := stepCopy]> (steps m)) m).

Definition GetStep (m : InMemoryStateManager) (stepInstID : string)
  : StepInstance + string :=
  match steps m !! stepInstID with
  | None => inr ("step not found: " +:+ stepInstID)
  | Some step => inl (deepCopyStep step)
  end.

(** [GetWorkflowSteps] ranges over the Go map [m.steps]. The language leaves
    the order of a map range unspecified (the runtime randomises it), so the
    order in which the keys are visited is an argument: [range_order] is any
    enumeration of the keys of the map. The loop appends the copies of the
    matching steps in the order of the visit; nothing is sorted. *)
Definition is_range_order {V} (m : gmap string V) (order : list string) : Prop :=
  order ≡ₚ (map_to_list m).*1.

Definition GetWorkflowSteps (m : InMemoryStateManager) (range_order : list string)
    (workflowInstID : string) : list StepInstance * option string :=
  (foldl (λ acc k,
            match steps m !! k with
            | Some step =>
                if bool_decide (si_WorkflowInstID step = workflowInstID)
                then acc ++ [deepCopyStep step] else acc
            | None => acc
            end) [] range_order,
   None).

Definition UpdateStepStatus (now : nat) (m : InMemoryStateManager)
    (stepInstID : string) (status : StepStatus)
  : option string * InMemoryStateManager :=
  match steps m !! stepInstID with
  | None => (Some ("step not found: " +:+ stepInstID), m)
  | Some step =>
      let step := si_with_Status status step in
      let step :=
        if bool_decide (status = StepStatusRunning)
        then si_with_StartedAt (Some now) step else step in
      let step :=
        if bool_decide (status = StepStatusCompleted)
           || bool_decide (status = StepStatusFailed)
           || bool_decide (status = StepStatusSkipped)
        then si_with_CompletedAt (Some now) step else step in
      (None, store_with_steps (<[stepInstID := step]> (steps m)) m)
  end.

Definition UpdateStepOutput (m : InMemoryStateManager)
    (stepInstID : string) (output : GoMap)
  : option string * InMemoryStateManager :=
  match steps m !! stepInstID with
  | None => (Some ("step not found: " +:+ stepInstID), m)
  | Some step =>
      let step := si_with_Output (rangeAssign output ∅) step in
      (None, store_with_steps (<[stepInstID := step]> (steps m)) m)
  end.

Definition UpdateStepError (now : nat) (m : InMemoryStateManager)
    (stepInstID : string) (err : string)
  : option string * InMemoryStateManager :=
  match steps m !! stepInstID with
  | None => (Some ("step not found: " +:+ stepInstID), m)
  | Some step =>
      let step := si_with_Error (Some err) step in
      let step := si_with_Status StepStatusFailed step in
      let step := si_with_CompletedAt (Some now) step in
      (None, store_with_steps (<[stepInstID := step]> (steps m)) m)
  end.

Definition SaveEvent (m : InMemoryStateManager) (event : WorkflowEvent)
  : option string * InMemoryStateManager :=
  let eventCopy := deepCopyEvent event in
  (None, store_with_events (<[ev_ID event := eventCopy]> (events m)) m).

(** ** Definitions ([types.go]) and the builder ([builder.go]) *)

(** What an executor returns: [(output, nil)] or [(_, err)]. *)
Inductive ExecResult : Type :=
  | ExecOk (output : GoMap)
  | ExecErr (err : string).

Section Orchestrator.

(** The part of the world the user's executors read and write (counters,
    logs, remote services). The engine never looks inside it. Executors do
    not hold a reference to the orchestrator or to its store; the
    cancellable [context.Context] they receive is not modelled. *)
Context {W : Type}.

Definition StepExecutor : Type := W → GoMap → ExecResult * W.
Definition StepCompensator : Type := W → GoMap → option string * W.

Record StepDefinition : Type := mkStepDefinition {
  sd_ID : string;
  sd_Name : string;
  sd_Description : string;
  sd_Executor : StepExecutor;
  sd_Compensator : option StepCompensator;
  sd_Dependencies : list string;
  sd_RetryPolicy : option RetryPolicy;
  sd_Timeout : Z;
  sd_Required : bool;
  sd_Async : bool;
  sd_Priority : Z
}.

Record WorkflowDefinition : Type := mkWorkflowDefinition {
  wd_ID : string;
  wd_Name : string;
  wd_Description : string;
  wd_Version : string;
  wd_Steps : list StepDefinition;
  wd_Metadata : GoMap
}.

Record WorkflowResult : Type := mkWorkflowResult {
  wr_Success : bool;
  wr_WorkflowInst : WorkflowInstance;
  wr_Output : GoMap;
  wr_Error : option string;
  wr_Duration : nat
}.

(** A loop over [l] that returns from the enclosing function with the
    first error [f] reports. *)
Definition firstError {A} (f : A → option string) (l : list A) : option string :=
  foldl (λ (found : option string) x,
           match found with Some e => Some e | None => f x end) None l.

(** [WorkflowBuilder.Build]: the builder holds the definition under
    construction; [Build] returns it or an error. *)
Definition Build (workflow : WorkflowDefinition) : WorkflowDefinition + string :=
  if bool_decide (wd_ID workflow = "") then inr "workflow ID is required"
  else if bool_decide (wd_Name workflow = "") then inr "workflow name is required"
  else if bool_decide (length (wd_Steps workflow) = 0%nat)
       then inr "workflow must have at least one step"
  else
    let stepIDs : gset string :=
      foldl (λ acc step, {[sd_ID step]} ∪ acc) ∅ (wd_Steps workflow) in
    match firstError (λ step,
            firstError (λ dep,
              if bool_decide (dep ∈ stepIDs) then None
              else Some ("step " +:+ sd_ID step +:+ " has invalid dependency: " +:+ dep))
              (sd_Dependencies step))
            (wd_Steps workflow) with
    | Some e => inr e
    | None => inl workflow
    end.

(** ** orchestrator.go *)

(** The orchestrator ([stateManager], [workflows]) together with the
    environment it runs in: the executors' world, the clock read by
    [time.Now()], the supply behind [uuid.New()], the durations handed to
    [time.Sleep], and (as an observation device) the calls made to the
    executors, in the order they were made: the identifier of the step and
    the input passed. *)
Record Runtime : Type := mkRuntime {
  rt_stateManager : InMemoryStateManager;
  rt_workflows : gmap string WorkflowDefinition;
  rt_world : W;
  rt_clock : nat;
  rt_uuid : nat;
  rt_sleeps : list Z;
  rt_calls : list (string * GoMap)
}.

Definition rt_with_stateManager (m : InMemoryStateManager) (r : Runtime) : Runtime :=
  mkRuntime m (rt_workflows r) (rt_world r) (rt_clock r) (rt_uuid r)
    (rt_sleeps r) (rt_calls r).
Definition rt_with_workflows (ws : gmap string WorkflowDefinition) (r : Runtime) : Runtime :=
  mkRuntime (rt_stateManager r) ws (rt_world r) (rt_clock r) (rt_uuid r)
    (rt_sleeps r) (rt_calls r).
Definition rt_with_world (w : W) (r : Runtime) : Runtime :=
  mkRuntime (rt_stateManager r) (rt_workflows r) w (rt_clock r) (rt_uuid r)
    (rt_sleeps r) (rt_calls r).
Definition rt_with_clock (c : nat) (r : Runtime) : Runtime :=
  mkRuntime (rt_stateManager r) (rt_workflows r) (rt_world r) c (rt_uuid r)
    (rt_sleeps r) (rt_calls r).
Definition rt_with_uuid (u : nat) (r : Runtime) : Runtime :=
  mkRuntime (rt_stateManager r) (rt_workflows r) (rt_world r) (rt_clock r) u
    (rt_sleeps r) (rt_calls r).
Definition rt_with_sleeps (l : list Z) (r : Runtime) : Runtime :=
  mkRuntime (rt_stateManager r) (rt_workflows r) (rt_world r) (rt_clock r)
    (rt_uuid r) l (rt_calls r).
Definition rt_with_calls (l : list (string * GoMap)) (r : Runtime) : Runtime :=
  mkRuntime (rt_stateManager r) (rt_workflows r) (rt_world r) (rt_clock r)
    (rt_uuid r) (rt_sleeps r) l.

(** A computation of the engine: it either returns a value and the runtime
    it leaves, or it does not return normally. [Panic] is a Go run-time
    panic (a nil dereference); [OutOfFuel] is the loop bound of
    [executeSteps] being hit, which [executeSteps_fuel] below shows never
    to happen. *)
Inductive Res (A : Type) : Type :=
  | Val (a : A) (r : Runtime)
  | Panic
  | OutOfFuel.
Arguments Val {A} a r.
Arguments Panic {A}.
Arguments OutOfFuel {A}.

Definition M (A : Type) : Type := Runtime → Res A.

#[global] Instance M_ret : MRet M := λ A a r, Val a r.
#[global] Instance M_bind : MBind M := λ A B f m r,
  match m r with
  | Val a r' => f a r'
  | Panic => Panic
  | OutOfFuel => OutOfFuel
  end.

Definition panic {A} : M A := λ _, Panic.
Definition get_rt : M Runtime := λ r, Val r r.
Definition modify_rt (f : Runtime → Runtime) : M unit := λ r, Val tt (f r).

(** [time.Now()]: the clock advances at every reading. *)
Definition time_Now : M nat :=
  λ r, Val (rt_clock r) (rt_with_clock (S (rt_clock r)) r).

(** [time.Sleep(d)] *)
Definition time_Sleep (d : Z) : M unit :=
  modify_rt (λ r, rt_with_sleeps (rt_sleeps r ++ [d]) r).

(** [uuid.New().String()]: the n-th identifier drawn. *)
Definition uuid_New : M string :=
  λ r, Val ("uuid-" +:+ pretty (rt_uuid r)) (rt_with_uuid (S (rt_uuid r)) r).

(** A call [o.stateManager.Op(...)] of an operation that returns only an
    error. *)
Definition store_op (op : InMemoryStateManager → option string * InMemoryStateManager)
  : M (option string) :=
  λ r, let '(e, m) := op (rt_stateManager r) in Val e (rt_with_stateManager m r).

(** [stringPtr] *)
Definition stringPtr (s : string) : option string := Some s.

(** [RegisterWorkflow]; the argument is a pointer and may be nil. *)
Definition RegisterWorkflow (workflow : option WorkflowDefinition) : M (option string) :=
  match workflow with
  | None => mret (Some "workflow cannot be nil")
  | Some workflow =>
      if bool_decide (wd_ID workflow = "") then mret (Some "workflow ID cannot be empty")
      else
        modify_rt (λ r, rt_with_workflows (<[wd_ID workflow := workflow]> (rt_workflows r)) r);;
        mret None
  end.

(** [Orchestrator.GetWorkflow] (the registry lookup) *)
Definition GetWorkflowDef (workflowID : string) : M (WorkflowDefinition + string) :=
  r ← get_rt;
  match rt_workflows r !! workflowID with
  | None => mret (inr ("workflow not found: " +:+ workflowID))
  | Some workflow => mret (inl workflow)
  end.

(** [emitEvent]: best effort, the error of [SaveEvent] is dropped. *)
Definition emitEvent (workflowInstID : string) (stepInstID : option string)
    (eventType : string) (data : GoMap) : M unit :=
  id ← uuid_New;
  now ← time_Now;
  let event := mkWorkflowEvent id workflowInstID stepInstID eventType data now in
  _ ← store_op (λ m, SaveEvent m event);
  mret tt.

(** [getTraceID], [getCorrelationID], [getBusinessID]; [ctx] holds the
    values carried by the [context.Context]. *)
Definition getTraceID (ctx metadata : GoMap) : M string :=
  match metadata !! "trace_id" with
  | Some (VStr traceID) => mret traceID
  | _ => match ctx !! "trace_id" with
         | Some (VStr id) => mret id
         | _ => uuid_New
         end
  end.

Definition getCorrelationID (ctx metadata : GoMap) : M string :=
  match metadata !! "correlation_id" with
  | Some (VStr correlationID) => mret correlationID
  | _ => match ctx !! "correlation_id" with
         | Some (VStr id) => mret id
         | _ => uuid_New
         end
  end.

Definition getBusinessID (ctx metadata : GoMap) : M string :=
  match metadata !! "business_id" with
  | Some (VStr businessID) => mret businessID
  | _ => match ctx !! "business_id" with
         | Some (VStr id) => mret id
         | _ => mret ""
         end
  end.

(** [pow]: [exp == 0] compares with the constant zero; the loop
    [for i := 1; i < int(exp); i++] multiplies [int(exp) - 1] times. *)
Definition pow (base exp : float64) : float64 :=
  if SFeqb exp (S754_zero false) then f64_of_int 1
  else Nat.iter (Z.to_nat (f64_to_int exp - 1)) (λ result, f64_mul result base) base.

(** [calculateRetryInterval]; durations are nanoseconds. *)
Definition calculateRetryInterval (policy : RetryPolicy) (attempt : Z) : Z :=
  if bool_decide (rp_InitialInterval policy = 0) then 0
  else
    let interval :=
      f64_mul (f64_of_int (rp_InitialInterval policy))
        (pow (rp_Multiplier policy) (f64_of_int (attempt - 1))) in
    if bool_decide (rp_MaxInterval policy > 0)
       && bool_decide (f64_to_int interval > rp_MaxInterval policy)
    then rp_MaxInterval policy
    else f64_to_int interval.

(** [buildDependencyGraph] *)
Definition buildDependencyGraph (workflow : WorkflowDefinition) : gmap string (list string) :=
  foldl (λ graph step, <[sd_ID step := sd_Dependencies step]> graph) ∅ (wd_Steps workflow).

(** [findReadySteps]; [executed] is the Go [map[string]bool], whose entries
    are only ever set to [true]: a set of identifiers. *)
Definition findReadySteps (workflow : WorkflowDefinition) (executed : gset string)
    (graph : gmap string (list string)) : list StepDefinition :=
  foldl (λ ready step,
           if bool_decide (sd_ID step ∈ executed) then ready
           else
             let allDepsExecuted :=
               forallb (λ dep, bool_decide (dep ∈ executed))
                       (default [] (graph !! sd_ID step)) in
             if allDepsExecuted then ready ++ [step] else ready)
        [] (wd_Steps workflow).

(** [stepInstMap] maps a step identifier to a pointer to a step instance;
    the pointers are those held in [instance.Steps], so a pointer is the
    position of the instance in that slice and a write through it is a
    write to the slice element. *)
Definition buildStepInstMap (instance : WorkflowInstance) : gmap string nat :=
  foldl (λ acc '(i, stepInst), <[si_StepID stepInst := i]> acc) ∅
        (imap (λ i s, (i, s)) (wi_Steps instance)).

Definition deref (workflowInst : WorkflowInstance) (p : nat) : option StepInstance :=
  wi_Steps workflowInst !! p.

Definition assign (p : nat) (f : StepInstance → StepInstance)
    (workflowInst : WorkflowInstance) : WorkflowInstance :=
  wi_with_Steps (alter f p (wi_Steps workflowInst)) workflowInst.

(** [prepareStepInput] *)
Definition prepareStepInput (stepDef : StepDefinition) (workflowInst : WorkflowInstance)
    (stepInstMap : gmap string nat) : GoMap :=
  let input : GoMap := ∅ in
  let input := rangeAssign (wi_Input workflowInst) input in
  let input :=
    foldl (λ input depID,
             match stepInstMap !! depID ≫= deref workflowInst with
             | Some depInst =>
                 let input := rangeAssign (si_Output depInst) input in
                 <[depID := VMap (si_Output depInst)]> input
             | None => input
             end) input (sd_Dependencies stepDef) in
  rangeAssign (wi_Context workflowInst) input.

(** [mergeStepOutput] *)
Definition mergeStepOutput (workflowInst : WorkflowInstance) (stepID : string)
    (output : GoMap) : WorkflowInstance :=
  let context := <[stepID := VMap output]> (wi_Context workflowInst) in
  let context := rangeAssign output context in
  let workflowInst := wi_with_Context context workflowInst in
  wi_with_Output (rangeAssign output (wi_Output workflowInst)) workflowInst.

(** Store calls of the engine whose error is dropped. *)
Definition sm_UpdateStepStatus (stepInstID : string) (status : StepStatus) : M unit :=
  now ← time_Now;
  _ ← store_op (λ m, UpdateStepStatus now m stepInstID status);
  mret tt.

Definition sm_UpdateStepOutput (stepInstID : string) (output : GoMap) : M unit :=
  _ ← store_op (λ m, UpdateStepOutput m stepInstID output);
  mret tt.

Definition sm_UpdateStepError (stepInstID : string) (err : string) : M unit :=
  now ← time_Now;
  _ ← store_op (λ m, UpdateStepError now m stepInstID err);
  mret tt.

(** The call [stepDef.Executor(stepCtx, input)], recorded in [rt_calls]. *)
Definition callExecutor (stepDef : StepDefinition) (input : GoMap) : M ExecResult :=
  λ r, let '(res, w) := sd_Executor stepDef (rt_world r) input in
       Val res (rt_with_calls (rt_calls r ++ [(sd_ID stepDef, input)]) (rt_with_world w r)).

(** The attempt loop of [executeStep]:
    [for attempt := 0; attempt < retryPolicy.MaxAttempts; attempt++].
    [n] counts the iterations left. The loop either returns from
    [executeStep] with a nil error ([inl]) or falls through with [lastErr]
    ([inr]). *)
Fixpoint attemptLoop (stepDef : StepDefinition) (retryPolicy : RetryPolicy)
    (p : nat) (stepInstID : string) (input : GoMap)
    (n : nat) (attempt : Z) (lastErr : option string)
    (workflowInst : WorkflowInstance)
  : M (WorkflowInstance + option string * WorkflowInstance) :=
  match n with
  | O => mret (inr (lastErr, workflowInst))
  | S n' =>
      workflowInst ←
        (if bool_decide (attempt > 0) then
           let interval := calculateRetryInterval retryPolicy attempt in
           time_Sleep interval;;
           let workflowInst := assign p (si_with_Status StepStatusRetrying) workflowInst in
           let workflowInst := assign p (si_with_RetryCount attempt) workflowInst in
           now ← time_Now;
           let workflowInst := assign p (si_with_LastRetryAt (Some now)) workflowInst in
           sm_UpdateStepStatus stepInstID StepStatusRetrying;;
           emitEvent (wi_ID workflowInst) (Some stepInstID) "step.retry"
             {[ "attempt" := VInt (attempt + 1) ]};;
           mret workflowInst
         else mret workflowInst);
      workflowInst ←
        (if bool_decide (attempt = 0) then
           let workflowInst := assign p (si_with_Status StepStatusRunning) workflowInst in
           now ← time_Now;
           let workflowInst := assign p (si_with_StartedAt (Some now)) workflowInst in
           sm_UpdateStepStatus stepInstID StepStatusRunning;;
           emitEvent (wi_ID workflowInst) (Some stepInstID) "step.started"
             {[ "step_id" := VStr (sd_ID stepDef) ]};;
           mret workflowInst
         else mret workflowInst);
      startTime ← time_Now;
      res ← callExecutor stepDef input;
      endTime ← time_Now;
      let duration := Z.of_nat (endTime - startTime) in
      let workflowInst := assign p (si_with_DurationMs duration) workflowInst in
      match res with
      | ExecOk output =>
          let workflowInst := assign p (si_with_Status StepStatusCompleted) workflowInst in
          let workflowInst := assign p (si_with_Output output) workflowInst in
          now ← time_Now;
          let workflowInst := assign p (si_with_CompletedAt (Some now)) workflowInst in
          sm_UpdateStepStatus stepInstID StepStatusCompleted;;
          sm_UpdateStepOutput stepInstID output;;
          emitEvent (wi_ID workflowInst) (Some stepInstID) "step.completed"
            {[ "duration_ms" := VInt duration ]};;
          mret (inl (mergeStepOutput workflowInst (sd_ID stepDef) output))
      | ExecErr err =>
          attemptLoop stepDef retryPolicy p stepInstID input n' (attempt + 1)
            (Some err) workflowInst
      end
  end.

(** The message of
    [fmt.Errorf("step %s failed after %d attempts: %w", ...)]. *)
Definition stepFailedError (stepID : string) (maxAttempts : Z) (lastErr : string) : string :=
  "step " +:+ stepID +:+ " failed after " +:+ pretty maxAttempts
    +:+ " attempts: " +:+ lastErr.

(** [executeStep]; [p] is the pointer [stepInst]. The result is the
    returned error and the workflow instance as the call leaves it. *)
Definition executeStep (stepDef : StepDefinition) (p : nat)
    (workflowInst : WorkflowInstance) (stepInstMap : gmap string nat)
  : M (option string * WorkflowInstance) :=
  match deref workflowInst p with
  | None => panic
  | Some stepInst =>
      if si_IsCompleted stepInst then mret (None, workflowInst)
      else
        let input := prepareStepInput stepDef workflowInst stepInstMap in
        let retryPolicy :=
          match sd_RetryPolicy stepDef with
          | Some policy => policy
          | None => mkRetryPolicy 1 0 0 (S754_zero false) []
          end in
        out ← attemptLoop stepDef retryPolicy p (si_ID stepInst) input
                (Z.to_nat (rp_MaxAttempts retryPolicy)) 0 None workflowInst;
        match out with
        | inl workflowInst => mret (None, workflowInst)
        | inr (None, _) => panic   (* lastErr.Error() on a nil error *)
        | inr (Some lastErr, workflowInst) =>
            let workflowInst := assign p (si_with_Status StepStatusFailed) workflowInst in
            let workflowInst := assign p (si_with_Error (stringPtr lastErr)) workflowInst in
            now ← time_Now;
            let workflowInst := assign p (si_with_CompletedAt (Some now)) workflowInst in
            sm_UpdateStepStatus (si_ID stepInst) StepStatusFailed;;
            sm_UpdateStepError (si_ID stepInst) lastErr;;
            let retries := default 0 (si_RetryCount <$> deref workflowInst p) in
            emitEvent (wi_ID workflowInst) (Some (si_ID stepInst)) "step.failed"
              {[ "error" := VStr lastErr; "retries" := VInt retries ]};;
            mret (Some (stepFailedError (sd_ID stepDef) (rp_MaxAttempts retryPolicy) lastErr),
                  workflowInst)
        end
  end.

(** [sort.Slice(data, less)]. The library promises a permutation ordered
    by [less], not a stable one. On slices of at most twelve elements it
    runs an insertion sort, which is what is written here; no statement
    below depends on how ties come out. *)
Fixpoint sort_insert {A} (less : A → A → bool) (x : A) (l : list A) : list A :=
  match l with
  | [] => [x]
  | y :: l' => if less y x then y :: sort_insert less x l' else x :: y :: l'
  end.

Definition sort_Slice {A} (less : A → A → bool) (data : list A) : list A :=
  foldr (sort_insert less) [] data.

(** The comparison passed by [executeSteps]:
    [readySteps[i].Priority > readySteps[j].Priority]. *)
Definition byPriority (a b : StepDefinition) : bool :=
  bool_decide (sd_Priority a > sd_Priority b).

(** The sequential part of a wave: [for _, stepDef := range syncSteps].
    The result is the error returned from [executeSteps] inside the loop, if
    any, with [executed] and the instance as the loop leaves them. *)
Fixpoint runSyncSteps (syncSteps : list StepDefinition) (stepInstMap : gmap string nat)
    (executed : gset string) (instance : WorkflowInstance)
  : M (option string * gset string * WorkflowInstance) :=
  match syncSteps with
  | [] => mret (None, executed, instance)
  | stepDef :: rest =>
      match stepInstMap !! sd_ID stepDef ≫= (λ p, (p,.) <$> deref instance p) with
      | None => panic   (* stepInst is nil *)
      | Some (p, stepInst) =>
          if bool_decide (si_Status stepInst = StepStatusCompleted) then
            runSyncSteps rest stepInstMap ({[sd_ID stepDef]} ∪ executed) instance
          else
            '(err, instance) ← executeStep stepDef p instance stepInstMap;
            match err with
            | Some err =>
                if sd_Required stepDef then mret (Some err, executed, instance)
                else
                  let instance := assign p (si_with_Status StepStatusSkipped) instance in
                  sm_UpdateStepStatus (si_ID stepInst) StepStatusSkipped;;
                  runSyncSteps rest stepInstMap ({[sd_ID stepDef]} ∪ executed) instance
            | None =>
                runSyncSteps rest stepInstMap ({[sd_ID stepDef]} ∪ executed) instance
            end
      end
  end.

(** The parallel part of a wave. The goroutines are serialised: each one
    runs to completion when it is started, in the order of [asyncSteps]
    (one of the schedules the Go runtime may pick). The result carries the
    content of the [errors] channel in sending order. *)
Fixpoint runAsyncSteps (asyncSteps : list StepDefinition) (stepInstMap : gmap string nat)
    (errors : list string) (executed : gset string) (instance : WorkflowInstance)
  : M (list string * gset string * WorkflowInstance) :=
  match asyncSteps with
  | [] => mret (errors, executed, instance)
  | stepDef :: rest =>
      match stepInstMap !! sd_ID stepDef ≫= (λ p, (p,.) <$> deref instance p) with
      | None => panic   (* stepInst is nil *)
      | Some (p, stepInst) =>
          if bool_decide (si_Status stepInst = StepStatusCompleted) then
            runAsyncSteps rest stepInstMap errors ({[sd_ID stepDef]} ∪ executed) instance
          else
            '(err, instance) ← executeStep stepDef p instance stepInstMap;
            match err with
            | Some err =>
                if sd_Required stepDef then
                  runAsyncSteps rest stepInstMap (errors ++ [err])
                    ({[sd_ID stepDef]} ∪ executed) instance
                else
                  let instance := assign p (si_with_Status StepStatusSkipped) instance in
                  sm_UpdateStepStatus (si_ID stepInst) StepStatusSkipped;;
                  runAsyncSteps rest stepInstMap errors ({[sd_ID stepDef]} ∪ executed) instance
            | None =>
                runAsyncSteps rest stepInstMap errors ({[sd_ID stepDef]} ∪ executed) instance
            end
      end
  end.

(** The ready steps of a wave, ordered and split as [executeSteps] does. *)
Definition wavePlan (workflow : WorkflowDefinition) (executed : gset string)
    (graph : gmap string (list string)) : list StepDefinition * list StepDefinition :=
  let readySteps := findReadySteps workflow executed graph in
  let readySteps := sort_Slice byPriority readySteps in
  (filter (λ stepDef, sd_Async stepDef = false) readySteps,
   filter (λ stepDef, sd_Async stepDef = true) readySteps).

(** The [for { ... }] loop of [executeSteps]; [fuel] bounds the number of
    waves. *)
Fixpoint executeStepsLoop (fuel : nat) (workflow : WorkflowDefinition)
    (graph : gmap string (list string)) (stepInstMap : gmap string nat)
    (executed : gset string) (instance : WorkflowInstance)
  : M (option string * WorkflowInstance) :=
  match fuel with
  | O => λ _, OutOfFuel
  | S fuel' =>
      if bool_decide (length (findReadySteps workflow executed graph) = 0%nat)
      then mret (None, instance)
      else
        let '(syncSteps, asyncSteps) := wavePlan workflow executed graph in
        '(err, executed, instance) ← runSyncSteps syncSteps stepInstMap executed instance;
        match err with
        | Some err => mret (Some err, instance)
        | None =>
            '(errors, executed, instance) ←
              (if bool_decide (0 < length asyncSteps)%nat
               then runAsyncSteps asyncSteps stepInstMap [] executed instance
               else mret ([], executed, instance));
            match errors with
            | err :: _ => mret (Some err, instance)
            | [] =>
                if bool_decide (size executed = length (wd_Steps workflow))
                then mret (None, instance)
                else executeStepsLoop fuel' workflow graph stepInstMap executed instance
            end
        end
  end.

(** [executeSteps]. Every wave that does not leave the loop adds a step
    identifier to [executed], so one wave per step and one more to see the
    empty ready list are enough. *)
Definition executeSteps (workflow : WorkflowDefinition) (instance : WorkflowInstance)
    (graph : gmap string (list string)) : M (option string * WorkflowInstance) :=
  let stepInstMap := buildStepInstMap instance in
  executeStepsLoop (S (length (wd_Steps workflow))) workflow graph stepInstMap ∅ instance.

(** The creation of the step instances in [executeWorkflow]:
    [for i, stepDef := range workflow.Steps]. [inr] is the early return on
    a failed [SaveStep]. *)
Fixpoint initSteps (stepDefs : list StepDefinition) (i : Z) (instance : WorkflowInstance)
  : M (WorkflowInstance + string) :=
  match stepDefs with
  | [] => mret (inl instance)
  | stepDef :: rest =>
      id ← uuid_New;
      let stepInst :=
        mkStepInstance id (sd_ID stepDef) (wi_ID instance) StepStatusPending
          ∅ ∅ None None None 0 None 0 i in
      let instance := wi_with_Steps (wi_Steps instance ++ [stepInst]) instance in
      err ← store_op (λ m, SaveStep m stepInst);
      match err with
      | Some err => mret (inr ("failed to save step: " +:+ err))
      | None => initSteps rest (i + 1) instance
      end
  end.

(** [executeWorkflow]: the result pointer (nil is [None]) and the error. *)
Definition executeWorkflow (workflow : WorkflowDefinition) (instance : WorkflowInstance)
  : M (option WorkflowResult * option string) :=
  startTime ← time_Now;
  let instance := wi_with_Status WorkflowStatusRunning instance in
  now ← time_Now;
  err ← store_op (λ m, UpdateWorkflowStatus now m (wi_ID instance) WorkflowStatusRunning);
  match err with
  | Some err => mret (None, Some ("failed to update workflow status: " +:+ err))
  | None =>
      init ← (if bool_decide (length (wi_Steps instance) = 0%nat)
              then initSteps (wd_Steps workflow) 0 instance
              else mret (inl instance));
      match init with
      | inr err => mret (None, Some err)
      | inl instance =>
          let graph := buildDependencyGraph workflow in
          '(err, instance) ← executeSteps workflow instance graph;
          match err with
          | Some err =>
              let instance := wi_with_Status WorkflowStatusFailed instance in
              let instance := wi_with_Error (stringPtr err) instance in
              now ← time_Now;
              let instance := wi_with_CompletedAt (Some now) instance in
              now ← time_Now;
              _ ← store_op (λ m, UpdateWorkflowStatus now m (wi_ID instance) WorkflowStatusFailed);
              now ← time_Now;
              _ ← store_op (λ m, UpdateWorkflowError now m (wi_ID instance) err);
              emitEvent (wi_ID instance) None "workflow.failed" {[ "error" := VStr err ]};;
              endTime ← time_Now;
              mret (Some (mkWorkflowResult false instance ∅ (Some err) (endTime - startTime)),
                    Some err)
          | None =>
              let instance := wi_with_Status WorkflowStatusCompleted instance in
              now ← time_Now;
              let instance := wi_with_CompletedAt (Some now) instance in
              now ← time_Now;
              err ← store_op (λ m, UpdateWorkflowStatus now m (wi_ID instance)
                                     WorkflowStatusCompleted);
              match err with
              | Some err => mret (None, Some ("failed to update workflow status: " +:+ err))
              | None =>
                  t ← time_Now;
                  emitEvent (wi_ID instance) None "workflow.completed"
                    {[ "duration_ms" := VInt (Z.of_nat (t - startTime)) ]};;
                  endTime ← time_Now;
                  mret (Some (mkWorkflowResult true instance (wi_Output instance) None
                                (endTime - startTime)),
                        None)
              end
          end
      end
  end.

(** [StartWorkflow] *)
Definition StartWorkflow (ctx : GoMap) (workflowID : string) (input metadata : GoMap)
  : M (option WorkflowResult * option string) :=
  def ← GetWorkflowDef workflowID;
  match def with
  | inr err => mret (None, Some err)
  | inl workflow =>
      id ← uuid_New;
      startedAt ← time_Now;
      traceID ← getTraceID ctx metadata;
      correlationID ← getCorrelationID ctx metadata;
      businessID ← getBusinessID ctx metadata;
      let instance :=
        {| wi_ID := id;
           wi_WorkflowID := workflowID;
           wi_Status := WorkflowStatusPending;
           wi_Input := input;
           wi_Output := ∅;
           wi_Context := ∅;
           wi_CurrentStepID := "";
           wi_Steps := [];
           wi_StartedAt := startedAt;
           wi_CompletedAt := None;
           wi_Error := None;
           wi_RetryCount := 0;
           wi_LastRetryAt := None;
           wi_Metadata := metadata;
           wi_TraceID := traceID;
           wi_CorrelationID := correlationID;
           wi_BusinessID := businessID |} in
      err ← store_op (λ m, SaveWorkflow m instance);
      match err with
      | Some err => mret (None, Some ("failed to save workflow: " +:+ err))
      | None =>
          emitEvent (wi_ID instance) None "workflow.started"
            {[ "workflow_id" := VStr workflowID ]};;
          executeWorkflow workflow instance
      end
  end.

(** [ResumeWorkflow] *)
Definition ResumeWorkflow (workflowInstID : string)
  : M (option WorkflowResult * option string) :=
  r ← get_rt;
  match GetWorkflow (rt_stateManager r) workflowInstID with
  | inr err => mret (None, Some ("failed to load workflow: " +:+ err))
  | inl instance =>
      def ← GetWorkflowDef (wi_WorkflowID instance);
      match def with
      | inr err => mret (None, Some err)
      | inl workflow =>
          if wi_IsCompleted instance then
            now ← time_Now;
            mret (Some (mkWorkflowResult
                          (bool_decide (wi_Status instance = WorkflowStatusCompleted))
                          instance (wi_Output instance) None
                          (now - wi_StartedAt instance)),
                  None)
          else executeWorkflow workflow instance
      end
  end.

(** [GetWorkflowStatus] *)
Definition GetWorkflowStatus (workflowInstID : string) : M (WorkflowInstance + string) :=
  r ← get_rt;
  mret (GetWorkflow (rt_stateManager r) workflowInstID).

End Orchestrator.

Arguments Val {W A} a r.
Arguments Panic {W A}.
Arguments OutOfFuel {W A}.

(** ** state_manager.go over an explicit Go memory

    The copy helpers of the store, once more, with every Go reference made
    an address: struct pointers, the pointers behind optional fields, maps,
    and maps held inside [interface{}] values. This is the model in which
    sharing between a stored entity and the copies handed out is visible. *)
Module Mem.

Abbreviation addr := nat.

(** An [interface{}] value; a map stored in it is a reference. *)
Inductive HValue : Type :=
  | HNil
  | HBool (b : bool)
  | HInt (z : Z)
  | HStr (s : string)
  | HMapRef (a : addr).

Record StepRec : Type := mkStepRec {
  hs_ID : string;
  hs_StepID : string;
  hs_WorkflowInstID : string;
  hs_Status : StepStatus;
  hs_Input : option addr;          (* map, nil is None *)
  hs_Output : option addr;
  hs_StartedAt : option addr;      (* *time.Time *)
  hs_CompletedAt : option addr;
  hs_Error : option addr;          (* *string *)
  hs_RetryCount : Z;
  hs_LastRetryAt : option addr;
  hs_DurationMs : Z;
  hs_ExecutionOrder : Z
}.

Record WorkflowRec : Type := mkWorkflowRec {
  hw_ID : string;
  hw_WorkflowID : string;
  hw_Status : WorkflowStatus;
  hw_Input : option addr;
  hw_Output : option addr;
  hw_Context : option addr;
  hw_CurrentStepID : string;
  hw_Steps : list addr;            (* []*StepInstance *)
  hw_StartedAt : nat;
  hw_CompletedAt : option addr;
  hw_Error : option addr;
  hw_RetryCount : Z;
  hw_LastRetryAt : option addr;
  hw_Metadata : option addr;
  hw_TraceID : string;
  hw_CorrelationID : string;
  hw_BusinessID : string
}.

Inductive Cell : Type :=
  | CTime (t : nat)
  | CString (s : string)
  | CMap (m : gmap string HValue)
  | CStep (s : StepRec)
  | CWorkflow (w : WorkflowRec).

Record Heap : Type := mkHeap {
  cells : gmap addr Cell;
  next : addr
}.

Definition alloc (c : Cell) (h : Heap) : addr * Heap :=
  (next h, mkHeap (<[next h := c]> (cells h)) (S (next h))).

Definition load (h : Heap) (a : addr) : option Cell := cells h !! a.

Definition store_cell (a : addr) (c : Cell) (h : Heap) : Heap :=
  mkHeap (<[a := c]> (cells h)) (next h).

(** [if p != nil { v := *p; copy.F = &v }] for a [*time.Time] or [*string]. *)
Definition copyPtr (h : Heap) (p : option addr) : option (option addr * Heap) :=
  match p with
  | None => Some (None, h)
  | Some a =>
      match load h a with
      | Some (CTime t) => let '(a', h) := alloc (CTime t) h in Some (Some a', h)
      | Some (CString s) => let '(a', h) := alloc (CString s) h in Some (Some a', h)
      | _ => None
      end
  end.

(** [copy.F = make(map[string]interface{}); for k, v := range src { copy.F[k] = v }]:
    a new map object holding the same interface values. *)
Definition copyMap (h : Heap) (src : option addr) : option (option addr * Heap) :=
  match src with
  | None => let '(a', h) := alloc (CMap ∅) h in Some (Some a', h)
  | Some a =>
      match load h a with
      | Some (CMap m) =>
          let '(a', h) := alloc (CMap (map_fold (λ k v acc, <[k := v]> acc) ∅ m)) h in
          Some (Some a', h)
      | _ => None
      end
  end.

(** [deepCopyStep]; [None] is a dereference of a dangling or ill-typed
    pointer, which a well-formed memory excludes. *)
Definition deepCopyStep (h : Heap) (s : addr) : option (addr * Heap) :=
  match load h s with
  | Some (CStep s) =>
      '(startedAt, h) ← copyPtr h (hs_StartedAt s);
      '(completedAt, h) ← copyPtr h (hs_CompletedAt s);
      '(error, h) ← copyPtr h (hs_Error s);
      '(lastRetryAt, h) ← copyPtr h (hs_LastRetryAt s);
      '(input, h) ← copyMap h (hs_Input s);
      '(output, h) ← copyMap h (hs_Output s);
      Some (alloc (CStep
        {| hs_ID := hs_ID s;
           hs_StepID := hs_StepID s;
           hs_WorkflowInstID := hs_WorkflowInstID s;
           hs_Status := hs_Status s;
           hs_RetryCount := hs_RetryCount s;
           hs_DurationMs := hs_DurationMs s;
           hs_ExecutionOrder := hs_ExecutionOrder s;
           hs_StartedAt := startedAt;
           hs_CompletedAt := completedAt;
           hs_Error := error;
           hs_LastRetryAt := lastRetryAt;
           hs_Input := input;
           hs_Output := output |}) h)
  | _ => None
  end.

(** [for i, step := range w.Steps { copy.Steps[i] = m.deepCopyStep(step) }] *)
Fixpoint copySteps (h : Heap) (l : list addr) : option (list addr * Heap) :=
  match l with
  | [] => Some ([], h)
  | step :: rest =>
      '(step', h) ← deepCopyStep h step;
      '(rest', h) ← copySteps h rest;
      Some (step' :: rest', h)
  end.

(** [deepCopyWorkflow] *)
Definition deepCopyWorkflow (h : Heap) (w : addr) : option (addr * Heap) :=
  match load h w with
  | Some (CWorkflow w) =>
      '(completedAt, h) ← copyPtr h (hw_CompletedAt w);
      '(error, h) ← copyPtr h (hw_Error w);
      '(lastRetryAt, h) ← copyPtr h (hw_LastRetryAt w);
      '(input, h) ← copyMap h (hw_Input w);
      '(output, h) ← copyMap h (hw_Output w);
      '(context, h) ← copyMap h (hw_Context w);
      '(metadata, h) ← copyMap h (hw_Metadata w);
      '(steps, h) ← copySteps h (hw_Steps w);
      Some (alloc (CWorkflow
        {| hw_ID := hw_ID w;
           hw_WorkflowID := hw_WorkflowID w;
           hw_Status := hw_Status w;
           hw_CurrentStepID := hw_CurrentStepID w;
           hw_StartedAt := hw_StartedAt w;
           hw_RetryCount := hw_RetryCount w;
           hw_TraceID := hw_TraceID w;
           hw_CorrelationID := hw_CorrelationID w;
           hw_BusinessID := hw_BusinessID w;
           hw_CompletedAt := completedAt;
           hw_Error := error;
           hw_LastRetryAt := lastRetryAt;
           hw_Input := input;
           hw_Output := output;
           hw_Context := context;
           hw_Metadata := metadata;
           hw_Steps := steps |}) h)
  | _ => None
  end.

(** The store: its maps hold pointers. *)
Record InMemoryStateManager : Type := mkStore {
  workflows : gmap string addr;
  steps : gmap string addr
}.

Definition SaveWorkflow (h : Heap) (m : InMemoryStateManager) (workflow : addr)
  : option (InMemoryStateManager * Heap) :=
  match load h workflow with
  | Some (CWorkflow w) =>
      '(workflowCopy, h) ← deepCopyWorkflow h workflow;
      Some (mkStore (<[hw_ID w := workflowCopy]> (workflows m)) (steps m), h)
  | _ => None
  end.

(** [GetWorkflow]: [inr] is the "workflow not found" error. *)
Definition GetWorkflow (h : Heap) (m : InMemoryStateManager) (workflowInstID : string)
  : option ((addr + string) * Heap) :=
  match workflows m !! workflowInstID with
  | None => Some (inr ("workflow not found: " +:+ workflowInstID), h)
  | Some workflow =>
      '(c, h) ← deepCopyWorkflow h workflow;
      Some (inl c, h)
  end.

(** What a caller holding a pointer sees: the entity with every reference
    followed. [fuel] bounds the nesting depth that is followed. *)
Fixpoint viewValue (fuel : nat) (h : Heap) (v : HValue) : Value :=
  match v with
  | HNil => VNil
  | HBool b => VBool b
  | HInt z => VInt z
  | HStr s => VStr s
  | HMapRef a =>
      match fuel with
      | O => VNil
      | S fuel' =>
          match load h a with
          | Some (CMap m) => VMap (viewValue fuel' h <$> m)
          | _ => VNil
          end
      end
  end.

Definition viewMap (fuel : nat) (h : Heap) (p : option addr) : GoMap :=
  match p ≫= load h with
  | Some (CMap m) => viewValue fuel h <$> m
  | _ => ∅
  end.

Definition viewTime (h : Heap) (p : option addr) : option nat :=
  match p ≫= load h with
  | Some (CTime t) => Some t
  | _ => None
  end.

Definition viewString (h : Heap) (p : option addr) : option string :=
  match p ≫= load h with
  | Some (CString s) => Some s
  | _ => None
  end.

Definition viewStep (fuel : nat) (h : Heap) (p : addr) : option StepInstance :=
  match load h p with
  | Some (CStep s) =>
      Some {| si_ID := hs_ID s;
              si_StepID := hs_StepID s;
              si_WorkflowInstID := hs_WorkflowInstID s;
              si_Status := hs_Status s;
              si_Input := viewMap fuel h (hs_Input s);
              si_Output := viewMap fuel h (hs_Output s);
              si_StartedAt := viewTime h (hs_StartedAt s);
              si_CompletedAt := viewTime h (hs_CompletedAt s);
              si_Error := viewString h (hs_Error s);
              si_RetryCount := hs_RetryCount s;
              si_LastRetryAt := viewTime h (hs_LastRetryAt s);
              si_DurationMs := hs_DurationMs s;
              si_ExecutionOrder := hs_ExecutionOrder s |}
  | _ => None
  end.

Definition viewWorkflow (fuel : nat) (h : Heap) (p : addr) : option WorkflowInstance :=
  match load h p with
  | Some (CWorkflow w) =>
      Some {| wi_ID := hw_ID w;
              wi_WorkflowID := hw_WorkflowID w;
              wi_Status := hw_Status w;
              wi_Input := viewMap fuel h (hw_Input w);
              wi_Output := viewMap fuel h (hw_Output w);
              wi_Context := viewMap fuel h (hw_Context w);
              wi_CurrentStepID := hw_CurrentStepID w;
              wi_Steps := omap (viewStep fuel h) (hw_Steps w);
              wi_StartedAt := hw_StartedAt w;
              wi_CompletedAt := viewTime h (hw_CompletedAt w);
              wi_Error := viewString h (hw_Error w);
              wi_RetryCount := hw_RetryCount w;
              wi_LastRetryAt := viewTime h (hw_LastRetryAt w);
              wi_Metadata := viewMap fuel h (hw_Metadata w);
              wi_TraceID := hw_TraceID w;
              wi_CorrelationID := hw_CorrelationID w;
              wi_BusinessID := hw_BusinessID w |}
  | _ => None
  end.

(** Writes a caller can make through a pointer it holds. *)

(** [m[k] = v] on the map object at [a] *)
Definition mapAssign (a : addr) (k : string) (v : HValue) (h : Heap) : Heap :=
  match load h a with
  | Some (CMap m) => store_cell a (CMap (<[k := v]> m)) h
  | _ => h
  end.

(** [w.F[k] = v] for a map field [F] of the workflow struct at [w] *)
Definition fieldAssign (F : WorkflowRec → option addr) (w : addr) (k : string)
    (v : HValue) (h : Heap) : Heap :=
  match load h w with
  | Some (CWorkflow rec) =>
      match F rec with
      | Some a => mapAssign a k v h
      | None => h
      end
  | _ => h
  end.

(** [w.F[k1].(map[string]interface{})[k2] = v] *)
Definition nestedAssign (F : WorkflowRec → option addr) (w : addr) (k1 k2 : string)
    (v : HValue) (h : Heap) : Heap :=
  match load h w with
  | Some (CWorkflow rec) =>
      match F rec ≫= load h with
      | Some (CMap m) =>
          match m !! k1 with
          | Some (HMapRef a) => mapAssign a k2 v h
          | _ => h
          end
      | _ => h
      end
  | _ => h
  end.

End Mem.

(** ** builder.go: the step and retry-policy builders *)

Section Builders.
Context {W : Type}.

Definition NewStepBuilder (id name : string) (executor : @StepExecutor W) : @StepDefinition W :=
  {| sd_ID := id;
     sd_Name := name;
     sd_Description := "";
     sd_Executor := executor;
     sd_Compensator := None;
     sd_Dependencies := [];
     sd_RetryPolicy := None;
     sd_Timeout := 0;
     sd_Required := true;
     sd_Async := false;
     sd_Priority := 0 |}.

Definition WithDependencies (dependencies : list string) (b : @StepDefinition W)
  : @StepDefinition W :=
  mkStepDefinition (sd_ID b) (sd_Name b) (sd_Description b) (sd_Executor b)
    (sd_Compensator b) dependencies (sd_RetryPolicy b) (sd_Timeout b)
    (sd_Required b) (sd_Async b) (sd_Priority b).

Definition WithRetryPolicy (policy : RetryPolicy) (b : @StepDefinition W)
  : @StepDefinition W :=
  mkStepDefinition (sd_ID b) (sd_Name b) (sd_Description b) (sd_Executor b)
    (sd_Compensator b) (sd_Dependencies b) (Some policy) (sd_Timeout b)
    (sd_Required b) (sd_Async b) (sd_Priority b).

Definition WithPriority (priority : Z) (b : @StepDefinition W) : @StepDefinition W :=
  mkStepDefinition (sd_ID b) (sd_Name b) (sd_Description b) (sd_Executor b)
    (sd_Compensator b) (sd_Dependencies b) (sd_RetryPolicy b) (sd_Timeout b)
    (sd_Required b) (sd_Async b) priority.

(** [NewWorkflowBuilder(id, name)] followed by [AddStep] for each step. *)
Definition NewWorkflowBuilder (id name : string) (stepDefs : list (@StepDefinition W))
  : @WorkflowDefinition W :=
  {| wd_ID := id;
     wd_Name := name;
     wd_Description := "";
     wd_Version := "1.0.0";
     wd_Steps := stepDefs;
     wd_Metadata := ∅ |}.

(** [NewOrchestrator(NewInMemoryStateManager())] in a fresh environment. *)
Definition NewOrchestrator (w : W) : @Runtime W :=
  mkRuntime NewInMemoryStateManager ∅ w 0 0 [] [].

End Builders.


(** ** The scenarios of the specification, as programs *)

Module Scenario.

(** The result and the runtime of a run that returned a result. *)
Definition result_of {W} (run : @Res W (option WorkflowResult * option string))
  : WorkflowResult :=
  match run with
  | Val (Some res, _) _ => res
  | _ => mkWorkflowResult false
           (mkWorkflowInstance "" "" WorkflowStatusPending ∅ ∅ ∅ "" [] 0 None None 0
              None ∅ "" "" "") ∅ None 0
  end.
Definition runtime_of {W} (run : @Res W (option WorkflowResult * option string))
    (otherwise : @Runtime W) : @Runtime W :=
  match run with
  | Val _ r => r
  | _ => otherwise
  end.

(** S2: [S1] returns [{"x": 42}]; [S2] depends on [S1], records the input
    it receives and returns [{"y": 43}]. The world is the list of inputs
    seen by [S2]. *)
Definition s2_step1 : @StepDefinition (list GoMap) :=
  NewStepBuilder "S1" "S1" (λ w _, (ExecOk {[ "x" := VInt 42 ]}, w)).
Definition s2_step2 : @StepDefinition (list GoMap) :=
  WithDependencies ["S1"]
    (NewStepBuilder "S2" "S2" (λ w input, (ExecOk {[ "y" := VInt 43 ]}, w ++ [input]))).
Definition s2_workflow : @WorkflowDefinition (list GoMap) :=
  NewWorkflowBuilder "W" "W" [s2_step1; s2_step2].
Definition s2_run : Res (option WorkflowResult * option string) :=
  (RegisterWorkflow (Some s2_workflow);; StartWorkflow ∅ "W" ∅ ∅) (NewOrchestrator []).


(** S5: one required step, no retry policy, failing with "boom". *)
Definition s5_workflow : @WorkflowDefinition unit :=
  NewWorkflowBuilder "W" "W" [NewStepBuilder "S" "S" (λ w _, (ExecErr "boom", w))].
Definition s5_start : @Runtime unit :=
  match RegisterWorkflow (Some s5_workflow) (NewOrchestrator tt) with
  | Val _ r => r
  | _ => NewOrchestrator tt
  end.
Definition s5_run : Res (option WorkflowResult * option string) :=
  StartWorkflow ∅ "W" ∅ ∅ s5_start.

(** The same workflow run by [executeWorkflow] on a pending instance that
    the store already holds. *)
Definition s5_instance : WorkflowInstance :=
  mkWorkflowInstance "wf-1" "W" WorkflowStatusPending ∅ ∅ ∅ "" [] 0 None None 0
    None ∅ "" "" "".
Definition s5_saved : @Runtime unit :=
  rt_with_stateManager (SaveWorkflow (rt_stateManager s5_start) s5_instance).2 s5_start.
Definition s5_exec : Res (option WorkflowResult * option string) :=
  executeWorkflow s5_workflow s5_instance s5_saved.

(** S8: the single step fails the first time its executor is called and
    succeeds afterwards; the world counts the calls. *)
Definition s8_workflow : @WorkflowDefinition nat :=
  NewWorkflowBuilder "W" "W"
    [NewStepBuilder "S" "S"
       (λ calls _, (if bool_decide (calls = 0%nat) then ExecErr "first call"
                    else ExecOk {[ "r" := VStr "ok" ]}, S calls))].
Definition s8_start : @Runtime nat :=
  match RegisterWorkflow (Some s8_workflow) (NewOrchestrator 0%nat) with
  | Val _ r => r
  | _ => NewOrchestrator 0%nat
  end.
Definition s8_run : Res (option WorkflowResult * option string) :=
  StartWorkflow ∅ "W" ∅ ∅ s8_start.
Definition s8_after_start : @Runtime nat := runtime_of s8_run s8_start.

(** One step returning [{"r": "ok"}] (S1). *)
Definition s1_workflow : @WorkflowDefinition unit :=
  NewWorkflowBuilder "W" "W"
    [NewStepBuilder "S" "S" (λ w _, (ExecOk {[ "r" := VStr "ok" ]}, w))].
Definition s1_run : Res (option WorkflowResult * option string) :=
  (RegisterWorkflow (Some s1_workflow);; StartWorkflow ∅ "W" {[ "in" := VInt 1 ]} ∅)
    (NewOrchestrator tt).

(** A step that always fails with "boom" under a policy of three attempts
    whose retryable patterns are ["timeout"] only. *)
Definition gated_policy : RetryPolicy :=
  {| rp_MaxAttempts := 3;
     rp_InitialInterval := 0;
     rp_MaxInterval := 0;
     rp_Multiplier := f64_of_int 2;
     rp_RetryableErrors := ["timeout"] |}.
Definition gated_workflow : @WorkflowDefinition unit :=
  NewWorkflowBuilder "W" "W"
    [WithRetryPolicy gated_policy
       (NewStepBuilder "S" "S" (λ w _, (ExecErr "boom", w)))].
Definition gated_run : Res (option WorkflowResult * option string) :=
  (RegisterWorkflow (Some gated_workflow);; StartWorkflow ∅ "W" ∅ ∅) (NewOrchestrator tt).

(** Two steps that depend on each other. *)
Definition cyclic_workflow : @WorkflowDefinition unit :=
  NewWorkflowBuilder "W" "W"
    [WithDependencies ["B"] (NewStepBuilder "A" "A" (λ w _, (ExecOk ∅, w)));
     WithDependencies ["A"] (NewStepBuilder "B" "B" (λ w _, (ExecOk ∅, w)))].

(** A definition with an identifier and nothing else. *)
Definition hollow_workflow : @WorkflowDefinition unit :=
  NewWorkflowBuilder "W" "" [].

(** Retry policies: 1ms initial interval and multiplier 2 with no maximum
    interval set (the policy of S4); a negative multiplier; a negative
    initial interval. *)
Definition uncapped_policy : RetryPolicy :=
  {| rp_MaxAttempts := 3;
     rp_InitialInterval := 1000000;
     rp_MaxInterval := 0;
     rp_Multiplier := f64_of_int 2;
     rp_RetryableErrors := [] |}.

(** A store holding the two step instances of workflow instance "wf-1". *)
Definition two_steps_step (id : string) (order : Z) : StepInstance :=
  mkStepInstance id id "wf-1" StepStatusPending ∅ ∅ None None None 0 None 0 order.
Definition two_steps_store : InMemoryStateManager :=
  (SaveStep (SaveStep NewInMemoryStateManager (two_steps_step "first" 0)).2
            (two_steps_step "second" 1)).2.

(** A workflow instance whose [Input] holds a flat entry and a nested map,
    laid out in memory, and a store holding a copy of it:
    [Input = {"key": "value", "cfg": {"k": 1}}]. *)
Definition nested_heap : Mem.Heap :=
  Mem.mkHeap
    (<[ 0%nat := Mem.CMap {[ "k" := Mem.HInt 1 ]} ]>
     (<[ 1%nat := Mem.CMap {[ "key" := Mem.HStr "value"; "cfg" := Mem.HMapRef 0 ]} ]>
      (<[ 2%nat := Mem.CWorkflow
            (Mem.mkWorkflowRec "wf-1" "W" WorkflowStatusPending (Some 1%nat) None None ""
               [] 0 None None 0 None None "" "" "") ]> ∅)))
    3.

(** [sm.SaveWorkflow(ctx, original); copied, _ := sm.GetWorkflow(ctx, "wf-1")] *)
Definition nested_saved : option (Mem.InMemoryStateManager * Mem.Heap) :=
  Mem.SaveWorkflow nested_heap (Mem.mkStore ∅ ∅) 2%nat.
Definition nested_first_read : option (Mem.InMemoryStateManager * nat * Mem.Heap) :=
  '(m, h) ← nested_saved;
  '(res, h) ← Mem.GetWorkflow h m "wf-1";
  match res with
  | inl copied => Some (m, copied, h)
  | inr _ => None
  end.

(** What the first read returned, as the caller sees it. *)
Definition nested_first_view : option WorkflowInstance :=
  '(m, copied, h) ← nested_first_read;
  Mem.viewWorkflow 8 h copied.

(** A second read, after [update] has been applied to the memory through
    the pointer returned by the first read. *)
Definition nested_second_read (update : nat → Mem.Heap → Mem.Heap)
  : option WorkflowInstance :=
  '(m, copied, h) ← nested_first_read;
  '(res, h) ← Mem.GetWorkflow (update copied h) m "wf-1";
  match res with
  | inl again => Mem.viewWorkflow 8 h again
  | inr _ => None
  end.

(** The state of S2 when its second wave begins: [S1] has completed with
    [{"x": 42}] and its output has been merged; [S2] is pending. *)
Definition s2_instance : WorkflowInstance :=
  mergeStepOutput
    (mkWorkflowInstance "wf-1" "W" WorkflowStatusRunning ∅ ∅ ∅ ""
       [ mkStepInstance "st-1" "S1" "wf-1" StepStatusCompleted ∅ {[ "x" := VInt 42 ]}
           None None None 0 None 0 0;
         mkStepInstance "st-2" "S2" "wf-1" StepStatusPending ∅ ∅
           None None None 0 None 0 1 ]
       0 None None 0 None ∅ "" "" "")
    "S1" {[ "x" := VInt 42 ]}.
Definition s2_step_run : Res (option string * WorkflowInstance) :=
  executeStep s2_step2 1 s2_instance (buildStepInstMap s2_instance) (NewOrchestrator []).


End Scenario.

(** ** Vocabulary of the statements *)


(** "Overlaying in order, last writer wins": the layers are laid one over
    the other from the first to the last. *)
Definition overlay (layers : list GoMap) : GoMap :=
  foldl (λ acc layer, layer ∪ acc) ∅ layers.

(** The layers a dependency contributes: its outputs under their own keys,
    then the whole output under the dependency's identifier. A dependency
    without a step instance contributes nothing. *)
Definition dependencyLayers (workflowInst : WorkflowInstance)
    (stepInstMap : gmap string nat) (depID : string) : list GoMap :=
  match stepInstMap !! depID ≫= deref workflowInst with
  | Some depInst => [si_Output depInst; {[ depID := VMap (si_Output depInst) ]}]
  | None => []
  end.

(** The input mapping as the specification describes it. *)
Definition spec_stepInput {W} (stepDef : @StepDefinition W)
    (workflowInst : WorkflowInstance) (stepInstMap : gmap string nat) : GoMap :=
  overlay ([wi_Input workflowInst]
           ++ concat (dependencyLayers workflowInst stepInstMap <$> sd_Dependencies stepDef)
           ++ [wi_Context workflowInst]).

(** A dependency of some step names no step of the workflow. *)
Definition dangling {W} (workflow : @WorkflowDefinition W) : Prop :=
  ∃ step dep, step ∈ wd_Steps workflow ∧ dep ∈ sd_Dependencies step
              ∧ dep ∉ sd_ID <$> wd_Steps workflow.

(** The dependency graph induced by a definition, and its cycles. *)
Definition depends {W} (workflow : @WorkflowDefinition W) (a b : string) : Prop :=
  ∃ step, step ∈ wd_Steps workflow ∧ sd_ID step = a ∧ b ∈ sd_Dependencies step.

Definition cyclic {W} (workflow : @WorkflowDefinition W) : Prop :=
  ∃ a, tc (depends workflow) a a.








(** ** A program logic for the engine *)

Section Logic.
Context {W : Type}.

(** [wp m Q r]: if [m], started in [r], returns, then the value it returns
    and the runtime it leaves satisfy [Q]. *)
Definition wp {A} (m : @M W A) (Q : A → @Runtime W → Prop) (r : @Runtime W) : Prop :=
  match m r with
  | Val a r' => Q a r'
  | _ => True
  end.

(** A property of the runtime that the work on a step cannot break: it does
    not depend on the clock, on the identifier supply, on the sleeps taken
    or on the executors' world; it survives a change of the store that
    leaves the table of workflow instances alone; and it survives the
    recording of the executor call [call]. *)
Record Stable (call : string * GoMap) (R : @Runtime W → Prop) : Prop := mkStable {
  stable_clock : ∀ r c, R r → R (rt_with_clock c r);
  stable_uuid : ∀ r u, R r → R (rt_with_uuid u r);
  stable_sleeps : ∀ r l, R r → R (rt_with_sleeps l r);
  stable_store : ∀ r m, R r → workflows m = workflows (rt_stateManager r) →
                        R (rt_with_stateManager m r);
  stable_call : ∀ r w, R r → R (rt_with_calls (rt_calls r ++ [call]) (rt_with_world w r))
}.

(** [triple R m Q]: started in a runtime satisfying [R], if [m] returns
    then the runtime still satisfies [R] and the value satisfies [Q]. *)
Definition triple (R : @Runtime W → Prop) {A} (m : @M W A) (Q : A → Prop) : Prop :=
  ∀ r, R r → wp m (λ a r', R r' ∧ Q a) r.

(** The table of workflow instances and the registry are [ws] and [reg]. *)
Definition tables (ws : gmap string WorkflowInstance)
    (reg : gmap string (@WorkflowDefinition W)) (r : @Runtime W) : Prop :=
  workflows (rt_stateManager r) = ws ∧ rt_workflows r = reg.


(** The calls recorded since [calls] are [n] calls, all of them [call]. *)
Definition called (calls : list (string * GoMap)) (call : string * GoMap)
    (r : @Runtime W) : Prop :=
  ∃ n : nat, rt_calls r = calls ++ replicate n call.

End Logic.

(** ** What a step run does to the workflow instance *)

(** The attempts a step definition allows: those of its policy, one when it
    has none. *)
Definition maxAttempts {W} (stepDef : @StepDefinition W) : Z :=
  match sd_RetryPolicy stepDef with
  | Some policy => rp_MaxAttempts policy
  | None => 1
  end.

(** Nothing but the steps, the context and the output has changed, and the
    steps are the same steps. *)
Record same_frame (inst inst' : WorkflowInstance) : Prop := mkSameFrame {
  frame_ID : wi_ID inst' = wi_ID inst;
  frame_WorkflowID : wi_WorkflowID inst' = wi_WorkflowID inst;
  frame_Status : wi_Status inst' = wi_Status inst;
  frame_Error : wi_Error inst' = wi_Error inst;
  frame_Input : wi_Input inst' = wi_Input inst;
  frame_StepIDs : si_StepID <$> wi_Steps inst' = si_StepID <$> wi_Steps inst;
  frame_InstIDs : si_ID <$> wi_Steps inst' = si_ID <$> wi_Steps inst
}.

(** Only the step instance behind the pointer [p] may have changed. *)
Definition only_step (p : nat) (inst inst' : WorkflowInstance) : Prop :=
  ∀ q, q ≠ p → wi_Steps inst' !! q = wi_Steps inst !! q.

(** A step instance that had failed is left as it was. *)
Definition keeps_failed (inst inst' : WorkflowInstance) : Prop :=
  ∀ q s, wi_Steps inst !! q = Some s → si_Status s = StepStatusFailed →
         wi_Steps inst' !! q = Some s.

(** The step instance of [stepDef] in [inst] has failed with message [msg],
    and [err] is the error [executeStep] returns for it. *)
Definition failed_step {W} (stepDef : @StepDefinition W) (inst : WorkflowInstance)
    (err : string) : Prop :=
  ∃ (p : nat) (stepInst : StepInstance) (msg : string),
    wi_Steps inst !! p = Some stepInst
    ∧ si_StepID stepInst = sd_ID stepDef
    ∧ si_Status stepInst = StepStatusFailed
    ∧ si_Error stepInst = Some msg
    ∧ err = stepFailedError (sd_ID stepDef) (maxAttempts stepDef) msg.

(** The step-instance map points into the instance's steps, at instances of
    the named steps. *)
Definition map_points (stepInstMap : gmap string nat) (inst : WorkflowInstance) : Prop :=
  ∀ id p, stepInstMap !! id = Some p →
          ∃ s, wi_Steps inst !! p = Some s ∧ si_StepID s = id.

(** ** Specifications of the engine's functions *)

Section Specifications.
Context {W : Type}.
Implicit Types (stepDef : @StepDefinition W).

(** The step behind [p] has been worked on, and nothing else. *)
Definition step_run (p : nat) (inst inst' : WorkflowInstance) : Prop :=
  same_frame inst inst' ∧ only_step p inst inst'.

(** What [executeStep] returns and leaves: only the step behind [p] is
    worked on; a step that is already terminal is left alone and no error
    is returned; when an error is returned, the step has just failed, its
    error message is the executor's last error, and the returned error is
    that message wrapped. *)
Definition executeStep_post stepDef (p : nat) (inst : WorkflowInstance)
    (out : option string * WorkflowInstance) : Prop :=
  step_run p inst out.2
  ∧ keeps_failed inst out.2
  ∧ (∀ s, wi_Steps inst !! p = Some s → si_IsCompleted s = true →
          out.1 = None ∧ out.2 = inst)
  ∧ (∀ e, out.1 = Some e →
          ∃ s' msg, wi_Steps out.2 !! p = Some s'
                    ∧ si_Status s' = StepStatusFailed
                    ∧ si_Error s' = Some msg
                    ∧ e = stepFailedError (sd_ID stepDef) (maxAttempts stepDef) msg).

(** What the sequential part of a wave returns and leaves. *)
Definition runSyncSteps_post (l : list (@StepDefinition W)) (executed : gset string)
    (inst : WorkflowInstance) (out : option string * gset string * WorkflowInstance) : Prop :=
  same_frame inst out.2
  ∧ keeps_failed inst out.2
  ∧ executed ⊆ out.1.2
  ∧ (out.1.1 = None → ∀ stepDef, stepDef ∈ l → sd_ID stepDef ∈ out.1.2)
  ∧ (∀ e, out.1.1 = Some e →
          ∃ stepDef, stepDef ∈ l ∧ sd_Required stepDef = true ∧ failed_step stepDef out.2 e).

(** What the parallel part of a wave returns and leaves. *)
Definition runAsyncSteps_post (l : list (@StepDefinition W)) (errors : list string)
    (executed : gset string) (inst : WorkflowInstance)
    (out : list string * gset string * WorkflowInstance) : Prop :=
  same_frame inst out.2
  ∧ keeps_failed inst out.2
  ∧ executed ⊆ out.1.2
  ∧ (∀ stepDef, stepDef ∈ l → sd_ID stepDef ∈ out.1.2)
  ∧ (∀ e, e ∈ out.1.1 →
          e ∈ errors
          ∨ ∃ stepDef, stepDef ∈ l ∧ sd_Required stepDef = true ∧ failed_step stepDef out.2 e).

(** What [executeSteps] returns and leaves. *)
Definition executeSteps_post (workflow : @WorkflowDefinition W) (inst : WorkflowInstance)
    (out : option string * WorkflowInstance) : Prop :=
  same_frame inst out.2
  ∧ (∀ e, out.1 = Some e →
          ∃ stepDef, stepDef ∈ wd_Steps workflow ∧ sd_Required stepDef = true
                     ∧ failed_step stepDef out.2 e).

(** What the store and the registry hold for the instance [id]: if the
    instance is stored, it satisfies [P]; the registry is [reg]. *)
Definition table_inv (id : string) (P : WorkflowInstance → Prop)
    (reg : gmap string (@WorkflowDefinition W)) (r : @Runtime W) : Prop :=
  (∀ w, workflows (rt_stateManager r) !! id = Some w → P w) ∧ rt_workflows r = reg.

(** A property of a stored instance that the status, error and completion
    updates of the store do not break. *)
Record update_closed (P : WorkflowInstance → Prop) : Prop := mkUpdateClosed {
  closed_Status : ∀ w st, P w → P (wi_with_Status st w);
  closed_CompletedAt : ∀ w t, P w → P (wi_with_CompletedAt t w);
  closed_Error : ∀ w e, P w → P (wi_with_Error e w)
}.

(** The instance [id] is stored and satisfies [P]; the registry is [reg]. *)
Definition stored_inv (id : string) (P : WorkflowInstance → Prop)
    (reg : gmap string (@WorkflowDefinition W)) (r : @Runtime W) : Prop :=
  (∃ w, workflows (rt_stateManager r) !! id = Some w ∧ P w) ∧ rt_workflows r = reg.

(** What the creation of the step instances returns. *)
Definition initSteps_post (stepDefs : list (@StepDefinition W)) (inst : WorkflowInstance)
    (out : WorkflowInstance + string) : Prop :=
  match out with
  | inl inst' =>
      ∃ news, inst' = wi_with_Steps (wi_Steps inst ++ news) inst
              ∧ si_StepID <$> news = sd_ID <$> stepDefs
  | inr _ => True
  end.

(** What [executeWorkflow] returns with a result: the instance of the
    result is the one it was given, the store holds the instance under the
    same status, and either no error is returned and the workflow is
    completed, or the error returned is the wrapped error of a required
    step that has failed, recorded in the instance and in the store. *)
Definition executeWorkflow_post (workflow : @WorkflowDefinition W) (inst : WorkflowInstance)
    (P : WorkflowInstance → Prop)
    (out : option WorkflowResult * option string) (r' : @Runtime W) : Prop :=
  ∀ res, out.1 = Some res →
    wi_ID (wr_WorkflowInst res) = wi_ID inst
    ∧ wi_WorkflowID (wr_WorkflowInst res) = wi_WorkflowID inst
    ∧ (wi_Steps inst = [] →
       si_StepID <$> wi_Steps (wr_WorkflowInst res) = sd_ID <$> wd_Steps workflow)
    ∧ ∃ stored,
        workflows (rt_stateManager r') !! wi_ID inst = Some stored
        ∧ P stored
        ∧ wi_Status stored = wi_Status (wr_WorkflowInst res)
        ∧ match out.2 with
          | Some e =>
              wr_Success res = false
              ∧ wi_Status (wr_WorkflowInst res) = WorkflowStatusFailed
              ∧ wi_Error (wr_WorkflowInst res) = Some e
              ∧ wi_Error stored = Some e
              ∧ ∃ stepDef, stepDef ∈ wd_Steps workflow ∧ sd_Required stepDef = true
                           ∧ failed_step stepDef (wr_WorkflowInst res) e
          | None =>
              wr_Success res = true
              ∧ wi_Status (wr_WorkflowInst res) = WorkflowStatusCompleted
              ∧ wr_Output res = wi_Output (wr_WorkflowInst res)
          end.

(** What the store holds for an instance created by [StartWorkflow]: the
    definition it was started from, and no steps. *)
Definition started_from (workflowID : string) (w : WorkflowInstance) : Prop :=
  wi_WorkflowID w = workflowID ∧ wi_Steps w = [].

(** What [StartWorkflow] returns with a result. *)
Definition StartWorkflow_post (workflowID : string) (r : @Runtime W)
    (out : option WorkflowResult * option string) (r' : @Runtime W) : Prop :=
  ∀ res, out.1 = Some res →
    ∃ workflow instance,
      rt_workflows r !! workflowID = Some workflow
      ∧ rt_workflows r' = rt_workflows r
      ∧ wi_WorkflowID instance = workflowID
      ∧ wi_Steps instance = []
      ∧ executeWorkflow_post workflow instance (started_from workflowID) out r'.

(** [m] never hits a loop bound. *)
Definition fueled {A} (m : @M W A) : Prop := ∀ r, m r ≠ OutOfFuel.

(** The steps of the definition that are still to be marked executed. *)
Definition pending (workflow : @WorkflowDefinition W) (executed : gset string) : gset string :=
  list_to_set (sd_ID <$> wd_Steps workflow) ∖ executed.

(** [m] never panics. *)
Definition calm {A} (m : @M W A) : Prop := ∀ r, m r ≠ Panic.

(** Every step of the list has a step instance behind the map and a policy
    that allows at least one attempt. *)
Definition runnable (l : list (@StepDefinition W)) (stepInstMap : gmap string nat) : Prop :=
  ∀ stepDef, stepDef ∈ l →
    is_Some (stepInstMap !! sd_ID stepDef) ∧ 1 <= maxAttempts stepDef.

End Specifications.


(** The policy with its list of retryable error patterns replaced. *)
Definition with_RetryableErrors (errors : list string) (policy : RetryPolicy) : RetryPolicy :=
  mkRetryPolicy (rp_MaxAttempts policy) (rp_InitialInterval policy)
    (rp_MaxInterval policy) (rp_Multiplier policy) errors.

(** ** state_manager.go: listing and events *)

(** [GetWorkflowEvents] ranges over the Go map [m.events]; the order of the
    visit is the argument [range_order], as for [GetWorkflowSteps]. *)
Definition GetWorkflowEvents (m : InMemoryStateManager) (range_order : list string)
    (workflowInstID : string) : list WorkflowEvent * option string :=
  (foldl (λ acc k,
            match events m !! k with
            | Some event =>
                if bool_decide (ev_WorkflowInstID event = workflowInstID)
                then acc ++ [deepCopyEvent event] else acc
            | None => acc
            end) [] range_order,
   None).

(** A value of the [filters] map of [ListWorkflows]: an [interface{}] whose
    dynamic type is one of those of [Value], or [WorkflowStatus]. *)
Inductive FilterValue : Type :=
  | FPlain (v : Value)
  | FStatus (status : WorkflowStatus).

(** [field != value] for a field of type [string]: the interface values are
    equal when [value] holds a [string] with the same content. *)
Definition string_ne (field : string) (value : FilterValue) : bool :=
  match value with
  | FPlain (VStr s) => negb (bool_decide (field = s))
  | _ => true
  end.

(** [workflow.Status != value]: equal when [value] holds a
    [WorkflowStatus], the same one. *)
Definition status_ne (field : WorkflowStatus) (value : FilterValue) : bool :=
  match value with
  | FStatus status => negb (bool_decide (field = status))
  | _ => true
  end.

(** The [switch key] of the filter loop: whether [matches] is set to
    false. *)
Definition filterFails (workflow : WorkflowInstance) (key : string) (value : FilterValue)
  : bool :=
  if bool_decide (key = "workflow_id") then string_ne (wi_WorkflowID workflow) value
  else if bool_decide (key = "status") then status_ne (wi_Status workflow) value
  else if bool_decide (key = "trace_id") then string_ne (wi_TraceID workflow) value
  else if bool_decide (key = "correlation_id") then string_ne (wi_CorrelationID workflow) value
  else if bool_decide (key = "business_id") then string_ne (wi_BusinessID workflow) value
  else false.

(** [for key, value := range filters { ...; if !matches { break } }]: the
    value of [matches] after the loop, the entries being visited in the
    order [entries]. *)
Fixpoint filterLoop (workflow : WorkflowInstance) (entries : list (string * FilterValue))
  : bool :=
  match entries with
  | [] => true
  | (key, value) :: rest =>
      if filterFails workflow key value then false
      else filterLoop workflow rest
  end.

(** Go's [int] on a 64-bit platform: the result of an addition wraps. *)
Definition wrap64 (z : Z) : Z := (z + 2 ^ 63) `mod` 2 ^ 64 - 2 ^ 63.

(** [s[low:high]] for [high] no larger than the length (and so than the
    capacity): [None] is the run-time panic on bounds out of range. *)
Definition slice {A} (s : list A) (low high : Z) : option (list A) :=
  if bool_decide (0 <= low ∧ low <= high ∧ high <= Z.of_nat (length s))
  then Some (take (Z.to_nat (high - low)) (drop (Z.to_nat low) s))
  else None.

(** The matching workflows, copied, in the order of the range over
    [m.workflows]. *)
Definition listMatches (m : InMemoryStateManager) (range_order : list string)
    (filter_order : list (string * FilterValue)) : list WorkflowInstance :=
  foldl (λ results k,
           match workflows m !! k with
           | Some workflow =>
               if filterLoop workflow filter_order
               then results ++ [deepCopyWorkflow workflow] else results
           | None => results
           end) [] range_order.

(** [ListWorkflows]: the page, the total and the error; [None] is a
    panic. [range_order] is the order of the range over [m.workflows],
    [filter_order] that of the range over [filters]. *)
Definition ListWorkflows (m : InMemoryStateManager) (range_order : list string)
    (filter_order : list (string * FilterValue)) (limit offset : Z)
  : option (list WorkflowInstance * Z * option string) :=
  let results := listMatches m range_order filter_order in
  let total := Z.of_nat (length results) in
  if bool_decide (offset >= Z.of_nat (length results)) then Some ([], total, None)
  else
    let end_ := wrap64 (offset + limit) in
    let end_ := if bool_decide (end_ > Z.of_nat (length results))
                then Z.of_nat (length results) else end_ in
    page ← slice results offset end_;
    Some (page, total, None).

(** A workflow passes the filters [filters]: no entry fails. *)
Definition passes (filters : gmap string FilterValue) (workflow : WorkflowInstance) : Prop :=
  map_Forall (λ key value, filterFails workflow key value = false) filters.


(** ** The map comparison of the tests *)

(** [x != y] on two [interface{}] values that hold nil, a [bool], an
    [int], a [string] or a map: values of different dynamic types are
    unequal; two maps cannot be compared, the comparison panics ([None]).
    Other dynamic types (floats, slices, structs) are outside [Value]. *)
Definition iface_ne (x y : Value) : option bool :=
  match x, y with
  | VNil, VNil => Some false
  | VBool a, VBool b => Some (negb (bool_decide (a = b)))
  | VInt a, VInt b => Some (negb (bool_decide (a = b)))
  | VStr a, VStr b => Some (negb (bool_decide (a = b)))
  | VMap _, VMap _ => None
  | _, _ => Some true
  end.

(** [for k, v := range a { if b[k] != v { return false } }; return true],
    the keys being visited in the order [keys]. A key that [b] lacks reads
    as nil. *)
Fixpoint mapsEqualLoop (a b : GoMap) (keys : list string) : option bool :=
  match keys with
  | [] => Some true
  | k :: rest =>
      match a !! k with
      | None => mapsEqualLoop a b rest
      | Some v =>
          match iface_ne (default VNil (b !! k)) v with
          | None => None
          | Some true => Some false
          | Some false => mapsEqualLoop a b rest
          end
      end
  end.

(** [mapsEqual]; [None] is a panic. *)
Definition mapsEqual (a b : GoMap) (range_order : list string) : option bool :=
  if bool_decide (size a ≠ size b) then Some false
  else mapsEqualLoop a b range_order.

(** A value that is a boolean, an integer or a string. *)
Definition scalar (v : Value) : Prop :=
  match v with
  | VBool _ | VInt _ | VStr _ => True
  | VNil | VMap _ => False
  end.


(** ** types.go: the remaining helper methods *)

(** [WorkflowInstance.GetContext]: the value under [key], the nil interface
    when there is none (a nil [Context] reads like an empty one). *)
Definition GetContext (w : WorkflowInstance) (key : string) : Value :=
  default VNil (wi_Context w !! key).

(** [WorkflowInstance.SetContext]: a nil [Context] is made a map first, so
    the assignment never panics. *)
Definition SetContext (key : string) (value : Value) (w : WorkflowInstance)
  : WorkflowInstance :=
  wi_with_Context (<[key := value]> (wi_Context w)) w.

(** [WorkflowInstance.CanRetry] *)
Definition wi_CanRetry (w : WorkflowInstance) (maxRetries : Z) : bool :=
  bool_decide (wi_Status w = WorkflowStatusFailed)
  && bool_decide (wi_RetryCount w < maxRetries).

(** [StepInstance.CanRetry]; a nil policy is [None]. *)
Definition si_CanRetry (s : StepInstance) (policy : option RetryPolicy) : bool :=
  match policy with
  | None => false
  | Some policy =>
      bool_decide (si_Status s = StepStatusFailed)
      && bool_decide (si_RetryCount s < rp_MaxAttempts policy)
  end.

(** ** Vocabulary of the further statements *)

(** The policy [executeStep] works with: that of the step, or one attempt
    and no interval when the step has none. *)
Definition effectivePolicy {W} (stepDef : @StepDefinition W) : RetryPolicy :=
  match sd_RetryPolicy stepDef with
  | Some policy => policy
  | None => mkRetryPolicy 1 0 0 (S754_zero false) []
  end.

(** The sleeps taken when a step is attempted [n] times: one before each
    of the attempts 1 to [n - 1], of the interval computed for it. *)
Definition retrySleeps (policy : RetryPolicy) (n : nat) : list Z :=
  (λ i, calculateRetryInterval policy (Z.of_nat i)) <$> seq 1 (n - 1).

(** Between [r] and [r'] no executor was called, no sleep was taken and the
    registry was not written. *)
Definition quiet {W} (r r' : @Runtime W) : Prop :=
  rt_calls r' = rt_calls r ∧ rt_sleeps r' = rt_sleeps r
  ∧ rt_world r' = rt_world r ∧ rt_workflows r' = rt_workflows r.

(** A computation that calls no executor, takes no sleep and leaves the
    registry alone. *)
Definition quiet_op {W A} (m : @M W A) : Prop := ∀ r, wp m (λ _ r', quiet r r') r.

(** The executor calls and the sleeps recorded in [r] are [calls] and
    [sleeps]. *)
Definition logged {W} (calls : list (string * GoMap)) (sleeps : list Z) (r : @Runtime W)
  : Prop :=
  rt_calls r = calls ∧ rt_sleeps r = sleeps.

(** Between [r] and [r'] only the clock, the identifier supply and the
    table of events may have changed. *)
Definition keeps {W} (r r' : @Runtime W) : Prop :=
  quiet r r'
  ∧ workflows (rt_stateManager r') = workflows (rt_stateManager r)
  ∧ steps (rt_stateManager r') = steps (rt_stateManager r).

(** [m] returns from every runtime, having changed at most the clock, the
    identifier supply and the events. *)
Definition returns_keeping {W A} (m : @M W A) : Prop :=
  ∀ r, ∃ a r', m r = Val a r' ∧ keeps r r'.

(** Between [r] and [r'] no executor was called and no workflow instance
    was removed from the store. *)
Definition keeps_wf {W} (r r' : @Runtime W) : Prop :=
  quiet r r'
  ∧ ∀ id, is_Some (workflows (rt_stateManager r) !! id) →
          is_Some (workflows (rt_stateManager r') !! id).

(** [m] returns from every runtime, quietly and without removing a
    workflow instance. *)
Definition returns_wf {W A} (m : @M W A) : Prop :=
  ∀ r, ∃ a r', m r = Val a r' ∧ keeps_wf r r'.

(** [twp m Q r]: [m], started in [r], returns, and the value it returns and
    the runtime it leaves satisfy [Q]. *)
Definition twp {W A} (m : @M W A) (Q : A → @Runtime W → Prop) (r : @Runtime W) : Prop :=
  ∃ a r', m r = Val a r' ∧ Q a r'.

(** A stored instance to which neither step instances nor outputs have
    been written. *)
Definition unwritten (w : WorkflowInstance) : Prop :=
  wi_Steps w = [] ∧ wi_Output w = ∅ ∧ wi_Context w = ∅.


Section FurtherSpecifications.
Context {W : Type}.

(** What a run of [executeStep] on a step that is not yet terminal does:
    [n] executor calls with [input], the sleeps of the retries, and the
    step instance it leaves. *)
Definition executeStep_attempts_post (stepDef : @StepDefinition W) (p : nat) (input : GoMap)
    (stepInst : StepInstance) (c : list (string * GoMap)) (s : list Z)
    (out : option string * WorkflowInstance) (r' : @Runtime W) : Prop :=
  ∃ n : nat,
    1 <= Z.of_nat n <= maxAttempts stepDef
    ∧ logged (c ++ replicate n (sd_ID stepDef, input))
        (s ++ retrySleeps (effectivePolicy stepDef) n) r'
    ∧ (is_Some out.1 → Z.of_nat n = maxAttempts stepDef)
    ∧ ∃ s', deref out.2 p = Some s'
            ∧ si_Status s' = (if out.1 is Some _ then StepStatusFailed else StepStatusCompleted)
            ∧ si_RetryCount s'
              = (if bool_decide (n ≤ 1)%nat then si_RetryCount stepInst
                 else Z.of_nat n - 1).

End FurtherSpecifications.


(** ** orchestrator.go: the asynchronous start *)

Section Async.
Context {W : Type}.

(** [StartWorkflowAsync]: the identifier and the error returned, and the
    body of the goroutine started by [go func() { ... }()], which is
    [o.executeWorkflow(asyncCtx, workflow, instance)]; [None] when the
    function returns before starting one. When the goroutine runs is up to
    the scheduler. *)
Definition StartWorkflowAsync (ctx : GoMap) (workflowID : string) (input metadata : GoMap)
  : @M W (string * option string
          * option (@M W (option WorkflowResult * option string))) :=
  def ← GetWorkflowDef workflowID;
  match def with
  | inr err => mret ("", Some err, None)
  | inl workflow =>
      id ← uuid_New;
      startedAt ← time_Now;
      traceID ← getTraceID ctx metadata;
      correlationID ← getCorrelationID ctx metadata;
      businessID ← getBusinessID ctx metadata;
      let instance :=
        {| wi_ID := id;
           wi_WorkflowID := workflowID;
           wi_Status := WorkflowStatusPending;
           wi_Input := input;
           wi_Output := ∅;
           wi_Context := ∅;
           wi_CurrentStepID := "";
           wi_Steps := [];
           wi_StartedAt := startedAt;
           wi_CompletedAt := None;
           wi_Error := None;
           wi_RetryCount := 0;
           wi_LastRetryAt := None;
           wi_Metadata := metadata;
           wi_TraceID := traceID;
           wi_CorrelationID := correlationID;
           wi_BusinessID := businessID |} in
      err ← store_op (λ m, SaveWorkflow m instance);
      match err with
      | Some err => mret ("", Some ("failed to save workflow: " +:+ err), None)
      | None =>
          emitEvent (wi_ID instance) None "workflow.started"
            {[ "workflow_id" := VStr workflowID ]};;
          mret (wi_ID instance, None, Some (executeWorkflow workflow instance))
      end
  end.

End Async.


(** ** Vocabulary of the scheduler *)

(** The step [step] is ready: it is not marked executed and every
    dependency the graph lists for its identifier is. *)
Definition ready {W} (executed : gset string) (graph : gmap string (list string))
    (step : @StepDefinition W) : Prop :=
  (sd_ID step ∉ executed)
  ∧ Forall (λ dep, dep ∈ executed) (default [] (graph !! sd_ID step)).

#[global] Instance ready_dec {W} executed graph (step : @StepDefinition W) :
  Decision (ready executed graph step).
Proof. unfold ready. apply _. Defined.

(** The identifiers of the steps called in [calls]. *)
Definition calledIDs (calls : list (string * GoMap)) : gset string :=
  list_to_set (calls.*1).

(** Every call of [calls] to a step comes after a call to each dependency
    the graph lists for the step, the dependencies in [before] apart. *)
Definition dependency_ordered (graph : gmap string (list string)) (before : gset string)
    (calls : list (string * GoMap)) : Prop :=
  ∀ (i : nat) id input, calls !! i = Some (id, input) →
    ∀ dep, dep ∈ default [] (graph !! id) → dep ∈ before ∪ calledIDs (take i calls).


(** A definition with at most one asynchronous step. No wave of its runs
    starts more than one goroutine, so that its steps are executed one
    after the other. *)
Definition at_most_one_async {W} (workflow : @WorkflowDefinition W) : Prop :=
  (length (filter (λ stepDef, sd_Async stepDef = true) (wd_Steps workflow)) ≤ 1)%nat.

(** The identifiers of the steps whose instance in [inst] is terminal. *)
Definition terminalIDs (inst : WorkflowInstance) : gset string :=
  list_to_set (si_StepID <$> filter (λ s, si_IsCompleted s = true) (wi_Steps inst)).

(** What the scheduler keeps true of the calls [c0 ++ cs] recorded so far:
    the calls [cs] made since the start are ordered by dependency; the
    identifiers in [D] and those marked executed have been called or were
    terminal before; so have the steps whose instance is terminal now. *)
Definition sched_inv {W} (graph : gmap string (list string)) (before : gset string)
    (c0 : list (string * GoMap)) (D executed : gset string)
    (inst : WorkflowInstance) (r : @Runtime W) : Prop :=
  ∃ cs,
    rt_calls r = c0 ++ cs
    ∧ dependency_ordered graph before cs
    ∧ D ⊆ before ∪ calledIDs cs
    ∧ executed ⊆ before ∪ calledIDs cs
    ∧ (∀ q s, wi_Steps inst !! q = Some s → si_IsCompleted s = true →
              si_StepID s ∈ before ∪ calledIDs cs).


(** ** builder.go: more setters of the step builder *)

Section MoreBuilders.
Context {W : Type}.

Definition WithRequired (required : bool) (b : @StepDefinition W) : @StepDefinition W :=
  mkStepDefinition (sd_ID b) (sd_Name b) (sd_Description b) (sd_Executor b)
    (sd_Compensator b) (sd_Dependencies b) (sd_RetryPolicy b) (sd_Timeout b)
    required (sd_Async b) (sd_Priority b).

Definition WithAsync (async : bool) (b : @StepDefinition W) : @StepDefinition W :=
  mkStepDefinition (sd_ID b) (sd_Name b) (sd_Description b) (sd_Executor b)
    (sd_Compensator b) (sd_Dependencies b) (sd_RetryPolicy b) (sd_Timeout b)
    (sd_Required b) async (sd_Priority b).

End MoreBuilders.


(** ** More concrete inputs *)

Module Examples.

(** A store of three workflow instances: two of workflow "W1", completed
    and failed, and one of "W2", completed. *)
Definition listed (id workflowID : string) (status : WorkflowStatus) : WorkflowInstance :=
  mkWorkflowInstance id workflowID status ∅ ∅ ∅ "" [] 0 None None 0 None ∅ "" "" "".
Definition three_workflows : InMemoryStateManager :=
  (SaveWorkflow
     (SaveWorkflow
        (SaveWorkflow NewInMemoryStateManager (listed "a" "W1" WorkflowStatusCompleted)).2
        (listed "b" "W1" WorkflowStatusFailed)).2
     (listed "c" "W2" WorkflowStatusCompleted)).2.
Definition three_order : list string := (map_to_list (workflows three_workflows)).*1.
Definition w1_filter : gmap string FilterValue := {[ "workflow_id" := FPlain (VStr "W1") ]}.

(** A step under the policy "three attempts, 1ms, doubling" whose executor
    fails on its first two calls; the world counts the calls. Its instance
    is pending in a running workflow instance. *)
Definition flaky_step : @StepDefinition nat :=
  WithRetryPolicy Scenario.uncapped_policy
    (NewStepBuilder "S" "S"
       (λ calls _, (if bool_decide (calls < 2)%nat then ExecErr "not yet"
                    else ExecOk {[ "r" := VStr "ok" ]}, S calls))).
Definition hopeless_step : @StepDefinition nat :=
  WithRetryPolicy Scenario.uncapped_policy
    (NewStepBuilder "S" "S" (λ calls _, (ExecErr "boom", S calls))).
Definition one_step : StepInstance :=
  mkStepInstance "st-1" "S" "wf-1" StepStatusPending ∅ ∅ None None None 0 None 0 0.
Definition one_step_instance : WorkflowInstance :=
  mkWorkflowInstance "wf-1" "W" WorkflowStatusRunning ∅ ∅ ∅ "" [one_step]
    0 None None 0 None ∅ "" "" "".
Definition flaky_run : Res (option string * WorkflowInstance) :=
  executeStep flaky_step 0 one_step_instance (buildStepInstMap one_step_instance)
    (NewOrchestrator 0%nat).
Definition hopeless_run : Res (option string * WorkflowInstance) :=
  executeStep hopeless_step 0 one_step_instance (buildStepInstMap one_step_instance)
    (NewOrchestrator 0%nat).

(** A policy that allows no attempt. *)
Definition zero_policy : RetryPolicy :=
  {| rp_MaxAttempts := 0;
     rp_InitialInterval := 0;
     rp_MaxInterval := 0;
     rp_Multiplier := f64_of_int 2;
     rp_RetryableErrors := [] |}.

(** Scenario S2 with its workflow registered. *)
Definition s2_start : @Runtime (list GoMap) :=
  match RegisterWorkflow (Some Scenario.s2_workflow) (NewOrchestrator []) with
  | Val _ r => r
  | _ => NewOrchestrator []
  end.

(** A workflow of two optional steps, the first of which always fails; the
    world counts the executor calls. *)
Definition optional_workflow : @WorkflowDefinition nat :=
  NewWorkflowBuilder "W" "W"
    [ WithRequired false (NewStepBuilder "A" "A" (λ calls _, (ExecErr "boom", S calls)));
      WithRequired false
        (WithDependencies ["A"]
           (NewStepBuilder "B" "B" (λ calls _, (ExecOk {[ "b" := VInt 1 ]}, S calls)))) ].
Definition optional_start : @Runtime nat :=
  match RegisterWorkflow (Some optional_workflow) (NewOrchestrator 0%nat) with
  | Val _ r => r
  | _ => NewOrchestrator 0%nat
  end.

(** A workflow of one step that returns an output, registered. *)
Definition single_workflow : @WorkflowDefinition unit :=
  NewWorkflowBuilder "W" "W"
    [ NewStepBuilder "A" "A" (λ w _, (ExecOk {[ "b" := VInt 1 ]}, w)) ].
Definition single_start : @Runtime unit :=
  match RegisterWorkflow (Some single_workflow) (NewOrchestrator tt) with
  | Val _ r => r
  | _ => NewOrchestrator tt
  end.

(** Two sequential steps without dependencies: [A], of priority 10,
    returns [{"x": 42}]; [B], of priority 0, records the input it
    receives. The world is the list of inputs seen by [B]. *)
Definition context_workflow : @WorkflowDefinition (list GoMap) :=
  NewWorkflowBuilder "W" "W"
    [ NewStepBuilder "B" "B" (λ w input, (ExecOk ∅, w ++ [input]));
      WithPriority 10 (NewStepBuilder "A" "A" (λ w _, (ExecOk {[ "x" := VInt 42 ]}, w))) ].
Definition context_run : Res (option WorkflowResult * option string) :=
  (RegisterWorkflow (Some context_workflow);; StartWorkflow ∅ "W" ∅ ∅) (NewOrchestrator []).


(** The cyclic workflow of the scenarios, registered. *)
Definition cyclic_start : @Runtime unit :=
  match RegisterWorkflow (Some Scenario.cyclic_workflow) (NewOrchestrator tt) with
  | Val _ r => r
  | _ => NewOrchestrator tt
  end.

End Examples.

(** * Properties *)

(** ** Maps and copies *)

Lemma rangeAssign_union (src dst : GoMap) : rangeAssign src dst = src ∪ dst.
Proof.
  unfold rangeAssign.
  apply (map_fold_weak_ind (λ r m, r = m ∪ dst)).
  - by rewrite (left_id ∅ (∪)).
  - intros i x m r _ ->. by rewrite insert_union_l.
Qed.

Lemma rangeAssign_empty (src : GoMap) : rangeAssign src ∅ = src.
Proof. by rewrite rangeAssign_union, (right_id ∅ (∪)). Qed.

(** The result of the loop does not depend on the order in which the Go
    runtime visits the keys. *)
Lemma rangeAssign_any_order (src dst : GoMap) (order : list (string * Value)) :
  order ≡ₚ map_to_list src →
  foldl (λ acc kv, <[kv.1 := kv.2]> acc) dst order = rangeAssign src dst.
Proof.
  intros Hp. rewrite rangeAssign_union.
  assert (Hnd : NoDup order.*1).
  { rewrite Hp. apply NoDup_fst_map_to_list. }
  assert (Hsrc : src = list_to_map order).
  { rewrite <- (list_to_map_to_list src) at 1.
    symmetry. apply list_to_map_proper; [done|done]. }
  rewrite Hsrc. clear Hp Hsrc.
  revert dst. induction order as [|[k v] l IH]; intros dst; simpl.
  - by rewrite (left_id ∅ (∪)).
  - apply NoDup_cons in Hnd as [Hk Hnd].
    rewrite IH by done. simpl.
    apply map_eq. intros i.
    rewrite !lookup_union, !lookup_insert.
    destruct (decide (k = i)) as [->|Hne].
    + rewrite (not_elem_of_list_to_map_1 _ i) by done. by destruct (dst !! i).
    + done.
Qed.

(** With values in place of references a copy is the entity itself. *)
Lemma deepCopyStep_id (s : StepInstance) : deepCopyStep s = s.
Proof.
  destruct s as [? ? ? ? ? ? [] [] [] ? [] ? ?];
    unfold deepCopyStep; simpl; by rewrite !rangeAssign_empty.
Qed.

Lemma deepCopyWorkflow_id (w : WorkflowInstance) : deepCopyWorkflow w = w.
Proof.
  assert (Hl : ∀ l, map deepCopyStep l = l).
  { induction l as [|x l IH]; simpl; [done|by rewrite deepCopyStep_id, IH]. }
  destruct w as [? ? ? ? ? ? ? l ? [] [] ? [] ? ? ? ?];
    unfold deepCopyWorkflow; simpl; by rewrite !rangeAssign_empty, Hl.
Qed.

(** ** Sorting *)

Section Sorting.
Context {W : Type}.
Implicit Types (a b x : @StepDefinition W) (l : list (@StepDefinition W)).

Lemma sort_insert_perm x l : sort_insert byPriority x l ≡ₚ x :: l.
Proof.
  induction l as [|y l IH]; simpl; [done|].
  destruct (byPriority y x); [|done].
  rewrite IH. apply Permutation_swap.
Qed.

Lemma sort_Slice_perm l : sort_Slice byPriority l ≡ₚ l.
Proof.
  induction l as [|x l IH]; simpl; [done|].
  unfold sort_Slice in *. simpl. by rewrite sort_insert_perm, IH.
Qed.




End Sorting.

(** ** The input of a step *)

Lemma overlay_app (l1 l2 : list GoMap) :
  overlay (l1 ++ l2) = foldl (λ acc layer, layer ∪ acc) (overlay l1) l2.
Proof. unfold overlay. by rewrite foldl_app. Qed.

Lemma dependency_loop (workflowInst : WorkflowInstance) (stepInstMap : gmap string nat)
    (deps : list string) (input : GoMap) :
  foldl (λ input depID,
           match stepInstMap !! depID ≫= deref workflowInst with
           | Some depInst =>
               let input := rangeAssign (si_Output depInst) input in
               <[depID := VMap (si_Output depInst)]> input
           | None => input
           end) input deps
  = foldl (λ acc layer, layer ∪ acc) input
      (concat (dependencyLayers workflowInst stepInstMap <$> deps)).
Proof.
  revert input. induction deps as [|d deps IH]; intros input; simpl; [done|].
  rewrite foldl_app, IH. f_equal.
  unfold dependencyLayers.
  destruct (stepInstMap !! d ≫= deref workflowInst) as [depInst|]; simpl; [|done].
  by rewrite rangeAssign_union, insert_union_singleton_l.
Qed.

(** Last writer wins, read key by key: a key of the context is read from
    the context; a key absent from the context and from every dependency
    layer is read from the workflow input. *)
Lemma prepareStepInput_context {W} (stepDef : @StepDefinition W)
    (workflowInst : WorkflowInstance) (stepInstMap : gmap string nat) (k : string) (v : Value) :
  wi_Context workflowInst !! k = Some v →
  prepareStepInput stepDef workflowInst stepInstMap !! k = Some v.
Proof.
  intros Hk. unfold prepareStepInput. rewrite rangeAssign_union.
  by apply lookup_union_Some_l.
Qed.

(** ** Validation of definitions *)

Lemma firstError_None {A} (f : A → option string) (l : list A) :
  firstError f l = None ↔ Forall (λ x, f x = None) l.
Proof.
  unfold firstError.
  assert (Hsome : ∀ (l : list A) e,
    foldl (λ (found : option string) x,
             match found with Some e => Some e | None => f x end) (Some e) l = Some e).
  { intros l'. induction l' as [|x l' IH]; intros e; simpl; [done|apply IH]. }
  induction l as [|x l IH]; simpl.
  - split; [constructor|done].
  - destruct (f x) as [e|] eqn:Hx.
    + rewrite Hsome. split; [done|].
      intros HF. apply Forall_cons in HF as [HF _]. congruence.
    + rewrite IH. split; [by constructor|]. by intros [_ ?]%Forall_cons.
Qed.

Lemma stepIDs_elem {W} (l : list (@StepDefinition W)) (acc : gset string) (id : string) :
  id ∈ foldl (λ acc step, {[sd_ID step]} ∪ acc) acc l ↔ id ∈ sd_ID <$> l ∨ id ∈ acc.
Proof.
  revert acc. induction l as [|x l IH]; intros acc; simpl.
  - rewrite elem_of_nil. naive_solver.
  - rewrite IH, elem_of_cons. set_solver.
Qed.

Lemma Build_error_iff {W} (workflow : @WorkflowDefinition W) :
  (∃ e, Build workflow = inr e)
  ↔ wd_ID workflow = "" ∨ wd_Name workflow = "" ∨ wd_Steps workflow = []
    ∨ dangling workflow.
Proof.
  unfold Build.
  case_bool_decide as Hid; [naive_solver|].
  case_bool_decide as Hname; [naive_solver|].
  case_bool_decide as Hlen.
  { apply length_zero_iff_nil in Hlen. naive_solver. }
  match goal with |- context [firstError ?f (wd_Steps workflow)] =>
    destruct (firstError f (wd_Steps workflow)) as [e|] eqn:Hfold end.
  - split; [intros _|eauto]. do 3 right.
    assert (Hnot : ¬ (firstError (λ step : @StepDefinition W,
              firstError (λ dep,
                if bool_decide
                     (dep ∈ foldl (λ acc step, {[sd_ID step]} ∪ acc)
                              (∅ : gset string) (wd_Steps workflow))
                then None
                else Some ("step " +:+ sd_ID step +:+ " has invalid dependency: " +:+ dep))
                (sd_Dependencies step)) (wd_Steps workflow) = None)) by congruence.
    rewrite firstError_None in Hnot.
    apply not_Forall_Exists in Hnot; [|intros x; apply _].
    apply Exists_exists in Hnot as (step & Hstep & Hbad). simpl in Hbad.
    rewrite firstError_None in Hbad.
    apply not_Forall_Exists in Hbad; [|intros x; apply _].
    apply Exists_exists in Hbad as (dep & Hdep & Hd).
    exists step, dep. split_and!; [done..|].
    intros Hin. apply Hd. rewrite bool_decide_true; [done|].
    apply stepIDs_elem. by left.
  - split; [intros [e ?]; done|].
    intros [?|[?|[Hnil|(step & dep & Hstep & Hdep & Hbad)]]]; [done..| |].
    { by rewrite Hnil in Hlen. }
    exfalso. apply firstError_None in Hfold.
    rewrite Forall_forall in Hfold. specialize (Hfold _ Hstep).
    apply firstError_None in Hfold.
    rewrite Forall_forall in Hfold. specialize (Hfold _ Hdep).
    case_bool_decide as Hin; [|done].
    apply stepIDs_elem in Hin as [Hin|Hin]; [done|set_solver].
Qed.

Lemma Build_returns_definition {W} (workflow built : @WorkflowDefinition W) :
  Build workflow = inl built → built = workflow.
Proof. unfold Build. repeat case_match; congruence. Qed.

(** C5, as amended. [Build] fails exactly when the identifier is empty,
    the name is empty, there is no step, or a dependency names a step that
    is not in the workflow; a definition it accepts is returned unchanged.
    [RegisterWorkflow] fails exactly when the definition is nil or its
    identifier is empty, and otherwise stores the definition under its
    identifier. Neither looks for cycles. *)
Theorem Build_RegisterWorkflow_checks :
  (∀ (W : Type) (workflow : @WorkflowDefinition W),
     ((∃ e, Build workflow = inr e)
      ↔ wd_ID workflow = "" ∨ wd_Name workflow = "" ∨ wd_Steps workflow = []
        ∨ dangling workflow)
     ∧ (∀ built, Build workflow = inl built → built = workflow))
  ∧ (∀ (W : Type) (workflow : option (@WorkflowDefinition W)) (r : @Runtime W),
       ∃ err r',
         RegisterWorkflow workflow r = Val err r'
         ∧ (is_Some err ↔ workflow = None ∨ ∃ w, workflow = Some w ∧ wd_ID w = "")
         ∧ (∀ w, workflow = Some w → err = None →
                 rt_workflows r' !! wd_ID w = Some w)).
Proof.
  split.
  - intros W workflow. split; [apply Build_error_iff|apply Build_returns_definition].
  - intros W [w|] r; simpl.
    + case_bool_decide as Hid.
      * eexists _, _. split; [reflexivity|]. split; [|done].
        split; [intros _; right; eauto|eauto].
      * eexists _, _. split; [reflexivity|]. split.
        -- split; [by intros [? ?]|]. intros [?|(w' & [= <-] & ?)]; done.
        -- intros w' [= <-] _. simpl. by rewrite lookup_insert_eq.
    + eexists _, _. split; [reflexivity|]. split; [|done].
      split; [by left|eauto].
Qed.

Lemma Build_RegisterWorkflow_checks_witness :
  (∃ built, Build Scenario.s1_workflow = inl built ∧ built = Scenario.s1_workflow)
  ∧ (∃ r', RegisterWorkflow (Some Scenario.s1_workflow) (NewOrchestrator tt) = Val None r'
           ∧ rt_workflows r' !! "W" = Some Scenario.s1_workflow).
Proof.
  split.
  - exists Scenario.s1_workflow. split; [reflexivity|].
    apply (proj2 (proj1 Build_RegisterWorkflow_checks unit Scenario.s1_workflow)).
    reflexivity.
  - destruct (proj2 Build_RegisterWorkflow_checks unit (Some Scenario.s1_workflow)
                (NewOrchestrator tt)) as (err & r' & Hrun & _ & Hstored).
    assert (Herr : err = None) by (vm_compute in Hrun; congruence).
    exists r'. rewrite Herr in Hrun. split; [exact Hrun|].
    exact (Hstored Scenario.s1_workflow eq_refl Herr).
Defined.

(** C5 fails as stated: a definition whose two steps depend on each other
    is cyclic, and both [Build] and [RegisterWorkflow] accept it;
    [RegisterWorkflow] also accepts a definition with an empty name and no
    steps. *)
Lemma cyclic_definition_accepted :
  cyclic Scenario.cyclic_workflow
  ∧ Build Scenario.cyclic_workflow = inl Scenario.cyclic_workflow
  ∧ (∃ r, RegisterWorkflow (Some Scenario.cyclic_workflow) (NewOrchestrator tt) = Val None r)
  ∧ wd_Name Scenario.hollow_workflow = "" ∧ wd_Steps Scenario.hollow_workflow = []
  ∧ (∃ r, RegisterWorkflow (Some Scenario.hollow_workflow) (NewOrchestrator tt) = Val None r).
Proof.
  split_and!; [|vm_compute; reflexivity|eexists; reflexivity|done|done|eexists; reflexivity].
  exists "A". eapply tc_l; [|apply tc_once].
  - eexists. split; [apply list_elem_of_here|]. split; [reflexivity|].
    simpl. apply list_elem_of_here.
  - eexists. split; [apply list_elem_of_further, list_elem_of_here|].
    split; [reflexivity|]. simpl. apply list_elem_of_here.
Qed.

(** ** Retry intervals *)

(** *** Products of [float64] that are exact *)

















(** *** The rational a [float64] denotes *)





(** *** The interval in the exact regime *)









(** ** Reads of the in-memory store *)

Lemma GetWorkflowSteps_acc (m : InMemoryStateManager) (workflowInstID : string)
    (order : list string) (acc : list StepInstance) :
  foldl (λ acc k,
           match steps m !! k with
           | Some step =>
               if bool_decide (si_WorkflowInstID step = workflowInstID)
               then acc ++ [deepCopyStep step] else acc
           | None => acc
           end) acc order
  = acc ++ filter (λ step, si_WorkflowInstID step = workflowInstID)
             (omap (λ k, steps m !! k) order).
Proof.
  revert acc. induction order as [|k order IH]; intros acc; simpl.
  - by rewrite app_nil_r.
  - rewrite IH. destruct (steps m !! k) as [step|]; [|done].
    rewrite filter_cons. case_bool_decide; case_decide; try done.
    by rewrite deepCopyStep_id, <- app_assoc.
Qed.

(** Whatever order the runtime visits the map in, [GetWorkflowSteps]
    returns the stored step instances of the workflow, each once, and no
    other; the order of the result is the order of the visit. *)
Lemma GetWorkflowSteps_members (m : InMemoryStateManager) (order : list string)
    (workflowInstID : string) :
  is_range_order (steps m) order →
  (GetWorkflowSteps m order workflowInstID).1
  ≡ₚ filter (λ step, si_WorkflowInstID step = workflowInstID) (map_to_list (steps m)).*2.
Proof.
  intros Hord. unfold GetWorkflowSteps. simpl.
  rewrite GetWorkflowSteps_acc. simpl.
  apply filter_Permutation.
  unfold is_range_order in Hord. rewrite Hord.
  generalize (map_to_list (steps m)) (λ i x, proj1 (elem_of_map_to_list (steps m) i x)).
  intros l Hl. induction l as [|[k s] l IH]; simpl; [done|].
  rewrite (Hl k s) by apply list_elem_of_here. simpl. f_equiv.
  apply IH. intros i x Hin. apply Hl. by apply list_elem_of_further.
Qed.

(** C10 on the code. The store holds the two step instances of a workflow,
    with execution orders 0 and 1. A range over the map may visit the
    second before the first, and [GetWorkflowSteps] then returns them with
    execution orders 1, 0: both steps, not in ascending order. *)
Theorem GetWorkflowSteps_unordered :
  is_range_order (steps Scenario.two_steps_store) ["second"; "first"]
  ∧ si_ExecutionOrder
      <$> (GetWorkflowSteps Scenario.two_steps_store ["second"; "first"] "wf-1").1
    = [1; 0].
Proof.
  split; [|vm_compute; reflexivity].
  unfold is_range_order.
  assert (E : (map_to_list (steps Scenario.two_steps_store)).*1 ≡ₚ ["first"; "second"]).
  { apply NoDup_Permutation.
    - apply NoDup_fst_map_to_list.
    - repeat constructor; set_solver.
    - intros k. rewrite list_elem_of_fmap. split.
      + intros ([k' s] & -> & Hin). apply elem_of_map_to_list in Hin. simpl.
        unfold Scenario.two_steps_store, SaveStep in Hin. simpl in Hin.
        apply lookup_insert_Some in Hin as [[<- _]|[_ Hin]]; [set_solver|].
        apply lookup_insert_Some in Hin as [[<- _]|[_ Hin]]; [set_solver|done].
      + intros Hk.
        assert (is_Some (steps Scenario.two_steps_store !! k)) as [s Hs].
        { unfold Scenario.two_steps_store, SaveStep. simpl.
          apply elem_of_cons in Hk as [->|Hk]; [|apply list_elem_of_singleton in Hk as ->].
          - rewrite lookup_insert_ne by done. rewrite lookup_insert_eq. eauto.
          - rewrite lookup_insert_eq. eauto. }
        exists (k, s). split; [done|]. by apply elem_of_map_to_list. }
  rewrite E. apply Permutation_swap.
Qed.

(** The copy of an optional field is nil exactly when the field is. *)
Lemma copyPtr_nil (h h' : Mem.Heap) (p p' : option Mem.addr) :
  Mem.copyPtr h p = Some (p', h') → (p' = None ↔ p = None).
Proof.
  unfold Mem.copyPtr. destruct p as [a|]; [|by intros [= <- <-]].
  destruct (Mem.load h a) as [[]|]; simpl; intros [= <- <-]; done.
Qed.

(** It is a fresh cell. *)
Lemma copyPtr_fresh (h h' : Mem.Heap) (p : option Mem.addr) (a' : Mem.addr) :
  Mem.copyPtr h p = Some (Some a', h') → a' = Mem.next h.
Proof.
  unfold Mem.copyPtr. destruct p as [a|]; [|done].
  destruct (Mem.load h a) as [[]|]; simpl; intros [= <- <-]; done.
Qed.

(** The copy of a map is a fresh map object with the same entries: an
    entry that is a reference to a nested map refers to the same nested map
    in the copy. *)
Lemma copyMap_shallow (h h' : Mem.Heap) (a a' : Mem.addr) (m : gmap string Mem.HValue) :
  Mem.load h a = Some (Mem.CMap m) →
  Mem.copyMap h (Some a) = Some (Some a', h') →
  a' = Mem.next h ∧ Mem.load h' a' = Some (Mem.CMap m).
Proof.
  unfold Mem.copyMap. intros ->. simpl. intros [= <- <-]. split; [done|].
  unfold Mem.load. simpl. rewrite lookup_insert_eq. do 2 f_equal.
  apply (map_fold_weak_ind (λ r m, r = m)); [done|]. by intros i x m' r _ ->.
Qed.

(** C9 on the code. A stored workflow instance has
    [Input = {"key": "value", "cfg": {"k": 1}}]. A first read returns a
    copy showing that input. Assigning [copied.Input["cfg"]["k"] = 2]
    through the returned copy changes what the next read of the store
    returns: its [Input] shows [{"k": 2}] under ["cfg"]. Assigning the
    top-level entry [copied.Input["key"]] does not, nor does reading
    alone. *)
Theorem deepCopyWorkflow_shares_nested_maps :
  wi_Input <$> Scenario.nested_first_view
    = Some {[ "key" := VStr "value"; "cfg" := VMap {[ "k" := VInt 1 ]} ]}
  ∧ wi_Input <$> Scenario.nested_second_read
                   (λ copied, Mem.nestedAssign Mem.hw_Input copied "cfg" "k" (Mem.HInt 2))
    = Some {[ "key" := VStr "value"; "cfg" := VMap {[ "k" := VInt 2 ]} ]}
  ∧ Scenario.nested_second_read
      (λ copied, Mem.fieldAssign Mem.hw_Input copied "key" (Mem.HStr "modified"))
    = Scenario.nested_first_view
  ∧ Scenario.nested_second_read (λ _ h, h) = Scenario.nested_first_view.
Proof. split_and!; vm_compute; reflexivity. Qed.

(** ** Runs of the scenarios *)

(** C1 on the code. Scenario S1 is started on a fresh orchestrator. The
    instance in the returned result holds the one step instance that was
    created, completed, and that step instance is in the store
    ([GetWorkflowSteps] returns it); [GetWorkflow] on the identifier of the
    instance returns an instance whose [Steps] is empty. *)
Theorem GetWorkflow_steps_not_loaded :
  ∃ res r stored,
    Scenario.s1_run = Val (Some res, None) r
    ∧ wr_Success res = true
    ∧ (si_StepID <$> wi_Steps (wr_WorkflowInst res)) = ["S"]
    ∧ ((λ s, (si_StepID s, si_Status s))
         <$> (GetWorkflowSteps (rt_stateManager r)
                ((map_to_list (steps (rt_stateManager r))).*1)
                (wi_ID (wr_WorkflowInst res))).1)
      = [("S", StepStatusCompleted)]
    ∧ GetWorkflow (rt_stateManager r) (wi_ID (wr_WorkflowInst res)) = inl stored
    ∧ wi_Status stored = WorkflowStatusCompleted
    ∧ wi_Steps stored = [].
Proof.
  eexists _, _, _. split; [vm_compute; reflexivity|].
  split_and!; vm_compute; reflexivity.
Qed.

(** ** Rules of the program logic *)

Section Rules.
Context {W : Type}.
Implicit Types (r : @Runtime W) (R : @Runtime W → Prop).

Lemma wp_ret {A} (a : A) (Q : A → @Runtime W → Prop) r :
  Q a r → wp (mret a) Q r.
Proof. done. Qed.

Lemma wp_bind {A B} (m : @M W A) (f : A → @M W B) (Q : B → @Runtime W → Prop) r :
  wp m (λ a r', wp (f a) Q r') r → wp (m ≫= f) Q r.
Proof.
  unfold wp, mbind, M_bind. by destruct (m r).
Qed.

Lemma wp_mono {A} (m : @M W A) (Q Q' : A → @Runtime W → Prop) r :
  (∀ a r', Q a r' → Q' a r') → wp m Q r → wp m Q' r.
Proof. unfold wp. destruct (m r); auto. Qed.

Lemma wp_val {A} (m : @M W A) (Q : A → @Runtime W → Prop) r a r' :
  wp m Q r → m r = Val a r' → Q a r'.
Proof. unfold wp. intros H E. by rewrite E in H. Qed.

Lemma triple_ret R {A} (a : A) (Q : A → Prop) : Q a → triple R (mret a) Q.
Proof. intros HQ r HR. by apply wp_ret. Qed.

Lemma triple_bind R {A B} (m : @M W A) (f : A → @M W B) (P : A → Prop) (Q : B → Prop) :
  triple R m P → (∀ a, P a → triple R (f a) Q) → triple R (m ≫= f) Q.
Proof.
  intros Hm Hf r HR. apply wp_bind.
  eapply wp_mono; [|by apply Hm]. simpl. intros a r' [HR' HP]. by apply Hf.
Qed.

Lemma triple_mono R {A} (m : @M W A) (Q Q' : A → Prop) :
  (∀ a, Q a → Q' a) → triple R m Q → triple R m Q'.
Proof.
  intros HQ Hm r HR. eapply wp_mono; [|by apply Hm]. naive_solver.
Qed.

Lemma triple_panic R {A} (Q : A → Prop) : triple R panic Q.
Proof. by intros r HR. Qed.

Context (call : string * GoMap).

Lemma triple_time_Now R : Stable call R → triple R time_Now (λ _, True).
Proof. intros HS r HR. split; [|done]. by apply HS. Qed.

Lemma triple_time_Sleep R d : Stable call R → triple R (time_Sleep d) (λ _, True).
Proof. intros HS r HR. split; [|done]. by apply HS. Qed.

Lemma triple_uuid_New R : Stable call R → triple R uuid_New (λ _, True).
Proof. intros HS r HR. split; [|done]. by apply HS. Qed.

Lemma triple_store_op R (op : InMemoryStateManager → option string * InMemoryStateManager) :
  Stable call R → (∀ m, workflows (op m).2 = workflows m) →
  triple R (store_op op) (λ _, True).
Proof.
  intros HS Hop r HR. unfold wp, store_op.
  specialize (Hop (rt_stateManager r)). destruct (op (rt_stateManager r)) as [e m].
  split; [|done]. by apply HS.
Qed.

Lemma triple_emitEvent R workflowInstID stepInstID eventType data :
  Stable call R → triple R (emitEvent workflowInstID stepInstID eventType data) (λ _, True).
Proof.
  intros HS. unfold emitEvent.
  eapply triple_bind; [by apply triple_uuid_New|]. intros u _.
  eapply triple_bind; [by apply triple_time_Now|]. intros t _.
  eapply triple_bind; [by apply triple_store_op|]. intros ? _.
  by apply triple_ret.
Qed.

Lemma UpdateStepStatus_workflows now m stepInstID status :
  workflows (UpdateStepStatus now m stepInstID status).2 = workflows m.
Proof. unfold UpdateStepStatus. by destruct (steps m !! stepInstID). Qed.

Lemma UpdateStepOutput_workflows m stepInstID output :
  workflows (UpdateStepOutput m stepInstID output).2 = workflows m.
Proof. unfold UpdateStepOutput. by destruct (steps m !! stepInstID). Qed.

Lemma UpdateStepError_workflows now m stepInstID err :
  workflows (UpdateStepError now m stepInstID err).2 = workflows m.
Proof. unfold UpdateStepError. by destruct (steps m !! stepInstID). Qed.

Lemma triple_sm_UpdateStepStatus R stepInstID status :
  Stable call R → triple R (sm_UpdateStepStatus stepInstID status) (λ _, True).
Proof.
  intros HS. unfold sm_UpdateStepStatus.
  eapply triple_bind; [by apply triple_time_Now|]. intros t _.
  eapply triple_bind;
    [apply triple_store_op; [done|intros; apply UpdateStepStatus_workflows]|].
  intros ? _. by apply triple_ret.
Qed.

Lemma triple_sm_UpdateStepOutput R stepInstID output :
  Stable call R → triple R (sm_UpdateStepOutput stepInstID output) (λ _, True).
Proof.
  intros HS. unfold sm_UpdateStepOutput.
  eapply triple_bind;
    [apply triple_store_op; [done|intros; apply UpdateStepOutput_workflows]|].
  intros ? _. by apply triple_ret.
Qed.

Lemma triple_sm_UpdateStepError R stepInstID err :
  Stable call R → triple R (sm_UpdateStepError stepInstID err) (λ _, True).
Proof.
  intros HS. unfold sm_UpdateStepError.
  eapply triple_bind; [by apply triple_time_Now|]. intros t _.
  eapply triple_bind;
    [apply triple_store_op; [done|intros; apply UpdateStepError_workflows]|].
  intros ? _. by apply triple_ret.
Qed.

Lemma triple_callExecutor R (stepDef : @StepDefinition W) input :
  Stable (sd_ID stepDef, input) R → triple R (callExecutor stepDef input) (λ _, True).
Proof.
  intros HS r HR. unfold wp, callExecutor.
  destruct (sd_Executor stepDef (rt_world r) input) as [res w].
  split; [|done]. by apply HS.
Qed.

End Rules.

(** ** The step runner *)

Lemma step_run_refl p inst : step_run p inst inst.
Proof. by split; [split|intros q _]. Qed.

Lemma step_run_trans p inst1 inst2 inst3 :
  step_run p inst1 inst2 → step_run p inst2 inst3 → step_run p inst1 inst3.
Proof.
  intros [[] H1] [[] H2]. split; [split; congruence|].
  intros q Hq. rewrite H2, H1; done.
Qed.

Lemma step_run_assign p (f : StepInstance → StepInstance) inst :
  (∀ s, si_StepID (f s) = si_StepID s) → (∀ s, si_ID (f s) = si_ID s) →
  step_run p inst (assign p f inst).
Proof.
  intros Hf1 Hf2. split; [split; try done|].
  - simpl. rewrite (list_fmap_alter _ _ id); [by rewrite list_alter_id|].
    apply Forall_forall. intros; apply Hf1.
  - simpl. rewrite (list_fmap_alter _ _ id); [by rewrite list_alter_id|].
    apply Forall_forall. intros; apply Hf2.
  - intros q Hq. simpl. by rewrite list_lookup_alter_ne.
Qed.

Lemma step_run_merge p inst stepID output :
  step_run p inst (mergeStepOutput inst stepID output).
Proof. by split; [split|intros q _]. Qed.

Ltac solve_run :=
  repeat match goal with
    | H : step_run _ ?a ?b |- step_run _ ?a ?b => exact H
    | |- step_run _ ?a ?a => apply step_run_refl
    | |- step_run _ _ (assign _ _ _) =>
        eapply step_run_trans; [|apply step_run_assign; reflexivity]
    | |- step_run _ _ (mergeStepOutput _ _ _) =>
        eapply step_run_trans; [|apply step_run_merge]
    end.

Section Runner.
Context {W : Type}.
Implicit Types (R : @Runtime W → Prop) (stepDef : @StepDefinition W).

(** One step of symbolic execution under an invariant. *)
Ltac tstep HS :=
  first
    [ apply triple_ret
    | eapply triple_bind;
      [ first [ by eapply triple_time_Now
              | by eapply triple_time_Sleep
              | by eapply triple_uuid_New
              | by eapply triple_emitEvent
              | by eapply triple_sm_UpdateStepStatus
              | by eapply triple_sm_UpdateStepOutput
              | by eapply triple_sm_UpdateStepError
              | by eapply triple_callExecutor ]
      | intros ? _ ] ].

Lemma attemptLoop_run R stepDef retryPolicy p stepInstID input n attempt lastErr inst0 inst :
  Stable (sd_ID stepDef, input) R →
  step_run p inst0 inst →
  triple R (attemptLoop stepDef retryPolicy p stepInstID input n attempt lastErr inst)
    (λ out, match out with
            | inl inst' => step_run p inst0 inst'
            | inr (_, inst') => step_run p inst0 inst'
            end).
Proof.
  intros HS. revert attempt lastErr inst.
  induction n as [|n IH]; intros attempt lastErr inst Hrun; simpl.
  { by apply triple_ret. }
  eapply (triple_bind _ _ _ (λ inst', step_run p inst0 inst')).
  { case_bool_decide.
    - repeat tstep HS. solve_run.
    - by apply triple_ret. }
  clear inst Hrun. intros inst Hrun.
  eapply (triple_bind _ _ _ (λ inst', step_run p inst0 inst')).
  { case_bool_decide.
    - repeat tstep HS. solve_run.
    - by apply triple_ret. }
  clear inst Hrun. intros inst Hrun.
  do 3 tstep HS.
  destruct a0 as [output|err].
  - repeat tstep HS. solve_run.
  - apply IH. solve_run.
Qed.

Lemma same_frame_lookup inst inst' p s :
  same_frame inst inst' → wi_Steps inst !! p = Some s →
  ∃ s', wi_Steps inst' !! p = Some s' ∧ si_StepID s' = si_StepID s ∧ si_ID s' = si_ID s.
Proof.
  intros [_ _ _ _ _ Hsteps Hinsts] Hs.
  assert (H1 : (si_StepID <$> wi_Steps inst') !! p = Some (si_StepID s)).
  { rewrite Hsteps, list_lookup_fmap, Hs. done. }
  assert (H2 : (si_ID <$> wi_Steps inst') !! p = Some (si_ID s)).
  { rewrite Hinsts, list_lookup_fmap, Hs. done. }
  rewrite list_lookup_fmap in H1, H2.
  destruct (wi_Steps inst' !! p) as [s'|]; [|done].
  simpl in *. exists s'. naive_solver.
Qed.

Lemma keeps_failed_refl inst : keeps_failed inst inst.
Proof. by intros q s. Qed.

Lemma keeps_failed_trans inst1 inst2 inst3 :
  keeps_failed inst1 inst2 → keeps_failed inst2 inst3 → keeps_failed inst1 inst3.
Proof. intros H1 H2 q s Hs Hf. eauto. Qed.

Lemma same_frame_trans inst1 inst2 inst3 :
  same_frame inst1 inst2 → same_frame inst2 inst3 → same_frame inst1 inst3.
Proof. intros [] []. split; congruence. Qed.

Lemma map_points_frame sim inst inst' :
  map_points sim inst → same_frame inst inst' → map_points sim inst'.
Proof.
  intros Hm Hf id p Hp. destruct (Hm id p Hp) as (s & Hs & Hid).
  destruct (same_frame_lookup _ _ _ _ Hf Hs) as (s' & Hs' & Hid' & _).
  exists s'. split; [done|congruence].
Qed.

Lemma executeStep_run R stepDef p inst stepInstMap :
  Stable (sd_ID stepDef, prepareStepInput stepDef inst stepInstMap) R →
  triple R (executeStep stepDef p inst stepInstMap) (executeStep_post stepDef p inst).
Proof.
  intros HS. unfold executeStep, deref.
  destruct (wi_Steps inst !! p) as [stepInst|] eqn:Hp; [|apply triple_panic].
  destruct (si_IsCompleted stepInst) eqn:Hterm.
  { apply triple_ret. split_and!; simpl; [solve_run|apply keeps_failed_refl|done|done]. }
  eapply triple_bind; [by apply (attemptLoop_run R _ _ p _ _ _ _ _ inst inst); [|solve_run]|].
  intros [inst'|[[lastErr|] inst']] Hrun; [|..|apply triple_panic].
  - apply triple_ret. split_and!; simpl; [done| |congruence|done].
    intros q s Hs Hf. destruct (decide (q = p)) as [->|Hq].
    + rewrite Hp in Hs. injection Hs as <-.
      unfold si_IsCompleted in Hterm. rewrite Hf in Hterm. done.
    + destruct Hrun as [_ Ho]. by rewrite Ho.
  - repeat tstep HS.
    assert (Hfin : step_run p inst
              (assign p (si_with_CompletedAt (Some a))
                 (assign p (si_with_Error (stringPtr lastErr))
                    (assign p (si_with_Status StepStatusFailed) inst')))) by solve_run.
    split_and!; simpl.
    + done.
    + intros q s Hs Hf. destruct (decide (q = p)) as [->|Hq].
      * rewrite Hp in Hs. injection Hs as <-.
        unfold si_IsCompleted in Hterm. rewrite Hf in Hterm. done.
      * destruct Hfin as [_ Ho]. by rewrite Ho.
    + congruence.
    + intros e [= <-].
      destruct (same_frame_lookup _ _ _ _ (proj1 Hrun) Hp) as (s1 & Hs1 & _).
      eexists _, lastErr. split_and!.
      * rewrite !list_lookup_alter_eq, Hs1. reflexivity.
      * done.
      * done.
      * unfold maxAttempts. by destruct (sd_RetryPolicy stepDef).
Qed.

Lemma stepInst_lookup (stepInstMap : gmap string nat) inst id p stepInst :
  stepInstMap !! id ≫= (λ p, (p,.) <$> deref inst p) = Some (p, stepInst) →
  stepInstMap !! id = Some p ∧ wi_Steps inst !! p = Some stepInst.
Proof.
  unfold deref. destruct (stepInstMap !! id) as [p'|]; simpl; [|done].
  destruct (wi_Steps inst !! p') as [s|] eqn:Hs; simpl; [|done].
  by intros [= <- <-].
Qed.

(** The step behind [p] ran with an error and was then marked skipped. *)
Lemma skipped_after_error stepDef p inst out :
  executeStep_post stepDef p inst out → is_Some out.1 →
  same_frame inst (assign p (si_with_Status StepStatusSkipped) out.2)
  ∧ keeps_failed inst (assign p (si_with_Status StepStatusSkipped) out.2).
Proof.
  intros (Hrun & Hk & Hterm & _) [e He]. split.
  - eapply same_frame_trans; [apply Hrun|]. by apply step_run_assign.
  - intros q s Hs Hf. destruct (decide (q = p)) as [->|Hq].
    + destruct (Hterm s Hs) as [Hn _]; [|congruence].
      unfold si_IsCompleted. by rewrite Hf.
    + simpl. rewrite list_lookup_alter_ne by done. by apply Hk.
Qed.

Lemma runSyncSteps_run R l stepInstMap executed inst :
  (∀ call, Stable call R) → map_points stepInstMap inst →
  triple R (runSyncSteps l stepInstMap executed inst) (runSyncSteps_post l executed inst).
Proof.
  intros HS. revert executed inst.
  induction l as [|stepDef l IH]; intros executed inst Hmap; simpl.
  { apply triple_ret. split_and!; simpl; [by split|apply keeps_failed_refl|done| |done].
    intros _ sd Hsd. by apply elem_of_nil in Hsd. }
  destruct (stepInstMap !! sd_ID stepDef ≫= (λ p, (p,.) <$> deref inst p))
    as [[p stepInst]|] eqn:Hlook; [|apply triple_panic].
  apply stepInst_lookup in Hlook as [Hsim Hp].
  assert (Hrest : ∀ inst1, same_frame inst inst1 → keeps_failed inst inst1 →
    triple R (runSyncSteps l stepInstMap ({[sd_ID stepDef]} ∪ executed) inst1)
      (runSyncSteps_post (stepDef :: l) executed inst)).
  { intros inst1 Hf1 Hk1. eapply triple_mono; [|apply IH; by eapply map_points_frame].
    intros [[err executed'] inst'] (Hf & Hk & Hsub & Hall & Herr); simpl in *.
    split_and!; simpl.
    - by eapply same_frame_trans.
    - by eapply keeps_failed_trans.
    - set_solver.
    - intros Hn sd [->|Hsd]%elem_of_cons; [set_solver|by apply Hall].
    - intros e He. destruct (Herr e He) as (sd & Hsd & ?). exists sd.
      split; [by apply list_elem_of_further|done]. }
  case_bool_decide as Hdone.
  { apply Hrest; [by split|apply keeps_failed_refl]. }
  eapply triple_bind; [by apply executeStep_run|].
  intros [err inst1] Hpost.
  destruct err as [err|].
  - destruct (sd_Required stepDef) eqn:Hreq.
    + apply triple_ret. destruct Hpost as (Hrun & Hk & _ & Herr).
      split_and!; simpl; [apply Hrun|done|done|done|].
      intros e [= <-]. exists stepDef. split; [apply list_elem_of_here|]. split; [done|].
      destruct (Herr err eq_refl) as (s' & msg & Hs' & Hst & Hmsg & ->).
      exists p, s', msg. split_and!; try done.
      destruct (Hmap _ _ Hsim) as (s0 & Hs0 & Hid0).
      destruct (same_frame_lookup _ _ _ _ (proj1 Hrun) Hs0) as (s'' & Hs'' & Hid'' & _).
      simpl in *. congruence.
    + destruct (skipped_after_error _ _ _ _ Hpost) as [Hf Hk]; [by eexists|].
      eapply triple_bind; [by apply (triple_sm_UpdateStepStatus (sd_ID stepDef, ∅))|].
      intros _ _. by apply Hrest.
  - destruct Hpost as (Hrun & Hk & _). apply Hrest; [apply Hrun|done].
Qed.

Lemma failed_step_kept stepDef inst inst' e :
  failed_step stepDef inst e → keeps_failed inst inst' → failed_step stepDef inst' e.
Proof.
  intros (p & s & msg & Hs & ? & Hf & ? & ?) Hk. exists p, s, msg.
  split_and!; try done. by apply Hk.
Qed.

Lemma runAsyncSteps_run R l stepInstMap errors executed inst :
  (∀ call, Stable call R) → map_points stepInstMap inst →
  triple R (runAsyncSteps l stepInstMap errors executed inst)
    (runAsyncSteps_post l errors executed inst).
Proof.
  intros HS. revert errors executed inst.
  induction l as [|stepDef l IH]; intros errors executed inst Hmap; simpl.
  { apply triple_ret. split_and!; simpl; [by split|apply keeps_failed_refl|done| |by left].
    intros sd Hsd. by apply elem_of_nil in Hsd. }
  destruct (stepInstMap !! sd_ID stepDef ≫= (λ p, (p,.) <$> deref inst p))
    as [[p stepInst]|] eqn:Hlook; [|apply triple_panic].
  apply stepInst_lookup in Hlook as [Hsim Hp].
  assert (Hrest : ∀ inst1 errors1, same_frame inst inst1 → keeps_failed inst inst1 →
    (∀ e, e ∈ errors1 → e ∈ errors ∨ sd_Required stepDef = true ∧ failed_step stepDef inst1 e) →
    triple R (runAsyncSteps l stepInstMap errors1 ({[sd_ID stepDef]} ∪ executed) inst1)
      (runAsyncSteps_post (stepDef :: l) errors executed inst)).
  { intros inst1 errors1 Hf1 Hk1 He1.
    eapply triple_mono; [|apply IH; by eapply map_points_frame].
    intros [[errors' executed'] inst'] (Hf & Hk & Hsub & Hall & Herr); simpl in *.
    split_and!; simpl.
    - by eapply same_frame_trans.
    - by eapply keeps_failed_trans.
    - set_solver.
    - intros sd [->|Hsd]%elem_of_cons; [set_solver|by apply Hall].
    - intros e He. destruct (Herr e He) as [Hin|(sd & Hsd & ?)].
      + destruct (He1 e Hin) as [?|[Hreq Hfail]]; [by left|]. right.
        exists stepDef. split; [apply list_elem_of_here|]. split; [done|].
        by eapply failed_step_kept.
      + right. exists sd. split; [by apply list_elem_of_further|done]. }
  case_bool_decide as Hdone.
  { apply Hrest; [by split|apply keeps_failed_refl|by left]. }
  eapply triple_bind; [by apply executeStep_run|].
  intros [err inst1] Hpost.
  destruct err as [err|].
  - destruct (sd_Required stepDef) eqn:Hreq.
    + destruct Hpost as (Hrun & Hk & _ & Herr). simpl in *.
      apply Hrest; [apply Hrun|done|].
      intros e [He|He]%elem_of_app; [by left|]. right. split; [done|].
      apply list_elem_of_singleton in He as ->.
      destruct (Herr err eq_refl) as (s' & msg & Hs' & Hst & Hmsg & ->).
      exists p, s', msg. split_and!; try done.
      destruct (Hmap _ _ Hsim) as (s0 & Hs0 & Hid0).
      destruct (same_frame_lookup _ _ _ _ (proj1 Hrun) Hs0) as (s'' & Hs'' & Hid'' & _).
      simpl in *. congruence.
    + destruct (skipped_after_error _ _ _ _ Hpost) as [Hf Hk]; [by eexists|].
      eapply triple_bind; [by apply (triple_sm_UpdateStepStatus (sd_ID stepDef, ∅))|].
      intros _ _. apply Hrest; [done|done|by left].
  - destruct Hpost as (Hrun & Hk & _). apply Hrest; [apply Hrun|done|by left].
Qed.

Lemma findReadySteps_subset (workflow : @WorkflowDefinition W) executed graph stepDef :
  stepDef ∈ findReadySteps workflow executed graph → stepDef ∈ wd_Steps workflow.
Proof.
  unfold findReadySteps.
  assert (Hgen : ∀ l acc,
    stepDef ∈ foldl (λ ready step,
           if bool_decide (sd_ID step ∈ executed) then ready
           else
             let allDepsExecuted :=
               forallb (λ dep, bool_decide (dep ∈ executed))
                       (default [] (graph !! sd_ID step)) in
             if allDepsExecuted then ready ++ [step] else ready) acc l →
    stepDef ∈ acc ∨ stepDef ∈ l).
  { induction l as [|x l IH]; intros acc; simpl; [by left|].
    intros Hin. apply IH in Hin as [Hin|Hin]; [|right; by apply list_elem_of_further].
    case_bool_decide; [by left|].
    destruct (forallb _ _); [|by left].
    apply elem_of_app in Hin as [Hin|Hin]; [by left|].
    apply list_elem_of_singleton in Hin as ->. right. apply list_elem_of_here. }
  intros Hin. apply Hgen in Hin as [Hin|Hin]; [by apply elem_of_nil in Hin|done].
Qed.

Lemma wavePlan_subset (workflow : @WorkflowDefinition W) executed graph stepDef :
  stepDef ∈ (wavePlan workflow executed graph).1
  ∨ stepDef ∈ (wavePlan workflow executed graph).2 →
  stepDef ∈ wd_Steps workflow.
Proof.
  unfold wavePlan. simpl.
  intros [Hin|Hin]; apply list_elem_of_filter in Hin as [_ Hin];
    rewrite sort_Slice_perm in Hin; by eapply findReadySteps_subset.
Qed.

Lemma executeStepsLoop_run R fuel workflow graph stepInstMap executed inst :
  (∀ call, Stable call R) → map_points stepInstMap inst →
  triple R (executeStepsLoop fuel workflow graph stepInstMap executed inst)
    (executeSteps_post workflow inst).
Proof.
  intros HS. revert executed inst.
  induction fuel as [|fuel IH]; intros executed inst Hmap; cbn [executeStepsLoop].
  { by intros r HR. }
  case_bool_decide as Hready.
  { apply triple_ret. by split; [split|]. }
  pose proof (wavePlan_subset workflow executed graph) as Hsub.
  destruct (wavePlan workflow executed graph) as [syncSteps asyncSteps].
  eapply triple_bind; [by apply runSyncSteps_run|].
  intros [[err executed1] inst1] (Hf1 & Hk1 & _ & _ & Herr1); simpl in *.
  destruct err as [err|].
  { apply triple_ret. split; simpl; [done|]. intros e [= <-].
    destruct (Herr1 err eq_refl) as (sd & Hsd & ?). exists sd. split; [|done].
    apply Hsub. by left. }
  eapply (triple_bind _ _ _ (runAsyncSteps_post asyncSteps [] executed1 inst1)).
  { case_bool_decide.
    - apply runAsyncSteps_run; [done|by eapply map_points_frame].
    - apply triple_ret. split_and!; simpl; [by split|apply keeps_failed_refl|done| |by left].
      intros sd Hsd. destruct asyncSteps; [by apply elem_of_nil in Hsd|simpl in *; lia]. }
  intros [[errors executed2] inst2] (Hf2 & Hk2 & _ & _ & Herr2); simpl in *.
  destruct errors as [|err errors].
  - case_bool_decide.
    + apply triple_ret. split; simpl; [by eapply same_frame_trans|done].
    + eapply triple_mono; [|apply IH].
      * intros [err inst'] [Hf Herr]; simpl in *. split; simpl; [|done].
        eapply same_frame_trans; [|done]. by eapply same_frame_trans.
      * eapply map_points_frame; [done|]. by eapply same_frame_trans.
  - apply triple_ret. split; simpl; [by eapply same_frame_trans|].
    intros e [= <-].
    destruct (Herr2 err) as [Hin|(sd & Hsd & ?)]; [apply list_elem_of_here| |].
    + by apply elem_of_nil in Hin.
    + exists sd. split; [|done]. apply Hsub. by right.
Qed.

(** *** The facade *)

Lemma table_inv_stable id P (reg : gmap string (@WorkflowDefinition W)) call :
  Stable call (table_inv id P reg).
Proof.
  split; intros r; intros; unfold table_inv in *; simpl; try done.
  destruct H as [H1 H2]. split; [|done]. intros w. rewrite H0. apply H1.
Qed.

Lemma triple_wp R {A} (m : @M W A) (P : A → Prop) (Q : A → @Runtime W → Prop) r :
  triple R m P → R r → (∀ a r', R r' → P a → Q a r') → wp m Q r.
Proof. intros Hm HR HQ. eapply wp_mono; [|by apply Hm]. naive_solver. Qed.

Lemma stored_inv_stable id P (reg : gmap string (@WorkflowDefinition W)) call :
  Stable call (stored_inv id P reg).
Proof.
  split; intros r; intros; unfold stored_inv in *; simpl; try done.
  destruct H as [H1 H2]. split; [|done]. by rewrite H0.
Qed.

Lemma stored_table_inv id (P P' : WorkflowInstance → Prop) reg (r : @Runtime W) :
  (∀ w, P w → P' w) → stored_inv id P reg r → table_inv id P' reg r.
Proof.
  intros HP [(w & Hw & HPw) Hreg]. split; [|done]. intros w'. rewrite Hw.
  intros [= <-]. by apply HP.
Qed.

Lemma wp_UpdateWorkflowStatus id P reg now status (Q : option string → @Runtime W → Prop) r :
  update_closed P → table_inv id P reg r →
  (∀ e r', table_inv id P reg r' → Q (Some e) r') →
  (∀ r', stored_inv id (λ w, P w ∧ wi_Status w = status) reg r' → Q None r') →
  wp (store_op (λ m, UpdateWorkflowStatus now m id status)) Q r.
Proof.
  intros HP [Hinv Hreg] Herr Hok. unfold wp, store_op, UpdateWorkflowStatus.
  destruct (workflows (rt_stateManager r) !! id) as [w|] eqn:Hw; simpl.
  - apply Hok. split; [|done]. simpl. eexists. split; [apply lookup_insert_eq|].
    split; [|by case_match].
    case_match; [apply HP|]; apply HP; by apply Hinv.
  - apply Herr. split; [|done]. simpl. intros w' Hw'. destruct r as [[]]; simpl in *.
    congruence.
Qed.

Lemma stored_inv_mono id (P P' : WorkflowInstance → Prop) reg (r : @Runtime W) :
  (∀ w, P w → P' w) → stored_inv id P reg r → stored_inv id P' reg r.
Proof. intros HP [(w & Hw & HPw) Hreg]. split; [|done]. exists w. eauto. Qed.

Lemma wp_UpdateWorkflowStatus_stored id P reg now status
    (Q : option string → @Runtime W → Prop) r :
  update_closed P → stored_inv id P reg r →
  (∀ r', stored_inv id (λ w, P w ∧ wi_Status w = status) reg r' → Q None r') →
  wp (store_op (λ m, UpdateWorkflowStatus now m id status)) Q r.
Proof.
  intros HP [(w & Hw & HPw) Hreg] Hok. unfold wp, store_op, UpdateWorkflowStatus.
  rewrite Hw. simpl. apply Hok. split; [|done]. simpl.
  eexists. split; [apply lookup_insert_eq|]. split; [|by case_match].
  case_match; [apply HP|]; by apply HP.
Qed.

Lemma wp_UpdateWorkflowError id P reg now err (Q : option string → @Runtime W → Prop) r :
  update_closed P → stored_inv id P reg r →
  (∀ r', stored_inv id (λ w, P w ∧ wi_Status w = WorkflowStatusFailed
                             ∧ wi_Error w = Some err) reg r' → Q None r') →
  wp (store_op (λ m, UpdateWorkflowError now m id err)) Q r.
Proof.
  intros HP [(w & Hw & HPw) Hreg] Hok. unfold wp, store_op, UpdateWorkflowError.
  rewrite Hw. simpl. apply Hok. split; [|done]. simpl.
  eexists. split; [apply lookup_insert_eq|]. split; [|done]. by do 3 apply HP.
Qed.

Lemma buildStepInstMap_points inst : map_points (buildStepInstMap inst) inst.
Proof.
  unfold buildStepInstMap, map_points.
  assert (Hgen : ∀ (pairs : list (nat * StepInstance)) (acc : gmap string nat),
    (∀ i s, (i, s) ∈ pairs → wi_Steps inst !! i = Some s) →
    (∀ id p, acc !! id = Some p → ∃ s, wi_Steps inst !! p = Some s ∧ si_StepID s = id) →
    ∀ id p, foldl (λ acc '(i, stepInst), <[si_StepID stepInst := i]> acc) acc pairs !! id
            = Some p →
            ∃ s, wi_Steps inst !! p = Some s ∧ si_StepID s = id).
  { induction pairs as [|[i s] pairs IH]; intros acc Hp Hacc; simpl; [done|].
    apply IH.
    - intros i' s' Hin. apply Hp. by apply list_elem_of_further.
    - intros id p. rewrite lookup_insert. case_decide as Hid.
      + intros [= <-]. exists s. split; [|done]. apply Hp, list_elem_of_here.
      + apply Hacc. }
  apply Hgen; [|by intros id p; rewrite lookup_empty].
  intros i s Hin. apply elem_of_lookup_imap in Hin as (i' & s' & [= -> ->] & Hs). done.
Qed.

Lemma SaveStep_workflows m step : workflows (SaveStep m step).2 = workflows m.
Proof. done. Qed.

Lemma initSteps_run R stepDefs i inst :
  (∀ call, Stable call R) →
  triple R (initSteps stepDefs i inst) (initSteps_post stepDefs inst).
Proof.
  intros HS. revert i inst. induction stepDefs as [|stepDef l IH]; intros i inst; simpl.
  { apply triple_ret. exists []. destruct inst; simpl. by rewrite app_nil_r. }
  eapply triple_bind; [by apply (triple_uuid_New ("", ∅))|]. intros u _.
  eapply triple_bind; [apply (triple_store_op ("", ∅)); [done|intros; apply SaveStep_workflows]|].
  intros [err|] _; [by apply triple_ret|].
  eapply triple_mono; [|apply IH].
  intros [inst'|]; [|done]. simpl. intros (news & -> & Hids).
  eexists (_ :: news). split; [by rewrite <- app_assoc|].
  rewrite !fmap_cons. simpl. by f_equal.
Qed.

Lemma executeSteps_run R workflow inst graph :
  (∀ call, Stable call R) →
  triple R (executeSteps workflow inst graph) (executeSteps_post workflow inst).
Proof.
  intros HS. unfold executeSteps.
  apply executeStepsLoop_run; [done|apply buildStepInstMap_points].
Qed.

Lemma executeWorkflow_spec (workflow : @WorkflowDefinition W) inst P reg (r : @Runtime W) :
  update_closed P → table_inv (wi_ID inst) P reg r →
  wp (executeWorkflow workflow inst)
     (λ out r', table_inv (wi_ID inst) P reg r' ∧ executeWorkflow_post workflow inst P out r') r.
Proof.
  intros HP HR. unfold executeWorkflow.
  apply wp_bind. eapply triple_wp; [apply (triple_time_Now ("", ∅)), table_inv_stable|done|].
  clear r HR. intros startTime r HR _.
  apply wp_bind. eapply triple_wp; [apply (triple_time_Now ("", ∅)), table_inv_stable|done|].
  clear r HR. intros now r HR _.
  apply wp_bind. simpl.
  apply (wp_UpdateWorkflowStatus _ P reg); [done|done|..].
  { intros e r' HR'. apply wp_ret. split; [done|]. by intros res. }
  clear r HR. intros r HR.
  apply wp_bind.
  eapply (triple_wp _ _ (λ out, match out with
                                 | inl inst' =>
                                     ∃ news, inst' = wi_with_Steps (wi_Steps inst ++ news)
                                                       (wi_with_Status WorkflowStatusRunning inst)
                                             ∧ (wi_Steps inst = [] →
                                                si_StepID <$> news = sd_ID <$> wd_Steps workflow)
                                 | inr _ => True
                                 end)); [|exact HR|].
  { case_bool_decide as Hlen.
    - eapply triple_mono; [|apply initSteps_run; intros; apply stored_inv_stable].
      intros [inst'|]; [|done]. simpl. intros (news & -> & Hids). eauto.
    - apply triple_ret. exists []. split; [by destruct inst; simpl; rewrite app_nil_r|].
      intros Hnil. simpl in Hlen. by rewrite Hnil in Hlen. }
  clear r HR. intros [inst1|err] r HR Hinit.
  2:{ apply wp_ret. split; [by eapply stored_table_inv; [|done]; naive_solver|].
      by intros res. }
  destruct Hinit as (news & -> & Hnews).
  apply wp_bind.
  eapply triple_wp; [apply executeSteps_run; intros; apply stored_inv_stable|exact HR|].
  clear r HR. intros [err inst2] r HR [Hf Herr]. simpl in Hf, Herr.
  assert (Hid : wi_ID inst2 = wi_ID inst) by (by destruct Hf).
  assert (Hwid : wi_WorkflowID inst2 = wi_WorkflowID inst) by (by destruct Hf).
  assert (Hsteps : wi_Steps inst = [] →
                   si_StepID <$> wi_Steps inst2 = sd_ID <$> wd_Steps workflow).
  { intros Hnil. destruct Hf as [_ _ _ _ _ Hids _]. rewrite Hids. simpl.
    rewrite Hnil. simpl. by apply Hnews. }
  apply stored_inv_mono with (P' := P) in HR; [|naive_solver].
  destruct err as [err|].
  - apply wp_bind.
    eapply triple_wp; [apply (triple_time_Now ("", ∅)), stored_inv_stable|done|].
    clear r HR. intros now1 r HR _.
    apply wp_bind.
    eapply triple_wp; [apply (triple_time_Now ("", ∅)), stored_inv_stable|done|].
    clear r HR. intros now2 r HR _.
    apply wp_bind. simpl. rewrite Hid.
    apply (wp_UpdateWorkflowStatus_stored _ P reg); [done|done|].
    clear r HR. intros r HR.
    apply stored_inv_mono with (P' := P) in HR; [|naive_solver].
    apply wp_bind.
    eapply triple_wp; [apply (triple_time_Now ("", ∅)), stored_inv_stable|done|].
    clear r HR. intros now3 r HR _.
    apply wp_bind.
    apply (wp_UpdateWorkflowError _ P reg); [done|done|].
    clear r HR. intros r HR.
    apply wp_bind.
    eapply triple_wp; [apply (triple_emitEvent ("", ∅)), stored_inv_stable|done|].
    clear r HR. intros _ r HR _.
    apply wp_bind.
    eapply triple_wp; [apply (triple_time_Now ("", ∅)), stored_inv_stable|done|].
    clear r HR. intros endTime r HR _.
    apply wp_ret. split; [by eapply stored_table_inv; [|done]; naive_solver|].
    intros res [= <-]. simpl.
    destruct HR as [(w & Hw & HPw & Hst & Her) _].
    destruct (Herr err eq_refl) as (stepDef & Hin & Hreq & Hfail).
    split_and!; [done..|].
    exists w. split_and!; try done.
    exists stepDef. split_and!; done.
  - apply wp_bind.
    eapply triple_wp; [apply (triple_time_Now ("", ∅)), stored_inv_stable|done|].
    clear r HR. intros now1 r HR _.
    apply wp_bind.
    eapply triple_wp; [apply (triple_time_Now ("", ∅)), stored_inv_stable|done|].
    clear r HR. intros now2 r HR _.
    apply wp_bind. simpl. rewrite Hid.
    apply (wp_UpdateWorkflowStatus_stored _ P reg); [done|done|].
    clear r HR. intros r HR.
    apply wp_bind.
    eapply triple_wp; [apply (triple_time_Now ("", ∅)), stored_inv_stable|done|].
    clear r HR. intros t r HR _.
    apply wp_bind.
    eapply triple_wp; [apply (triple_emitEvent ("", ∅)), stored_inv_stable|done|].
    clear r HR. intros _ r HR _.
    apply wp_bind.
    eapply triple_wp; [apply (triple_time_Now ("", ∅)), stored_inv_stable|done|].
    clear r HR. intros endTime r HR _.
    apply wp_ret. split; [by eapply stored_table_inv; [|done]; naive_solver|].
    intros res [= <-]. simpl.
    destruct HR as [(w & Hw & HPw & Hst) _].
    split_and!; [done..|].
    exists w. split_and!; done.
Qed.

End Runner.

(** ** The facade *)

Section Facade.
Context {W : Type}.

Lemma update_closed_True : update_closed (λ _ : WorkflowInstance, True).
Proof. by split. Qed.



Lemma wp_get_rt {A} (f : @Runtime W → @M W A) (Q : A → @Runtime W → Prop) r :
  wp (f r) Q r → wp (get_rt ≫= f) Q r.
Proof. done. Qed.

Lemma triple_getTraceID (R : @Runtime W → Prop) ctx metadata :
  Stable ("", ∅) R → triple R (getTraceID ctx metadata) (λ _, True).
Proof.
  intros HS. unfold getTraceID.
  repeat case_match; first [by apply triple_ret|by apply (triple_uuid_New ("", ∅))].
Qed.

Lemma triple_getCorrelationID (R : @Runtime W → Prop) ctx metadata :
  Stable ("", ∅) R → triple R (getCorrelationID ctx metadata) (λ _, True).
Proof.
  intros HS. unfold getCorrelationID.
  repeat case_match; first [by apply triple_ret|by apply (triple_uuid_New ("", ∅))].
Qed.

Lemma triple_getBusinessID (R : @Runtime W → Prop) ctx metadata :
  Stable ("", ∅) R → triple R (getBusinessID ctx metadata) (λ _, True).
Proof.
  intros HS. unfold getBusinessID. repeat case_match; by apply triple_ret.
Qed.

Lemma wp_SaveWorkflow reg instance (Q : option string → @Runtime W → Prop) r :
  rt_workflows r = reg →
  (∀ r', stored_inv (wi_ID instance) (λ w, w = instance) reg r' → Q None r') →
  wp (store_op (λ m, SaveWorkflow m instance)) Q r.
Proof.
  intros Hreg HQ. unfold wp, store_op, SaveWorkflow. simpl. apply HQ.
  split; [|done]. simpl. exists instance. split; [|done].
  by rewrite deepCopyWorkflow_id, lookup_insert_eq.
Qed.

Lemma started_from_closed workflowID : update_closed (started_from workflowID).
Proof. split; intros w ? [? ?]; by split. Qed.

Lemma StartWorkflow_spec ctx workflowID input metadata (r : @Runtime W) :
  wp (StartWorkflow ctx workflowID input metadata) (StartWorkflow_post workflowID r) r.
Proof.
  unfold StartWorkflow, GetWorkflowDef.
  apply wp_bind, wp_get_rt.
  destruct (rt_workflows r !! workflowID) as [workflow|] eqn:Hdef;
    [|by apply wp_ret, wp_ret; intros res].
  apply wp_ret. simpl.
  set (reg := rt_workflows r) in *.
  set (R := table_inv "" (λ _, True) reg).
  assert (HS : Stable ("", ∅) R) by apply table_inv_stable.
  assert (HR : R r) by by split.
  assert (Hfin : ∀ out r', rt_workflows r' = reg → (∀ res, out.1 = Some res →
             ∃ instance, wi_WorkflowID instance = workflowID ∧ wi_Steps instance = []
               ∧ executeWorkflow_post workflow instance (started_from workflowID) out r') →
           StartWorkflow_post workflowID r out r').
  { intros out r' Hreg Hout res Hres. destruct (Hout res Hres) as (instance & ?).
    exists workflow, instance. naive_solver. }
  revert Hfin. generalize (StartWorkflow_post workflowID r). intros Post Hfin.
  clearbody reg.
  apply wp_bind. eapply triple_wp; [by apply (triple_uuid_New ("", ∅))|done|].
  clear r HR. intros id r HR _.
  apply wp_bind. eapply triple_wp; [by apply (triple_time_Now ("", ∅))|done|].
  clear r HR. intros startedAt r HR _.
  apply wp_bind. eapply triple_wp; [by apply triple_getTraceID|done|].
  clear r HR. intros traceID r HR _.
  apply wp_bind. eapply triple_wp; [by apply triple_getCorrelationID|done|].
  clear r HR. intros correlationID r HR _.
  apply wp_bind. eapply triple_wp; [by apply triple_getBusinessID|done|].
  clear r HR. intros businessID r HR _.
  apply wp_bind. apply (wp_SaveWorkflow reg); [by destruct HR|].
  clear r HR. intros r HR.
  apply wp_bind. eapply triple_wp; [apply (triple_emitEvent ("", ∅)), stored_inv_stable|done|].
  clear r HR. intros _ r HR _.
  eapply wp_mono;
    [|apply (executeWorkflow_spec _ _ (started_from workflowID) reg);
      [apply started_from_closed|]].
  - intros out r' [[_ Hreg] Hpost]. apply Hfin; [done|].
    intros res Hres. eexists. split_and!; [| |exact Hpost]; done.
  - eapply stored_table_inv; [|exact HR]. by intros w ->.
Qed.

(** [ResumeWorkflow] on an instance the store holds in a terminal state,
    made from a registered definition: the stored instance is returned as
    it is, success meaning "completed"; nothing is executed, nothing is
    written; only the clock is read. *)
Lemma ResumeWorkflow_terminal workflowInstID (r : @Runtime W) stored :
  workflows (rt_stateManager r) !! workflowInstID = Some stored →
  is_Some (rt_workflows r !! wi_WorkflowID stored) →
  wi_IsCompleted stored = true →
  ResumeWorkflow workflowInstID r
  = Val (Some (mkWorkflowResult
                 (bool_decide (wi_Status stored = WorkflowStatusCompleted))
                 stored (wi_Output stored) None (rt_clock r - wi_StartedAt stored)),
         None)
        (rt_with_clock (S (rt_clock r)) r).
Proof.
  intros Hstored [workflow Hdef] Hterm.
  unfold ResumeWorkflow, GetWorkflow, GetWorkflowDef, mbind, M_bind, get_rt. simpl.
  rewrite Hstored, deepCopyWorkflow_id. simpl. rewrite Hdef. simpl.
  rewrite Hterm. reflexivity.
Qed.

(** C2, as amended. When [StartWorkflow] returns a result together with an
    error, the store holds the instance as failed, with that error. Failed
    is a terminal status: [ResumeWorkflow] on the instance returns the
    stored instance as it is, with success false, and executes nothing:
    the runtime it leaves differs from the one it started in by the clock
    reading alone. *)
Theorem ResumeWorkflow_after_failure ctx workflowID input metadata
    (r r1 : @Runtime W) (res : WorkflowResult) (e : string) :
  StartWorkflow ctx workflowID input metadata r = Val (Some res, Some e) r1 →
  ∃ stored,
    workflows (rt_stateManager r1) !! wi_ID (wr_WorkflowInst res) = Some stored
    ∧ wi_Status stored = WorkflowStatusFailed
    ∧ wi_Error stored = Some e
    ∧ ResumeWorkflow (wi_ID (wr_WorkflowInst res)) r1
      = Val (Some (mkWorkflowResult false stored (wi_Output stored) None
                     (rt_clock r1 - wi_StartedAt stored)),
             None)
            (rt_with_clock (S (rt_clock r1)) r1).
Proof.
  intros Hrun.
  pose proof (StartWorkflow_spec ctx workflowID input metadata r) as Hspec.
  eapply wp_val in Hspec; [|exact Hrun].
  destruct (Hspec res eq_refl) as (workflow & instance & Hdef & Hreg & Hwid & _ & Hpost).
  destruct (Hpost res eq_refl) as (Hid & _ & _ & stored & Hstored & [Hfrom _] & Hst & Hcase).
  simpl in Hcase. destruct Hcase as (_ & Hfailed & _ & Herr & _).
  exists stored. rewrite Hid. split_and!; [done|congruence|done|].
  rewrite (ResumeWorkflow_terminal _ _ stored); [|done|..].
  - rewrite bool_decide_false; [done|]. rewrite Hst, Hfailed. done.
  - rewrite Hreg, Hfrom, Hdef. by eexists.
  - unfold wi_IsCompleted. rewrite Hst, Hfailed. done.
Qed.

(** After [StartWorkflow] has returned a result, [GetWorkflow] on the
    instance returns the stored instance, and its [Steps] is empty, while
    the instance of the result holds one step instance per step of the
    definition. *)
Lemma GetWorkflow_after_StartWorkflow ctx workflowID input metadata
    (r r1 : @Runtime W) (res : WorkflowResult) (err : option string) :
  StartWorkflow ctx workflowID input metadata r = Val (Some res, err) r1 →
  ∃ workflow stored,
    rt_workflows r !! workflowID = Some workflow
    ∧ GetWorkflow (rt_stateManager r1) (wi_ID (wr_WorkflowInst res)) = inl stored
    ∧ wi_Status stored = wi_Status (wr_WorkflowInst res)
    ∧ wi_Steps stored = []
    ∧ si_StepID <$> wi_Steps (wr_WorkflowInst res) = sd_ID <$> wd_Steps workflow.
Proof.
  intros Hrun.
  pose proof (StartWorkflow_spec ctx workflowID input metadata r) as Hspec.
  eapply wp_val in Hspec; [|exact Hrun].
  destruct (Hspec res eq_refl) as (workflow & instance & Hdef & Hreg & Hwid & Hnil & Hpost).
  destruct (Hpost res eq_refl) as (Hid & _ & Hsteps & stored & Hstored & [_ Hs] & Hst & _).
  exists workflow, stored. split_and!; try done; [|by apply Hsteps].
  unfold GetWorkflow. by rewrite Hid, Hstored, deepCopyWorkflow_id.
Qed.

End Facade.


(** C4 fails as stated. In scenario S5 the workflow ends failed and its one
    required step is failed with error message "boom"; the error message
    of the workflow, in the result and in the store, is
    "step S failed after 1 attempts: boom", not "boom". *)
Lemma workflow_error_is_wrapped :
  ∃ res r stored,
    Scenario.s5_run = Val (Some res, Some "step S failed after 1 attempts: boom") r
    ∧ wi_Status (wr_WorkflowInst res) = WorkflowStatusFailed
    ∧ ((λ s, (si_Status s, si_Error s)) <$> wi_Steps (wr_WorkflowInst res))
      = [(StepStatusFailed, Some "boom")]
    ∧ wi_Error (wr_WorkflowInst res) = Some "step S failed after 1 attempts: boom"
    ∧ workflows (rt_stateManager r) !! wi_ID (wr_WorkflowInst res) = Some stored
    ∧ wi_Status stored = WorkflowStatusFailed
    ∧ wi_Error stored = Some "step S failed after 1 attempts: boom"
    ∧ wi_Error stored ≠ Some "boom".
Proof.
  eexists _, _, _. split; [vm_compute; reflexivity|].
  split_and!; try (vm_compute; reflexivity). vm_compute. discriminate.
Qed.

Lemma ResumeWorkflow_after_failure_witness :
  ∃ stored,
    workflows (rt_stateManager Scenario.s8_after_start)
      !! wi_ID (wr_WorkflowInst (Scenario.result_of Scenario.s8_run)) = Some stored
    ∧ wi_Status stored = WorkflowStatusFailed
    ∧ wi_Error stored = Some "step S failed after 1 attempts: first call"
    ∧ ResumeWorkflow (wi_ID (wr_WorkflowInst (Scenario.result_of Scenario.s8_run)))
        Scenario.s8_after_start
      = Val (Some (mkWorkflowResult false stored (wi_Output stored) None
                     (rt_clock Scenario.s8_after_start - wi_StartedAt stored)),
             None)
            (rt_with_clock (S (rt_clock Scenario.s8_after_start)) Scenario.s8_after_start).
Proof.
  apply (ResumeWorkflow_after_failure ∅ "W" ∅ ∅ Scenario.s8_start Scenario.s8_after_start
           (Scenario.result_of Scenario.s8_run)
           "step S failed after 1 attempts: first call").
  vm_compute. reflexivity.
Defined.

(** C2 fails as stated. In scenario S8 the executor fails on its first
    call and would succeed on any later call. [StartWorkflow] returns a
    failure; [ResumeWorkflow] on the instance then returns success false
    with the instance still failed, and the executor has still been called
    exactly once. *)
Lemma ResumeWorkflow_does_not_reexecute :
  ∃ res1 e r1 res2 r2,
    Scenario.s8_run = Val (Some res1, Some e) r1
    ∧ wr_Success res1 = false
    ∧ (∃ stepDef, wd_Steps Scenario.s8_workflow = [stepDef]
                  ∧ (sd_Executor stepDef (rt_world r1) ∅).1 = ExecOk {[ "r" := VStr "ok" ]})
    ∧ ResumeWorkflow (wi_ID (wr_WorkflowInst res1)) r1 = Val (Some res2, None) r2
    ∧ wr_Success res2 = false
    ∧ wi_Status (wr_WorkflowInst res2) = WorkflowStatusFailed
    ∧ wi_Status (wr_WorkflowInst res2) ≠ WorkflowStatusCompleted
    ∧ rt_world r1 = 1%nat ∧ rt_world r2 = 1%nat
    ∧ (rt_calls r2).*1 = ["S"].
Proof.
  eexists _, _, _, _, _. split; [vm_compute; reflexivity|].
  split; [vm_compute; reflexivity|].
  split; [eexists; split; [reflexivity|vm_compute; reflexivity]|].
  split; [vm_compute; reflexivity|].
  split_and!; try (vm_compute; reflexivity). vm_compute. discriminate.
Qed.

(** ** Waves *)

Section Waves.
Context {W : Type}.
Implicit Types (stepDef : @StepDefinition W) (r : @Runtime W).

Lemma called_stable calls call : Stable call (@called W calls call).
Proof.
  split; intros r; intros; unfold called in *; simpl; try done.
  destruct H as [n Hn]. exists (S n). rewrite Hn, <- app_assoc. f_equal.
  by rewrite replicate_S_end.
Qed.


(** Every call [executeStep] makes to the executor passes the input that
    [prepareStepInput] builds from the instance as it is on entry. *)
Lemma executeStep_inputs stepDef p inst stepInstMap r :
  wp (executeStep stepDef p inst stepInstMap)
     (λ _ r', ∃ n, rt_calls r'
                   = rt_calls r
                     ++ replicate n (sd_ID stepDef, prepareStepInput stepDef inst stepInstMap)) r.
Proof.
  eapply (triple_wp (called (rt_calls r) _));
    [apply executeStep_run, called_stable|by exists 0%nat; rewrite app_nil_r|].
  by intros out r' Hcalled _.
Qed.



End Waves.

Section WaveTrace.
Context {W : Type}.
Implicit Types (stepDef : @StepDefinition W) (r : @Runtime W).





End WaveTrace.



(** ** The loop bound of [executeSteps] *)

Section Fuel.
Context {W : Type}.
Implicit Types (stepDef : @StepDefinition W) (r : @Runtime W).

Lemma fueled_ret {A} (a : A) : fueled (mret a : @M W A).
Proof. by intros r. Qed.

Lemma fueled_bind {A B} (m : @M W A) (f : A → @M W B) :
  fueled m → (∀ a, fueled (f a)) → fueled (m ≫= f).
Proof.
  intros Hm Hf r. unfold mbind, M_bind. specialize (Hm r).
  destruct (m r); [apply Hf|done|done].
Qed.

Lemma fueled_bind_post {A B} (m : @M W A) (f : A → @M W B) r :
  m r ≠ OutOfFuel → (∀ a r', m r = Val a r' → f a r' ≠ OutOfFuel) →
  (m ≫= f) r ≠ OutOfFuel.
Proof.
  intros Hm Hf. unfold mbind, M_bind. destruct (m r); [by apply Hf|done|done].
Qed.

Lemma fueled_panic {A} : fueled (panic : @M W A).
Proof. by intros r. Qed.

Lemma fueled_time_Now : fueled (@time_Now W).
Proof. by intros r. Qed.

Lemma fueled_time_Sleep d : fueled (@time_Sleep W d).
Proof. by intros r. Qed.

Lemma fueled_uuid_New : fueled (@uuid_New W).
Proof. by intros r. Qed.

Lemma fueled_store_op op : fueled (@store_op W op).
Proof. intros r. unfold store_op. by destruct (op _). Qed.

Lemma fueled_callExecutor stepDef input : fueled (callExecutor stepDef input).
Proof. intros r. unfold callExecutor. by destruct (sd_Executor _ _ _). Qed.

Ltac fuel_step :=
  first
    [ apply fueled_ret | apply fueled_panic | apply fueled_time_Now
    | apply fueled_time_Sleep | apply fueled_uuid_New | apply fueled_store_op
    | apply fueled_callExecutor
    | apply fueled_bind; [|intros ?] ].

Lemma fueled_emitEvent workflowInstID stepInstID eventType data :
  fueled (@emitEvent W workflowInstID stepInstID eventType data).
Proof. unfold emitEvent. repeat fuel_step. Qed.

Lemma fueled_sm_UpdateStepStatus stepInstID status :
  fueled (@sm_UpdateStepStatus W stepInstID status).
Proof. unfold sm_UpdateStepStatus. repeat fuel_step. Qed.

Lemma fueled_sm_UpdateStepOutput stepInstID output :
  fueled (@sm_UpdateStepOutput W stepInstID output).
Proof. unfold sm_UpdateStepOutput. repeat fuel_step. Qed.

Lemma fueled_sm_UpdateStepError stepInstID err :
  fueled (@sm_UpdateStepError W stepInstID err).
Proof. unfold sm_UpdateStepError. repeat fuel_step. Qed.

Ltac fuel_go :=
  repeat first
    [ apply fueled_emitEvent | apply fueled_sm_UpdateStepStatus
    | apply fueled_sm_UpdateStepOutput | apply fueled_sm_UpdateStepError
    | fuel_step
    | match goal with
      | |- fueled (if ?b then _ else _) => destruct b
      | |- fueled (match ?x with _ => _ end) => destruct x
      end ].

Lemma fueled_attemptLoop stepDef retryPolicy p stepInstID input n attempt lastErr inst :
  fueled (attemptLoop stepDef retryPolicy p stepInstID input n attempt lastErr inst).
Proof.
  revert attempt lastErr inst. induction n as [|n IH]; intros attempt lastErr inst; simpl.
  - apply fueled_ret.
  - fuel_go; apply IH.
Qed.

Lemma fueled_executeStep stepDef p inst stepInstMap :
  fueled (executeStep stepDef p inst stepInstMap).
Proof.
  unfold executeStep. destruct (deref inst p); [|apply fueled_panic].
  destruct (si_IsCompleted _); [apply fueled_ret|].
  apply fueled_bind; [apply fueled_attemptLoop|].
  intros [?|[[?|] ?]]; fuel_go.
Qed.

Lemma fueled_runSyncSteps (l : list (@StepDefinition W)) stepInstMap executed inst :
  fueled (runSyncSteps l stepInstMap executed inst).
Proof.
  revert executed inst. induction l as [|stepDef l IH]; intros executed inst; simpl.
  { apply fueled_ret. }
  destruct (_ ≫= _) as [[p stepInst]|]; [|apply fueled_panic].
  case_bool_decide; [apply IH|].
  apply fueled_bind; [apply fueled_executeStep|].
  intros [[err|] inst1]; [|apply IH].
  destruct (sd_Required stepDef); [apply fueled_ret|].
  apply fueled_bind; [apply fueled_sm_UpdateStepStatus|]. intros _. apply IH.
Qed.

Lemma fueled_runAsyncSteps (l : list (@StepDefinition W)) stepInstMap errors executed inst :
  fueled (runAsyncSteps l stepInstMap errors executed inst).
Proof.
  revert errors executed inst.
  induction l as [|stepDef l IH]; intros errors executed inst; simpl.
  { apply fueled_ret. }
  destruct (_ ≫= _) as [[p stepInst]|]; [|apply fueled_panic].
  case_bool_decide; [apply IH|].
  apply fueled_bind; [apply fueled_executeStep|].
  intros [[err|] inst1]; [|apply IH].
  destruct (sd_Required stepDef); [apply IH|].
  apply fueled_bind; [apply fueled_sm_UpdateStepStatus|]. intros _. apply IH.
Qed.

Lemma findReadySteps_not_executed (workflow : @WorkflowDefinition W) executed graph stepDef :
  stepDef ∈ findReadySteps workflow executed graph → sd_ID stepDef ∉ executed.
Proof.
  unfold findReadySteps.
  assert (Hgen : ∀ l acc,
    (∀ x, x ∈ acc → sd_ID x ∉ executed) →
    stepDef ∈ foldl (λ ready step,
           if bool_decide (sd_ID step ∈ executed) then ready
           else
             let allDepsExecuted :=
               forallb (λ dep, bool_decide (dep ∈ executed))
                       (default [] (graph !! sd_ID step)) in
             if allDepsExecuted then ready ++ [step] else ready) acc l →
    sd_ID stepDef ∉ executed).
  { induction l as [|x l IH]; intros acc Hacc; simpl; [apply Hacc|].
    apply IH. case_bool_decide; [done|].
    destruct (forallb _ _); [|done].
    intros y [Hy|Hy]%elem_of_app; [by apply Hacc|].
    by apply list_elem_of_singleton in Hy as ->. }
  apply Hgen. intros x Hx. by apply elem_of_nil in Hx.
Qed.

Lemma wavePlan_cover (workflow : @WorkflowDefinition W) executed graph stepDef :
  stepDef ∈ findReadySteps workflow executed graph →
  stepDef ∈ (wavePlan workflow executed graph).1
  ∨ stepDef ∈ (wavePlan workflow executed graph).2.
Proof.
  intros Hin. unfold wavePlan. simpl.
  rewrite !list_elem_of_filter, sort_Slice_perm.
  destruct (sd_Async stepDef); [right|left]; done.
Qed.

Lemma executeStepsLoop_fuel fuel workflow graph stepInstMap executed inst r :
  map_points stepInstMap inst →
  (size (pending workflow executed) < fuel)%nat →
  executeStepsLoop fuel workflow graph stepInstMap executed inst r ≠ OutOfFuel.
Proof.
  revert executed inst r.
  induction fuel as [|fuel IH]; intros executed inst r Hmap Hsize; [lia|].
  cbn [executeStepsLoop].
  case_bool_decide as Hready; [done|].
  pose proof (wavePlan_cover workflow executed graph) as Hcover.
  destruct (wavePlan workflow executed graph) as [syncSteps asyncSteps]. simpl in Hcover.
  assert (Hstable : ∀ call, Stable call (λ _ : @Runtime W, True)) by by split.
  apply fueled_bind_post; [apply fueled_runSyncSteps|].
  intros [[err executed1] inst1] r1 Hrun1.
  pose proof (runSyncSteps_run _ syncSteps stepInstMap executed inst Hstable Hmap r I) as Hpost1.
  eapply wp_val in Hpost1; [|exact Hrun1].
  destruct Hpost1 as (_ & Hf1 & _ & Hsub1 & Hall1 & _). simpl in *.
  destruct err as [err|]; [done|].
  apply fueled_bind_post.
  { case_bool_decide; [apply fueled_runAsyncSteps|apply fueled_ret]. }
  intros [[errors executed2] inst2] r2 Hrun2.
  assert (Hpost2 : same_frame inst inst2 ∧ executed1 ⊆ executed2
                   ∧ ∀ stepDef, stepDef ∈ asyncSteps → sd_ID stepDef ∈ executed2).
  { case_bool_decide as Hlen.
    - pose proof (runAsyncSteps_run _ asyncSteps stepInstMap [] executed1 inst1 Hstable
                    (map_points_frame _ _ _ Hmap Hf1) r1 I) as Hpost2.
      eapply wp_val in Hpost2; [|exact Hrun2].
      destruct Hpost2 as (_ & ? & _ & ? & ? & _). simpl in *.
      split; [by eapply same_frame_trans|done].
    - injection Hrun2 as <- <- <- <-. split; [done|]. split; [done|].
      intros sd Hsd. destruct asyncSteps; [by apply elem_of_nil in Hsd|simpl in *; lia]. }
  clear Hrun2.
  destruct Hpost2 as (Hf2 & Hsub2 & Hall2).
  destruct errors as [|err errors]; [|done].
  destruct (bool_decide (size executed2 = length (wd_Steps workflow)));
    [by apply fueled_ret|].
  apply IH; [by eapply map_points_frame|].
  destruct (findReadySteps workflow executed graph) as [|stepDef ready] eqn:Hfind; [done|].
  assert (Hin : stepDef ∈ findReadySteps workflow executed graph).
  { rewrite Hfind. apply list_elem_of_here. }
  assert (Hnew : sd_ID stepDef ∈ executed2).
  { rewrite <- Hfind in Hcover.
    destruct (Hcover stepDef Hin) as [Hs|Ha]; [|by apply Hall2].
    apply Hsub2. by apply Hall1. }
  assert (Hold : sd_ID stepDef ∉ executed) by by eapply findReadySteps_not_executed.
  assert (Hid : sd_ID stepDef ∈ (list_to_set (sd_ID <$> wd_Steps workflow) : gset string)).
  { apply elem_of_list_to_set, list_elem_of_fmap. exists stepDef. split; [done|].
    by eapply findReadySteps_subset. }
  assert (Hlt : pending workflow executed2 ⊂ pending workflow executed).
  { unfold pending. set_solver. }
  apply subset_size in Hlt. lia.
Qed.

(** [executeSteps] never hits its loop bound. *)
Lemma executeSteps_fuel workflow inst graph r :
  executeSteps workflow inst graph r ≠ OutOfFuel.
Proof.
  unfold executeSteps. apply executeStepsLoop_fuel; [apply buildStepInstMap_points|].
  unfold pending.
  assert (Hle : ∀ l : list string, (size (list_to_set l : gset string) ≤ length l)%nat).
  { induction l as [|x l IH].
    { rewrite list_to_set_nil, size_empty. simpl. lia. }
    rewrite list_to_set_cons. cbn [length].
    rewrite size_union_alt, size_singleton.
    assert (Hsub : (list_to_set l ∖ {[x]} : gset string) ⊆ list_to_set l) by set_solver.
    apply subseteq_size in Hsub. lia. }
  specialize (Hle (sd_ID <$> wd_Steps workflow)). rewrite length_fmap in Hle.
  assert (Hsub : (list_to_set (sd_ID <$> wd_Steps workflow) ∖ ∅ : gset string)
                 ⊆ list_to_set (sd_ID <$> wd_Steps workflow)) by set_solver.
  apply subseteq_size in Hsub. lia.
Qed.

End Fuel.

(** ** Runs that return *)

Section Returns.
Context {W : Type}.
Implicit Types (stepDef : @StepDefinition W) (r : @Runtime W).
Implicit Types (l : list (@StepDefinition W)) (workflow : @WorkflowDefinition W).

Lemma trivially_stable call : Stable call (λ _ : @Runtime W, True).
Proof. by split. Qed.

Lemma calm_ret {A} (a : A) : calm (mret a : @M W A).
Proof. by intros r. Qed.

Lemma calm_bind {A B} (m : @M W A) (f : A → @M W B) (P : A → Prop) :
  triple (λ _, True) m P → calm m → (∀ a, P a → calm (f a)) → calm (m ≫= f).
Proof.
  intros Ht Hm Hf r. unfold mbind, M_bind. specialize (Hm r).
  destruct (m r) as [a r'| |] eqn:Hrun; [|done|done].
  apply Hf. by destruct (wp_val _ _ _ _ _ (Ht r I) Hrun).
Qed.

Lemma calm_seq {A B} (m : @M W A) (f : A → @M W B) :
  calm m → (∀ a, calm (f a)) → calm (m ≫= f).
Proof.
  intros Hm Hf r. unfold mbind, M_bind. specialize (Hm r).
  destruct (m r); [apply Hf|done|done].
Qed.

Lemma calm_time_Now : calm (@time_Now W).
Proof. by intros r. Qed.

Lemma calm_time_Sleep d : calm (@time_Sleep W d).
Proof. by intros r. Qed.

Lemma calm_uuid_New : calm (@uuid_New W).
Proof. by intros r. Qed.

Lemma calm_store_op op : calm (@store_op W op).
Proof. intros r. unfold store_op. by destruct (op _). Qed.

Lemma calm_callExecutor stepDef input : calm (callExecutor stepDef input).
Proof. intros r. unfold callExecutor. by destruct (sd_Executor _ _ _). Qed.

Ltac calm_step :=
  first
    [ apply calm_ret | apply calm_time_Now | apply calm_time_Sleep
    | apply calm_uuid_New | apply calm_store_op | apply calm_callExecutor
    | apply calm_seq; [|intros ?] ].

Lemma calm_emitEvent workflowInstID stepInstID eventType data :
  calm (@emitEvent W workflowInstID stepInstID eventType data).
Proof. unfold emitEvent. repeat calm_step. Qed.

Lemma calm_sm_UpdateStepStatus stepInstID status :
  calm (@sm_UpdateStepStatus W stepInstID status).
Proof. unfold sm_UpdateStepStatus. repeat calm_step. Qed.

Lemma calm_sm_UpdateStepOutput stepInstID output :
  calm (@sm_UpdateStepOutput W stepInstID output).
Proof. unfold sm_UpdateStepOutput. repeat calm_step. Qed.

Lemma calm_sm_UpdateStepError stepInstID err :
  calm (@sm_UpdateStepError W stepInstID err).
Proof. unfold sm_UpdateStepError. repeat calm_step. Qed.

Ltac calm_go :=
  repeat first
    [ apply calm_emitEvent | apply calm_sm_UpdateStepStatus
    | apply calm_sm_UpdateStepOutput | apply calm_sm_UpdateStepError
    | calm_step
    | match goal with
      | |- calm (if ?b then _ else _) => destruct b
      | |- calm (match ?x with _ => _ end) => destruct x
      end ].

Ltac tstep :=
  first
    [ by apply triple_ret
    | eapply triple_bind;
      [ first [ by eapply triple_time_Now
              | by eapply triple_time_Sleep
              | by eapply triple_uuid_New
              | by eapply triple_emitEvent
              | by eapply triple_sm_UpdateStepStatus
              | by eapply triple_sm_UpdateStepOutput
              | by eapply triple_sm_UpdateStepError
              | by eapply triple_callExecutor ]
      | intros ? _ ] ].

Lemma calm_attemptLoop stepDef retryPolicy p stepInstID input n attempt lastErr inst :
  calm (attemptLoop stepDef retryPolicy p stepInstID input n attempt lastErr inst).
Proof.
  revert attempt lastErr inst. induction n as [|n IH]; intros attempt lastErr inst; simpl.
  - apply calm_ret.
  - calm_go; apply IH.
Qed.

(** When the attempt loop falls through, it does so with the error of the
    last attempt, if there was an attempt. *)
Lemma attemptLoop_lastErr stepDef retryPolicy p stepInstID input n attempt lastErr inst :
  triple (λ _, True)
    (attemptLoop stepDef retryPolicy p stepInstID input n attempt lastErr inst)
    (λ out, ∀ le inst', out = inr (le, inst') →
              is_Some le ∨ (n = 0%nat ∧ le = lastErr)).
Proof.
  pose proof (trivially_stable (sd_ID stepDef, input)) as HS.
  revert attempt lastErr inst. induction n as [|n IH]; intros attempt lastErr inst.
  { apply triple_ret. intros le inst' [= <- <-]. by right. }
  simpl.
  eapply (triple_bind _ _ _ (λ _, True)).
  { case_bool_decide; repeat tstep. }
  intros inst1 _.
  eapply (triple_bind _ _ _ (λ _, True)).
  { case_bool_decide; repeat tstep. }
  intros inst2 _.
  do 3 tstep.
  destruct a0 as [output|err].
  - repeat tstep.
  - eapply triple_mono; [|apply IH].
    intros out Hpost le inst' ->.
    destruct (Hpost _ _ eq_refl) as [?|[_ ->]]; eauto.
Qed.

Lemma calm_executeStep stepDef p inst stepInstMap :
  is_Some (deref inst p) → 1 <= maxAttempts stepDef →
  calm (executeStep stepDef p inst stepInstMap).
Proof.
  intros [stepInst Hp] Hmax. unfold executeStep. rewrite Hp.
  destruct (si_IsCompleted stepInst); [apply calm_ret|].
  eapply calm_bind; [apply attemptLoop_lastErr|apply calm_attemptLoop|].
  intros [inst'|[le inst']] Hpost; [apply calm_ret|].
  destruct (Hpost le inst' eq_refl) as [[e ->]|[Hn _]].
  - calm_go.
  - exfalso. unfold maxAttempts in Hmax.
    destruct (sd_RetryPolicy stepDef); simpl in Hn; lia.
Qed.


Lemma runnable_lookup l stepInstMap inst stepDef :
  map_points stepInstMap inst → runnable l stepInstMap → stepDef ∈ l →
  ∃ p stepInst,
    stepInstMap !! sd_ID stepDef ≫= (λ p, (p,.) <$> deref inst p) = Some (p, stepInst)
    ∧ stepInstMap !! sd_ID stepDef = Some p
    ∧ wi_Steps inst !! p = Some stepInst
    ∧ 1 <= maxAttempts stepDef.
Proof.
  intros Hmap Hrun Hin. destruct (Hrun _ Hin) as [[p Hp] Hmax].
  destruct (Hmap _ _ Hp) as (s & Hs & _).
  exists p, s. unfold deref. rewrite Hp. simpl. rewrite Hs. done.
Qed.

Lemma runnable_tail stepDef l stepInstMap :
  runnable (stepDef :: l) stepInstMap → runnable l stepInstMap.
Proof. intros H sd Hsd. apply H. by apply list_elem_of_further. Qed.

Lemma calm_runSyncSteps l stepInstMap executed inst :
  map_points stepInstMap inst → runnable l stepInstMap →
  calm (runSyncSteps l stepInstMap executed inst).
Proof.
  revert executed inst.
  induction l as [|stepDef l IH]; intros executed inst Hmap Hrun; simpl.
  { apply calm_ret. }
  destruct (runnable_lookup _ _ _ stepDef Hmap Hrun) as (p & stepInst & -> & Hsim & Hp & Hmax);
    [apply list_elem_of_here|].
  apply runnable_tail in Hrun.
  case_bool_decide; [by apply IH|].
  eapply calm_bind.
  { apply executeStep_run, trivially_stable. }
  { apply calm_executeStep; [by eexists|done]. }
  intros [err inst1] Hpost.
  destruct err as [err|].
  - destruct (sd_Required stepDef); [apply calm_ret|].
    destruct (skipped_after_error _ _ _ _ Hpost) as [Hf _]; [by eexists|].
    apply calm_seq; [apply calm_sm_UpdateStepStatus|]. intros _.
    apply IH; [by eapply map_points_frame|done].
  - destruct Hpost as ([Hf _] & _). apply IH; [by eapply map_points_frame|done].
Qed.

Lemma calm_runAsyncSteps l stepInstMap errors executed inst :
  map_points stepInstMap inst → runnable l stepInstMap →
  calm (runAsyncSteps l stepInstMap errors executed inst).
Proof.
  revert errors executed inst.
  induction l as [|stepDef l IH]; intros errors executed inst Hmap Hrun; simpl.
  { apply calm_ret. }
  destruct (runnable_lookup _ _ _ stepDef Hmap Hrun) as (p & stepInst & -> & Hsim & Hp & Hmax);
    [apply list_elem_of_here|].
  apply runnable_tail in Hrun.
  case_bool_decide; [by apply IH|].
  eapply calm_bind.
  { apply executeStep_run, trivially_stable. }
  { apply calm_executeStep; [by eexists|done]. }
  intros [err inst1] Hpost.
  destruct err as [err|].
  - destruct (sd_Required stepDef).
    { destruct Hpost as ([Hf _] & _). apply IH; [by eapply map_points_frame|done]. }
    destruct (skipped_after_error _ _ _ _ Hpost) as [Hf _]; [by eexists|].
    apply calm_seq; [apply calm_sm_UpdateStepStatus|]. intros _.
    apply IH; [by eapply map_points_frame|done].
  - destruct Hpost as ([Hf _] & _). apply IH; [by eapply map_points_frame|done].
Qed.

Lemma calm_executeStepsLoop fuel workflow graph stepInstMap executed inst :
  map_points stepInstMap inst → runnable (wd_Steps workflow) stepInstMap →
  calm (executeStepsLoop fuel workflow graph stepInstMap executed inst).
Proof.
  revert executed inst.
  induction fuel as [|fuel IH]; intros executed inst Hmap Hrun; [done|].
  cbn [executeStepsLoop].
  case_bool_decide as Hready; [apply calm_ret|].
  pose proof (wavePlan_subset workflow executed graph) as Hsub.
  destruct (wavePlan workflow executed graph) as [syncSteps asyncSteps]. simpl in Hsub.
  assert (Hstable : ∀ call, Stable call (λ _ : @Runtime W, True)) by by split.
  eapply calm_bind.
  { by apply runSyncSteps_run. }
  { apply calm_runSyncSteps; [done|]. intros sd Hsd. apply Hrun, Hsub. by left. }
  intros [[err executed1] inst1] (Hf1 & _). simpl in Hf1.
  destruct err as [err|]; [apply calm_ret|].
  eapply (calm_bind _ _ (λ out, same_frame inst out.2)).
  { case_bool_decide.
    - eapply triple_mono; [|apply runAsyncSteps_run; [done|by eapply map_points_frame]].
      intros out (Hf2 & _). by eapply same_frame_trans.
    - by apply triple_ret. }
  { case_bool_decide; [|apply calm_ret].
    apply calm_runAsyncSteps; [by eapply map_points_frame|].
    intros sd Hsd. apply Hrun, Hsub. by right. }
  intros [[errors executed2] inst2] Hf2. simpl in Hf2.
  destruct errors; [|apply calm_ret].
  case_bool_decide; [apply calm_ret|].
  apply IH; [by eapply map_points_frame|done].
Qed.


Lemma buildStepInstMap_total inst s :
  s ∈ wi_Steps inst → is_Some (buildStepInstMap inst !! si_StepID s).
Proof.
  intros Hin. unfold buildStepInstMap.
  assert (Hgen : ∀ (pairs : list (nat * StepInstance)) (acc : gmap string nat) id,
    is_Some (acc !! id) ∨ (∃ i s', (i, s') ∈ pairs ∧ si_StepID s' = id) →
    is_Some (foldl (λ acc '(i, stepInst), <[si_StepID stepInst := i]> acc) acc pairs !! id)).
  { induction pairs as [|[i s'] pairs IH]; intros acc id Hid; simpl.
    { destruct Hid as [?|(? & ? & Hnil & _)]; [done|by apply elem_of_nil in Hnil]. }
    apply IH. rewrite lookup_insert. case_decide as Heq; [left; by eexists|].
    destruct Hid as [?|(j & s'' & [[= -> ->]|Hin']%elem_of_cons & Hs)]; [by left|done|].
    right. eauto. }
  apply Hgen. right.
  apply list_elem_of_lookup in Hin as [i Hi].
  exists i, s. split; [|done].
  apply elem_of_lookup_imap. eauto.
Qed.

Lemma calm_initSteps (stepDefs : list (@StepDefinition W)) i inst :
  calm (initSteps stepDefs i inst).
Proof.
  revert i inst. induction stepDefs as [|stepDef l IH]; intros i inst; simpl.
  { apply calm_ret. }
  calm_go. apply IH.
Qed.

Lemma calm_executeSteps workflow inst graph :
  (∀ stepDef, stepDef ∈ wd_Steps workflow →
     sd_ID stepDef ∈ si_StepID <$> wi_Steps inst ∧ 1 <= maxAttempts stepDef) →
  calm (executeSteps workflow inst graph).
Proof.
  intros Hsteps. unfold executeSteps.
  apply calm_executeStepsLoop; [apply buildStepInstMap_points|].
  intros sd Hsd. destruct (Hsteps sd Hsd) as [Hid Hmax]. split; [|done].
  apply list_elem_of_fmap in Hid as (s & -> & Hs). by apply buildStepInstMap_total.
Qed.

(** [executeWorkflow] on an instance that has no steps yet does not panic
    when every step may be attempted at least once. *)
Lemma calm_executeWorkflow (workflow : @WorkflowDefinition W) inst :
  wi_Steps inst = [] →
  (∀ stepDef, stepDef ∈ wd_Steps workflow → 1 <= maxAttempts stepDef) →
  calm (executeWorkflow workflow inst).
Proof.
  intros Hnil Hmax. unfold executeWorkflow.
  do 3 (apply calm_seq; [calm_go|intros ?]).
  destruct a1; [apply calm_ret|].
  assert (Hstable : ∀ call, Stable call (λ _ : @Runtime W, True)) by by split.
  eapply calm_bind.
  { simpl. rewrite Hnil. simpl. by apply initSteps_run. }
  { simpl. rewrite Hnil. simpl. apply calm_initSteps. }
  intros [inst1|err] Hinit; [|apply calm_ret].
  destruct Hinit as (news & -> & Hids).
  apply calm_seq.
  { apply calm_executeSteps. intros sd Hsd. split; [|by apply Hmax].
    simpl. rewrite Hnil. simpl. rewrite Hids. by apply list_elem_of_fmap_2. }
  intros [[err|] inst2]; calm_go.
Qed.

Lemma calm_get_rt : calm (@get_rt W).
Proof. by intros r. Qed.

Lemma calm_GetWorkflowDef workflowID : calm (@GetWorkflowDef W workflowID).
Proof.
  unfold GetWorkflowDef. apply calm_seq; [apply calm_get_rt|]. intros r. calm_go.
Qed.

Lemma calm_getTraceID ctx metadata : calm (@getTraceID W ctx metadata).
Proof. unfold getTraceID. calm_go. Qed.

Lemma calm_getCorrelationID ctx metadata : calm (@getCorrelationID W ctx metadata).
Proof. unfold getCorrelationID. calm_go. Qed.

Lemma calm_getBusinessID ctx metadata : calm (@getBusinessID W ctx metadata).
Proof. unfold getBusinessID. calm_go. Qed.


Lemma calm_bind_post {A B} (m : @M W A) (f : A → @M W B) r :
  m r ≠ Panic → (∀ a r', m r = Val a r' → f a r' ≠ Panic) → (m ≫= f) r ≠ Panic.
Proof.
  intros Hm Hf. unfold mbind, M_bind. destruct (m r); [by apply Hf|done|done].
Qed.

Lemma GetWorkflowDef_registered workflowID (r : @Runtime W) workflow a r' :
  rt_workflows r !! workflowID = Some workflow →
  GetWorkflowDef workflowID r = Val a r' → a = inl workflow ∧ r' = r.
Proof.
  intros Hdef. unfold GetWorkflowDef, mbind, M_bind. simpl. rewrite Hdef. simpl.
  by intros [= <- <-].
Qed.

Lemma StartWorkflow_no_panic ctx workflowID input metadata (r : @Runtime W) workflow :
  rt_workflows r !! workflowID = Some workflow →
  (∀ stepDef, stepDef ∈ wd_Steps workflow → 1 <= maxAttempts stepDef) →
  StartWorkflow ctx workflowID input metadata r ≠ Panic.
Proof.
  intros Hdef Hmax. unfold StartWorkflow.
  apply calm_bind_post; [apply calm_GetWorkflowDef|].
  intros a r' Hrun. destruct (GetWorkflowDef_registered _ _ _ _ _ Hdef Hrun) as [-> ->].
  apply calm_seq; [apply calm_uuid_New|]. intros id.
  apply calm_seq; [apply calm_time_Now|]. intros startedAt.
  apply calm_seq; [apply calm_getTraceID|]. intros traceID.
  apply calm_seq; [apply calm_getCorrelationID|]. intros correlationID.
  apply calm_seq; [apply calm_getBusinessID|]. intros businessID.
  apply calm_seq; [apply calm_store_op|]. intros [err|]; [apply calm_ret|].
  apply calm_seq; [apply calm_emitEvent|]. intros _.
  by apply calm_executeWorkflow.
Qed.

Lemma fueled_initSteps (stepDefs : list (@StepDefinition W)) i inst :
  fueled (initSteps stepDefs i inst).
Proof.
  revert i inst. induction stepDefs as [|stepDef l IH]; intros i inst; simpl.
  { apply fueled_ret. }
  apply fueled_bind; [apply fueled_uuid_New|]. intros id.
  apply fueled_bind; [apply fueled_store_op|]. intros [err|]; [apply fueled_ret|apply IH].
Qed.

Lemma fueled_executeWorkflow (workflow : @WorkflowDefinition W) inst :
  fueled (executeWorkflow workflow inst).
Proof.
  unfold executeWorkflow.
  apply fueled_bind; [apply fueled_time_Now|]. intros startTime.
  apply fueled_bind; [apply fueled_time_Now|]. intros now.
  apply fueled_bind; [apply fueled_store_op|]. intros [err|]; [apply fueled_ret|].
  apply fueled_bind.
  { case_bool_decide; [apply fueled_initSteps|apply fueled_ret]. }
  intros [inst1|err]; [|apply fueled_ret].
  apply fueled_bind; [intros r; apply executeSteps_fuel|].
  intros [[err|] inst2].
  - repeat first [apply fueled_ret | apply fueled_emitEvent
                 | apply fueled_bind;
                   [first [apply fueled_time_Now|apply fueled_store_op|apply fueled_emitEvent]
                   |intros ?] ].
  - apply fueled_bind; [apply fueled_time_Now|]. intros now1.
    apply fueled_bind; [apply fueled_time_Now|]. intros now2.
    apply fueled_bind; [apply fueled_store_op|]. intros [err|]; [apply fueled_ret|].
    repeat first [apply fueled_ret | apply fueled_emitEvent
                 | apply fueled_bind;
                   [first [apply fueled_time_Now|apply fueled_store_op|apply fueled_emitEvent]
                   |intros ?] ].
Qed.

Lemma fueled_StartWorkflow ctx workflowID input metadata :
  fueled (@StartWorkflow W ctx workflowID input metadata).
Proof.
  unfold StartWorkflow.
  apply fueled_bind.
  { unfold GetWorkflowDef. apply fueled_bind; [by intros r|]. intros r.
    destruct (_ !! _); apply fueled_ret. }
  intros [workflow|err]; [|apply fueled_ret].
  apply fueled_bind; [apply fueled_uuid_New|]. intros id.
  apply fueled_bind; [apply fueled_time_Now|]. intros startedAt.
  apply fueled_bind.
  { unfold getTraceID. repeat case_match; first [apply fueled_ret|apply fueled_uuid_New]. }
  intros traceID.
  apply fueled_bind.
  { unfold getCorrelationID. repeat case_match; first [apply fueled_ret|apply fueled_uuid_New]. }
  intros correlationID.
  apply fueled_bind.
  { unfold getBusinessID. repeat case_match; apply fueled_ret. }
  intros businessID.
  apply fueled_bind; [apply fueled_store_op|]. intros [err|]; [apply fueled_ret|].
  apply fueled_bind; [apply fueled_emitEvent|]. intros _.
  apply fueled_executeWorkflow.
Qed.


(** The in-memory store saves every step: the creation of the step
    instances does not fail. *)
Lemma initSteps_saved R (stepDefs : list (@StepDefinition W)) i inst :
  (∀ call, Stable call R) →
  triple R (initSteps stepDefs i inst)
    (λ out, ∃ inst', out = inl inst' ∧ wi_ID inst' = wi_ID inst).
Proof.
  intros HS. revert i inst.
  induction stepDefs as [|stepDef l IH]; intros i inst; simpl.
  { apply triple_ret. by exists inst. }
  eapply triple_bind; [by apply (triple_uuid_New ("", ∅))|]. intros id _.
  eapply (triple_bind _ _ _ (λ err, err = None)).
  { intros r HR. unfold wp, store_op. simpl. split; [|done].
    by apply (HS ("", ∅)). }
  intros err ->. eapply triple_mono; [|apply IH].
  intros out (inst' & -> & Hid). by exists inst'.
Qed.

(** [executeWorkflow] on a stored instance returns a result. *)
Lemma executeWorkflow_result (workflow : @WorkflowDefinition W) inst reg (r : @Runtime W) :
  stored_inv (wi_ID inst) (λ _, True) reg r →
  wp (executeWorkflow workflow inst) (λ out _, is_Some out.1) r.
Proof.
  intros HR. unfold executeWorkflow.
  pose proof update_closed_True as HP.
  apply wp_bind. eapply triple_wp; [apply (triple_time_Now ("", ∅)), stored_inv_stable|done|].
  clear r HR. intros startTime r HR _.
  apply wp_bind. eapply triple_wp; [apply (triple_time_Now ("", ∅)), stored_inv_stable|done|].
  clear r HR. intros now r HR _.
  apply wp_bind. simpl.
  apply (wp_UpdateWorkflowStatus_stored _ (λ _, True) reg); [done|done|].
  clear r HR. intros r HR.
  apply stored_inv_mono with (P' := λ _, True) in HR; [|done].
  apply wp_bind.
  eapply (triple_wp _ _ (λ out, ∃ inst', out = inl inst' ∧ wi_ID inst' = wi_ID inst));
    [|exact HR|].
  { case_bool_decide.
    - eapply triple_mono; [|apply initSteps_saved; intros; apply stored_inv_stable]. done.
    - apply triple_ret. by eexists. }
  clear r HR. intros _ r HR (inst1 & -> & Hid1).
  apply wp_bind.
  eapply triple_wp; [apply executeSteps_run; intros; apply stored_inv_stable|exact HR|].
  clear r HR. intros [err inst2] r HR [Hf _]. simpl in Hf.
  assert (Hid : wi_ID inst2 = wi_ID inst) by (destruct Hf; congruence).
  destruct err as [err|].
  - apply wp_bind.
    eapply triple_wp; [apply (triple_time_Now ("", ∅)), stored_inv_stable|done|].
    clear r HR. intros now1 r HR _.
    apply wp_bind.
    eapply triple_wp; [apply (triple_time_Now ("", ∅)), stored_inv_stable|done|].
    clear r HR. intros now2 r HR _.
    apply wp_bind. simpl. rewrite Hid.
    apply (wp_UpdateWorkflowStatus_stored _ (λ _, True) reg); [done|done|].
    clear r HR. intros r HR.
    apply stored_inv_mono with (P' := λ _, True) in HR; [|done].
    apply wp_bind.
    eapply triple_wp; [apply (triple_time_Now ("", ∅)), stored_inv_stable|done|].
    clear r HR. intros now3 r HR _.
    apply wp_bind.
    apply (wp_UpdateWorkflowError _ (λ _, True) reg); [done|done|].
    clear r HR. intros r HR.
    apply wp_bind.
    eapply triple_wp; [apply (triple_emitEvent ("", ∅)), stored_inv_stable|done|].
    clear r HR. intros _ r HR _.
    apply wp_bind.
    eapply triple_wp; [apply (triple_time_Now ("", ∅)), stored_inv_stable|done|].
    clear r HR. intros endTime r HR _.
    apply wp_ret. by eexists.
  - apply wp_bind.
    eapply triple_wp; [apply (triple_time_Now ("", ∅)), stored_inv_stable|done|].
    clear r HR. intros now1 r HR _.
    apply wp_bind.
    eapply triple_wp; [apply (triple_time_Now ("", ∅)), stored_inv_stable|done|].
    clear r HR. intros now2 r HR _.
    apply wp_bind. simpl. rewrite Hid.
    apply (wp_UpdateWorkflowStatus_stored _ (λ _, True) reg); [done|done|].
    clear r HR. intros r HR.
    apply wp_bind.
    eapply triple_wp; [apply (triple_time_Now ("", ∅)), stored_inv_stable|done|].
    clear r HR. intros t r HR _.
    apply wp_bind.
    eapply triple_wp; [apply (triple_emitEvent ("", ∅)), stored_inv_stable|done|].
    clear r HR. intros _ r HR _.
    apply wp_bind.
    eapply triple_wp; [apply (triple_time_Now ("", ∅)), stored_inv_stable|done|].
    clear r HR. intros endTime r HR _.
    apply wp_ret. by eexists.
Qed.

(** [StartWorkflow] of a registered definition returns a result. *)
Lemma StartWorkflow_result ctx workflowID input metadata (r : @Runtime W) :
  is_Some (rt_workflows r !! workflowID) →
  wp (StartWorkflow ctx workflowID input metadata) (λ out _, is_Some out.1) r.
Proof.
  intros [workflow Hdef]. unfold StartWorkflow, GetWorkflowDef.
  apply wp_bind, wp_get_rt. rewrite Hdef. apply wp_ret. simpl.
  set (reg := rt_workflows r) in *.
  set (R := table_inv "" (λ _, True) reg).
  assert (HS : Stable ("", ∅) R) by apply table_inv_stable.
  assert (HR : R r) by by split.
  clearbody reg.
  apply wp_bind. eapply triple_wp; [by apply (triple_uuid_New ("", ∅))|done|].
  clear r HR. intros id r HR _.
  apply wp_bind. eapply triple_wp; [by apply (triple_time_Now ("", ∅))|done|].
  clear r HR. intros startedAt r HR _.
  apply wp_bind. eapply triple_wp; [by apply triple_getTraceID|done|].
  clear r HR. intros traceID r HR _.
  apply wp_bind. eapply triple_wp; [by apply triple_getCorrelationID|done|].
  clear r HR. intros correlationID r HR _.
  apply wp_bind. eapply triple_wp; [by apply triple_getBusinessID|done|].
  clear r HR. intros businessID r HR _.
  apply wp_bind. apply (wp_SaveWorkflow reg); [by destruct HR|].
  clear r HR. intros r HR.
  apply wp_bind. eapply triple_wp; [apply (triple_emitEvent ("", ∅)), stored_inv_stable|done|].
  clear r HR. intros _ r HR _.
  apply (executeWorkflow_result _ _ reg).
  eapply stored_inv_mono; [|exact HR]. done.
Qed.

(** [StartWorkflow] of a registered definition whose steps may each be
    attempted at least once returns: it neither panics nor exhausts the
    wave bound of the model, and it hands back a result. *)
Theorem StartWorkflow_returns ctx workflowID input metadata (r : @Runtime W) workflow :
  rt_workflows r !! workflowID = Some workflow →
  (∀ stepDef, stepDef ∈ wd_Steps workflow → 1 <= maxAttempts stepDef) →
  ∃ res err r', StartWorkflow ctx workflowID input metadata r = Val (Some res, err) r'.
Proof.
  intros Hdef Hmax.
  pose proof (StartWorkflow_no_panic ctx workflowID input metadata r workflow Hdef Hmax) as Hp.
  pose proof (fueled_StartWorkflow ctx workflowID input metadata r) as Hf.
  pose proof (StartWorkflow_result ctx workflowID input metadata r) as Hres.
  unfold wp in Hres.
  destruct (StartWorkflow ctx workflowID input metadata r) as [[res err] r'| |]; [|done|done].
  destruct Hres as [res' Hres']; [by eexists|]. simpl in Hres'. subst res.
  by exists res', err, r'.
Qed.

End Returns.

(** The workflow of scenario S8 is started and returns. *)
Example s8_returns :
  ∃ res err r', Scenario.s8_run = Val (Some res, err) r'.
Proof.
  apply (StartWorkflow_returns _ _ _ _ _ Scenario.s8_workflow); [reflexivity|].
  intros stepDef ->%list_elem_of_singleton. by vm_compute.
Qed.

(** ** Retries *)

Section Retry.
Context {W : Type}.
Implicit Types (stepDef : @StepDefinition W) (r : @Runtime W).

Lemma bind_ext {A B} (m : @M W A) (f g : A → @M W B) r :
  (∀ a r', f a r' = g a r') → (m ≫= f) r = (m ≫= g) r.
Proof. intros Hfg. unfold mbind, M_bind. by destruct (m r). Qed.

Lemma attemptLoop_RetryableErrors stepDef policy errors p stepInstID input n attempt
    lastErr inst r :
  attemptLoop (WithRetryPolicy (with_RetryableErrors errors policy) stepDef)
    (with_RetryableErrors errors policy) p stepInstID input n attempt lastErr inst r
  = attemptLoop (WithRetryPolicy policy stepDef) policy p stepInstID input n attempt
      lastErr inst r.
Proof.
  revert attempt lastErr inst r.
  induction n as [|n IH]; intros attempt lastErr inst r; [done|].
  cbn [attemptLoop].
  change (calculateRetryInterval (with_RetryableErrors errors policy) attempt)
    with (calculateRetryInterval policy attempt).
  apply bind_ext. intros inst1 r1.
  apply bind_ext. intros inst2 r2.
  apply bind_ext. intros startTime r3.
  apply bind_ext. intros res r4.
  apply bind_ext. intros endTime r5.
  destruct res as [output|err]; [done|]. apply IH.
Qed.

(** The outcome of [executeStep] does not depend on the list of retryable
    errors of the step's policy. *)
Lemma executeStep_RetryableErrors stepDef policy errors p inst stepInstMap r :
  executeStep (WithRetryPolicy (with_RetryableErrors errors policy) stepDef)
    p inst stepInstMap r
  = executeStep (WithRetryPolicy policy stepDef) p inst stepInstMap r.
Proof.
  unfold executeStep. destruct (deref inst p) as [stepInst|]; [|done].
  destruct (si_IsCompleted stepInst); [done|].
  cbn [sd_RetryPolicy WithRetryPolicy].
  change (prepareStepInput (WithRetryPolicy (with_RetryableErrors errors policy) stepDef))
    with (prepareStepInput (WithRetryPolicy policy stepDef)).
  change (rp_MaxAttempts (with_RetryableErrors errors policy)) with (rp_MaxAttempts policy).
  unfold mbind, M_bind.
  rewrite attemptLoop_RetryableErrors.
  destruct (attemptLoop _ _ _ _ _ _ _ _ _ _) as [[inst'|[[lastErr|] inst']] r'| |]; done.
Qed.

End Retry.

(** C3 on the code. The outcome of [executeStep] is the same whatever the
    list of retryable errors of the policy is: the list is never consulted.
    In particular, with a policy that allows three attempts and lists
    ["timeout"] as its only retryable pattern, and an executor that fails
    with "boom" every time, the executor is invoked three times, the step
    ends failed with a retry count of 2, and two sleeps were taken: the
    failure was retried although its message matches no entry of the
    list. *)
Theorem executeStep_ignores_RetryableErrors :
  (∀ (W : Type) (stepDef : @StepDefinition W) (policy : RetryPolicy)
     (errors : list string) (p : nat) (inst : WorkflowInstance)
     (stepInstMap : gmap string nat) (r : @Runtime W),
     executeStep (WithRetryPolicy (with_RetryableErrors errors policy) stepDef)
       p inst stepInstMap r
     = executeStep (WithRetryPolicy policy stepDef) p inst stepInstMap r)
  ∧ (∃ res err r,
       Scenario.gated_run = Val (Some res, Some err) r
       ∧ rp_RetryableErrors Scenario.gated_policy = ["timeout"]
       ∧ (rt_calls r).*1 = ["S"; "S"; "S"]
       ∧ length (rt_sleeps r) = 2%nat
       ∧ ((λ s, (si_Status s, si_Error s, si_RetryCount s))
            <$> wi_Steps (wr_WorkflowInst res))
         = [(StepStatusFailed, Some "boom", 2)]
       ∧ err = "step S failed after 3 attempts: boom").
Proof.
  split.
  - intros W stepDef policy errors p inst stepInstMap r.
    apply executeStep_RetryableErrors.
  - eexists _, _, _. split; [vm_compute; reflexivity|].
    split_and!; vm_compute; reflexivity.
Qed.

(** * Further properties *)

(** ** The in-memory store: saving and reading back *)

Lemma deepCopyEvent_id (e : WorkflowEvent) : deepCopyEvent e = e.
Proof.
  destruct e as [? ? [] ? ? ?]; unfold deepCopyEvent; simpl; by rewrite rangeAssign_empty.
Qed.

(** The values met by a range over a map, whatever its order, are the
    values of the map. *)
Lemma range_values {V} (m : gmap string V) (order : list string) :
  is_range_order m order → omap (λ k, m !! k) order ≡ₚ (map_to_list m).*2.
Proof.
  unfold is_range_order. intros ->.
  generalize (map_to_list m) (λ i x, proj1 (elem_of_map_to_list m i x)).
  intros l Hl. induction l as [|[k s] l IH]; simpl; [done|].
  rewrite (Hl k s) by apply list_elem_of_here. simpl. f_equiv.
  apply IH. intros i x Hin. apply Hl. by apply list_elem_of_further.
Qed.

(** [SaveWorkflow] then [GetWorkflow]: the instance saved is the instance
    read back under its identifier, whatever was stored there before; the
    other instances, the steps and the events are as they were, and the
    save reports no error. *)
Theorem SaveWorkflow_GetWorkflow (m : InMemoryStateManager) (w : WorkflowInstance) :
  (SaveWorkflow m w).1 = None
  ∧ GetWorkflow (SaveWorkflow m w).2 (wi_ID w) = inl w
  ∧ (∀ id, id ≠ wi_ID w → GetWorkflow (SaveWorkflow m w).2 id = GetWorkflow m id)
  ∧ steps (SaveWorkflow m w).2 = steps m
  ∧ events (SaveWorkflow m w).2 = events m.
Proof.
  unfold SaveWorkflow, GetWorkflow. simpl. split_and!; try done.
  - by rewrite lookup_insert_eq, !deepCopyWorkflow_id.
  - intros id Hid. by rewrite lookup_insert_ne.
Qed.

(** [SaveStep] then [GetStep], and [GetWorkflowSteps]: the step saved is
    read back under its identifier, it is among the steps listed for its
    workflow instance whatever the order of the map range, and the steps
    stored under other identifiers are as they were. *)
Theorem SaveStep_GetStep (m : InMemoryStateManager) (s : StepInstance)
    (order : list string) :
  is_range_order (steps (SaveStep m s).2) order →
  (SaveStep m s).1 = None
  ∧ GetStep (SaveStep m s).2 (si_ID s) = inl s
  ∧ (∀ id, id ≠ si_ID s → GetStep (SaveStep m s).2 id = GetStep m id)
  ∧ s ∈ (GetWorkflowSteps (SaveStep m s).2 order (si_WorkflowInstID s)).1
  ∧ workflows (SaveStep m s).2 = workflows m.
Proof.
  intros Hord. split_and!; try done.
  - unfold SaveStep, GetStep. simpl. by rewrite lookup_insert_eq, !deepCopyStep_id.
  - intros id Hid. unfold SaveStep, GetStep. simpl. by rewrite lookup_insert_ne.
  - rewrite (GetWorkflowSteps_members _ _ _ Hord).
    apply list_elem_of_filter. split; [done|].
    apply list_elem_of_fmap. exists (si_ID s, s). split; [done|].
    apply elem_of_map_to_list. unfold SaveStep. simpl.
    by rewrite lookup_insert_eq, deepCopyStep_id.
Qed.

Lemma SaveStep_GetStep_witness :
  GetStep (SaveStep Scenario.two_steps_store (Scenario.two_steps_step "third" 2)).2 "third"
  = inl (Scenario.two_steps_step "third" 2).
Proof.
  eapply (SaveStep_GetStep Scenario.two_steps_store (Scenario.two_steps_step "third" 2)
            ((map_to_list (steps (SaveStep Scenario.two_steps_store
                                    (Scenario.two_steps_step "third" 2)).2)).*1)).
  unfold is_range_order. reflexivity.
Defined.

(** ** The in-memory store: identifiers that are not stored *)

(** An update of a workflow instance reports an error exactly when no
    instance is stored under the identifier; the error is
    ["workflow not found: <id>"], as for [GetWorkflow], and the store is
    left as it was. *)
Theorem workflow_not_found (m : InMemoryStateManager) (now : nat) (id : string)
    (status : WorkflowStatus) (output : GoMap) (err : string) :
  (workflows m !! id = None →
     GetWorkflow m id = inr ("workflow not found: " +:+ id)
     ∧ UpdateWorkflowStatus now m id status = (Some ("workflow not found: " +:+ id), m)
     ∧ UpdateWorkflowOutput m id output = (Some ("workflow not found: " +:+ id), m)
     ∧ UpdateWorkflowError now m id err = (Some ("workflow not found: " +:+ id), m))
  ∧ (is_Some (workflows m !! id) →
     (∃ w, GetWorkflow m id = inl w)
     ∧ (UpdateWorkflowStatus now m id status).1 = None
     ∧ (UpdateWorkflowOutput m id output).1 = None
     ∧ (UpdateWorkflowError now m id err).1 = None).
Proof.
  unfold GetWorkflow, UpdateWorkflowStatus, UpdateWorkflowOutput, UpdateWorkflowError.
  split.
  - intros ->. done.
  - intros [w ->]. split_and!; [by eexists|done..].
Qed.

Lemma workflow_not_found_witness :
  UpdateWorkflowStatus 0 NewInMemoryStateManager "wf-1" WorkflowStatusRunning
  = (Some "workflow not found: wf-1", NewInMemoryStateManager).
Proof.
  apply (proj1 (workflow_not_found NewInMemoryStateManager 0 "wf-1"
                  WorkflowStatusRunning ∅ "")).
  reflexivity.
Defined.

(** The same for steps: ["step not found: <id>"], store untouched. *)
Theorem step_not_found (m : InMemoryStateManager) (now : nat) (id : string)
    (status : StepStatus) (output : GoMap) (err : string) :
  (steps m !! id = None →
     GetStep m id = inr ("step not found: " +:+ id)
     ∧ UpdateStepStatus now m id status = (Some ("step not found: " +:+ id), m)
     ∧ UpdateStepOutput m id output = (Some ("step not found: " +:+ id), m)
     ∧ UpdateStepError now m id err = (Some ("step not found: " +:+ id), m))
  ∧ (is_Some (steps m !! id) →
     (∃ s, GetStep m id = inl s)
     ∧ (UpdateStepStatus now m id status).1 = None
     ∧ (UpdateStepOutput m id output).1 = None
     ∧ (UpdateStepError now m id err).1 = None).
Proof.
  unfold GetStep, UpdateStepStatus, UpdateStepOutput, UpdateStepError.
  split.
  - intros ->. done.
  - intros [s ->]. split_and!; [by eexists|done..].
Qed.

Lemma step_not_found_witness :
  UpdateStepError 0 Scenario.two_steps_store "third" "boom"
  = (Some "step not found: third", Scenario.two_steps_store).
Proof.
  apply (proj1 (step_not_found Scenario.two_steps_store 0 "third" StepStatusRunning ∅ "boom")).
  reflexivity.
Defined.

(** ** The in-memory store: updates *)

(** [UpdateWorkflowStatus] on a stored instance: the instance read back has
    the new status; its completion time is the time of the update exactly
    when the new status is terminal ([IsCompleted]), and is otherwise what
    it was (an instance moved back to a running status keeps its old
    completion time); its error is kept; nothing else in the instance and
    no other instance changes. *)
Theorem UpdateWorkflowStatus_GetWorkflow (m : InMemoryStateManager) (now : nat)
    (id : string) (status : WorkflowStatus) (w : WorkflowInstance) :
  workflows m !! id = Some w →
  ∃ w',
    GetWorkflow (UpdateWorkflowStatus now m id status).2 id = inl w'
    ∧ wi_Status w' = status
    ∧ wi_CompletedAt w' = (if wi_IsCompleted w' then Some now else wi_CompletedAt w)
    ∧ wi_Error w' = wi_Error w
    ∧ wi_with_CompletedAt (wi_CompletedAt w) (wi_with_Status (wi_Status w) w') = w
    ∧ (∀ id', id' ≠ id →
         GetWorkflow (UpdateWorkflowStatus now m id status).2 id' = GetWorkflow m id').
Proof.
  intros Hw. unfold UpdateWorkflowStatus, GetWorkflow. rewrite Hw. simpl.
  rewrite lookup_insert_eq, deepCopyWorkflow_id. eexists. split; [reflexivity|].
  destruct w; destruct status; simpl; split_and!; try done;
    intros id' Hid; by rewrite lookup_insert_ne.
Qed.

Lemma UpdateWorkflowStatus_GetWorkflow_witness :
  ∃ w',
    GetWorkflow (UpdateWorkflowStatus 7 Scenario.s5_saved.(rt_stateManager) "wf-1"
                   WorkflowStatusCancelled).2 "wf-1" = inl w'
    ∧ wi_Status w' = WorkflowStatusCancelled
    ∧ wi_CompletedAt w' = Some 7%nat.
Proof.
  destruct (UpdateWorkflowStatus_GetWorkflow Scenario.s5_saved.(rt_stateManager) 7 "wf-1"
              WorkflowStatusCancelled Scenario.s5_instance eq_refl)
    as (w' & Hget & Hst & Hc & _).
  exists w'. split; [exact Hget|]. split; [exact Hst|].
  rewrite Hc. unfold wi_IsCompleted. rewrite Hst. reflexivity.
Defined.

(** [UpdateWorkflowError] records the message, forces the status to
    [failed] and stamps the completion time; a preceding
    [UpdateWorkflowStatus], whatever its status, leaves no trace: the pair
    of calls [executeWorkflow] makes on failure stores what
    [UpdateWorkflowError] alone stores. *)
Theorem UpdateWorkflowError_absorbs_status (m : InMemoryStateManager) (now now' : nat)
    (id : string) (status : WorkflowStatus) (err : string) :
  UpdateWorkflowError now' (UpdateWorkflowStatus now m id status).2 id err
  = UpdateWorkflowError now' m id err
  ∧ (∀ w, workflows m !! id = Some w →
       GetWorkflow (UpdateWorkflowError now' m id err).2 id
       = inl (wi_with_CompletedAt (Some now')
                (wi_with_Status WorkflowStatusFailed (wi_with_Error (Some err) w)))).
Proof.
  split.
  - unfold UpdateWorkflowError, UpdateWorkflowStatus.
    destruct (workflows m !! id) as [w|] eqn:Hw; simpl; [|by rewrite Hw].
    rewrite lookup_insert_eq. unfold store_with_workflows. simpl.
    rewrite insert_insert_eq. do 3 f_equal.
    destruct w; by destruct (_ || _).
  - intros w Hw. unfold UpdateWorkflowError, GetWorkflow. rewrite Hw. simpl.
    by rewrite lookup_insert_eq, deepCopyWorkflow_id.
Qed.

Lemma UpdateWorkflowError_absorbs_status_witness :
  ∃ w, GetWorkflow (UpdateWorkflowError 9 Scenario.s5_saved.(rt_stateManager) "wf-1"
                      "boom").2 "wf-1" = inl w
       ∧ wi_Status w = WorkflowStatusFailed ∧ wi_Error w = Some "boom".
Proof.
  eexists. split.
  - apply (proj2 (UpdateWorkflowError_absorbs_status Scenario.s5_saved.(rt_stateManager)
                    0 9 "wf-1" WorkflowStatusRunning "boom") Scenario.s5_instance).
    reflexivity.
  - split; reflexivity.
Defined.

(** [UpdateWorkflowOutput] and [UpdateStepOutput] replace the stored output
    by a copy of the map given: entries of the old output that the new map
    does not have are gone. *)
Theorem UpdateOutput_replaces (m : InMemoryStateManager) (id : string) (output : GoMap) :
  (∀ w, workflows m !! id = Some w →
     GetWorkflow (UpdateWorkflowOutput m id output).2 id = inl (wi_with_Output output w))
  ∧ (∀ s, steps m !! id = Some s →
     GetStep (UpdateStepOutput m id output).2 id = inl (si_with_Output output s)).
Proof.
  split.
  - intros w Hw. unfold UpdateWorkflowOutput, GetWorkflow. rewrite Hw. simpl.
    by rewrite lookup_insert_eq, deepCopyWorkflow_id, rangeAssign_empty.
  - intros s Hs. unfold UpdateStepOutput, GetStep. rewrite Hs. simpl.
    by rewrite lookup_insert_eq, deepCopyStep_id, rangeAssign_empty.
Qed.

Lemma UpdateOutput_replaces_witness :
  ∃ s, GetStep (UpdateStepOutput
                  (UpdateStepOutput Scenario.two_steps_store "first" {[ "a" := VInt 1 ]}).2
                  "first" {[ "b" := VInt 2 ]}).2 "first" = inl s
       ∧ si_Output s = {[ "b" := VInt 2 ]}.
Proof.
  eexists. split.
  - apply (proj2 (UpdateOutput_replaces
                    (UpdateStepOutput Scenario.two_steps_store "first" {[ "a" := VInt 1 ]}).2
                    "first" {[ "b" := VInt 2 ]})).
    reflexivity.
  - reflexivity.
Defined.

(** [UpdateStepStatus] on a stored step: the start time is stamped when the
    new status is [running] (again on every such update), the completion
    time when it is terminal ([IsCompleted]); [pending] and [retrying]
    stamp nothing; the error, the retry count and the output are kept. *)
Theorem UpdateStepStatus_GetStep (m : InMemoryStateManager) (now : nat)
    (id : string) (status : StepStatus) (s : StepInstance) :
  steps m !! id = Some s →
  ∃ s',
    GetStep (UpdateStepStatus now m id status).2 id = inl s'
    ∧ si_Status s' = status
    ∧ si_StartedAt s'
      = (if bool_decide (status = StepStatusRunning) then Some now else si_StartedAt s)
    ∧ si_CompletedAt s' = (if si_IsCompleted s' then Some now else si_CompletedAt s)
    ∧ si_with_StartedAt (si_StartedAt s)
        (si_with_CompletedAt (si_CompletedAt s) (si_with_Status (si_Status s) s')) = s
    ∧ (∀ id', id' ≠ id →
         GetStep (UpdateStepStatus now m id status).2 id' = GetStep m id').
Proof.
  intros Hs. unfold UpdateStepStatus, GetStep. rewrite Hs. simpl.
  rewrite lookup_insert_eq, deepCopyStep_id. eexists. split; [reflexivity|].
  destruct s; destruct status; simpl; split_and!; try done;
    intros id' Hid; by rewrite lookup_insert_ne.
Qed.

Lemma UpdateStepStatus_GetStep_witness :
  ∃ s', GetStep (UpdateStepStatus 5 Scenario.two_steps_store "first" StepStatusRetrying).2
          "first" = inl s'
        ∧ si_Status s' = StepStatusRetrying
        ∧ si_StartedAt s' = None ∧ si_CompletedAt s' = None.
Proof.
  destruct (UpdateStepStatus_GetStep Scenario.two_steps_store 5 "first" StepStatusRetrying
              (Scenario.two_steps_step "first" 0) eq_refl)
    as (s' & Hget & Hst & Hstart & Hc & _).
  exists s'. split; [exact Hget|]. split; [exact Hst|]. split.
  - rewrite Hstart. reflexivity.
  - rewrite Hc. unfold si_IsCompleted. rewrite Hst. reflexivity.
Defined.

(** ** The in-memory store: events and listing *)

Lemma GetWorkflowEvents_acc (m : InMemoryStateManager) (workflowInstID : string)
    (order : list string) (acc : list WorkflowEvent) :
  foldl (λ acc k,
           match events m !! k with
           | Some event =>
               if bool_decide (ev_WorkflowInstID event = workflowInstID)
               then acc ++ [deepCopyEvent event] else acc
           | None => acc
           end) acc order
  = acc ++ filter (λ event, ev_WorkflowInstID event = workflowInstID)
             (omap (λ k, events m !! k) order).
Proof.
  revert acc. induction order as [|k order IH]; intros acc; simpl.
  - by rewrite app_nil_r.
  - rewrite IH. destruct (events m !! k) as [event|]; [|done].
    rewrite filter_cons. case_bool_decide; case_decide; try done.
    by rewrite deepCopyEvent_id, <- app_assoc.
Qed.

(** Whatever order the runtime visits the map in, [GetWorkflowEvents]
    returns the stored events of the workflow instance, each once, and no
    other, without error; an event just saved for the instance is among
    them. *)
Theorem GetWorkflowEvents_members (m : InMemoryStateManager) (order : list string)
    (workflowInstID : string) :
  is_range_order (events m) order →
  (GetWorkflowEvents m order workflowInstID).2 = None
  ∧ (GetWorkflowEvents m order workflowInstID).1
    ≡ₚ filter (λ event, ev_WorkflowInstID event = workflowInstID) (map_to_list (events m)).*2
  ∧ (∀ m0 event, m = (SaveEvent m0 event).2 → ev_WorkflowInstID event = workflowInstID →
       event ∈ (GetWorkflowEvents m order workflowInstID).1).
Proof.
  intros Hord.
  assert (Hperm : (GetWorkflowEvents m order workflowInstID).1
    ≡ₚ filter (λ event, ev_WorkflowInstID event = workflowInstID)
         (map_to_list (events m)).*2).
  { unfold GetWorkflowEvents. simpl. rewrite GetWorkflowEvents_acc. simpl.
    apply filter_Permutation. by apply range_values. }
  split_and!; [done|done|].
  intros m0 event -> Hid. rewrite Hperm.
  apply list_elem_of_filter. split; [done|].
  apply list_elem_of_fmap. exists (ev_ID event, event). split; [done|].
  apply elem_of_map_to_list. unfold SaveEvent. simpl.
  by rewrite lookup_insert_eq, deepCopyEvent_id.
Qed.

Lemma GetWorkflowEvents_members_witness :
  mkWorkflowEvent "e1" "wf-1" None "workflow.started" ∅ 0
  ∈ (GetWorkflowEvents
       (SaveEvent NewInMemoryStateManager
          (mkWorkflowEvent "e1" "wf-1" None "workflow.started" ∅ 0)).2
       ["e1"] "wf-1").1.
Proof.
  eapply (GetWorkflowEvents_members _ ["e1"] "wf-1").
  - unfold is_range_order. reflexivity.
  - reflexivity.
  - reflexivity.
Defined.

Lemma filterLoop_true (workflow : WorkflowInstance) (entries : list (string * FilterValue)) :
  filterLoop workflow entries = true
  ↔ ∀ key value, (key, value) ∈ entries → filterFails workflow key value = false.
Proof.
  induction entries as [|[k v] l IH]; simpl.
  { split; [|done]. intros _ key value Hin. by apply elem_of_nil in Hin. }
  destruct (filterFails workflow k v) eqn:Hf.
  - split; [done|]. intros H. rewrite (H k v) in Hf; [done|apply list_elem_of_here].
  - rewrite IH. split.
    + intros H key value [[= -> ->]|Hin]%elem_of_cons; [done|by apply H].
    + intros H key value Hin. apply H. by apply list_elem_of_further.
Qed.

(** The filter loop computes the conjunction of the filters, whatever the
    order of the range over the filter map. *)
Lemma filterLoop_passes (filters : gmap string FilterValue)
    (filter_order : list (string * FilterValue)) (workflow : WorkflowInstance) :
  filter_order ≡ₚ map_to_list filters →
  filterLoop workflow filter_order = true ↔ passes filters workflow.
Proof.
  intros Hp. rewrite filterLoop_true. unfold passes, map_Forall.
  split.
  - intros H key value Hkv. apply H. rewrite Hp. by apply elem_of_map_to_list.
  - intros H key value Hin. apply H. rewrite Hp in Hin. by apply elem_of_map_to_list.
Qed.

Lemma listMatches_acc (m : InMemoryStateManager) (filter_order : list (string * FilterValue))
    (order : list string) (acc : list WorkflowInstance) :
  foldl (λ results k,
           match workflows m !! k with
           | Some workflow =>
               if filterLoop workflow filter_order
               then results ++ [deepCopyWorkflow workflow] else results
           | None => results
           end) acc order
  = acc ++ filter (λ workflow, filterLoop workflow filter_order = true)
             (omap (λ k, workflows m !! k) order).
Proof.
  revert acc. induction order as [|k order IH]; intros acc; simpl.
  - by rewrite app_nil_r.
  - rewrite IH. destruct (workflows m !! k) as [w|]; [|done].
    rewrite filter_cons. destruct (filterLoop w filter_order) eqn:Hf; case_decide; try done.
    by rewrite deepCopyWorkflow_id, <- app_assoc.
Qed.

(** The workflows [ListWorkflows] selects are the stored instances that
    pass every filter, each once, whatever the orders of the two map
    ranges. *)
Lemma listMatches_members (m : InMemoryStateManager) (range_order : list string)
    (filters : gmap string FilterValue) (filter_order : list (string * FilterValue)) :
  is_range_order (workflows m) range_order →
  filter_order ≡ₚ map_to_list filters →
  listMatches m range_order filter_order
  ≡ₚ filter (passes filters) (map_to_list (workflows m)).*2.
Proof.
  intros Hord Hfo. unfold listMatches. rewrite listMatches_acc. simpl.
  rewrite (range_values _ _ Hord).
  induction ((map_to_list (workflows m)).*2) as [|w l IH]; [done|].
  rewrite !filter_cons.
  pose proof (filterLoop_passes filters filter_order w Hfo) as Hiff.
  destruct (decide (filterLoop w filter_order = true)) as [Ht|Hf];
    destruct (decide (passes filters w)) as [Hp|Hn]; try tauto.
  by f_equiv.
Qed.

Lemma wrap64_id (z : Z) : - 2 ^ 63 <= z < 2 ^ 63 → wrap64 z = z.
Proof. intros Hz. unfold wrap64. rewrite Z.mod_small; lia. Qed.

(** [ListWorkflows] with a non-negative offset and limit (whose sum fits an
    [int]): the total is the number of stored instances that pass every
    filter, whatever the page asked for; the page is made of the [limit]
    matches that follow the first [offset] ones, in the order of the map
    range, fewer when the matches run out; no error is reported. *)
Theorem ListWorkflows_page (m : InMemoryStateManager) (range_order : list string)
    (filters : gmap string FilterValue) (filter_order : list (string * FilterValue))
    (limit offset : Z) :
  is_range_order (workflows m) range_order →
  filter_order ≡ₚ map_to_list filters →
  0 <= offset → 0 <= limit → offset + limit < 2 ^ 63 →
  ∃ matches,
    matches ≡ₚ filter (passes filters) (map_to_list (workflows m)).*2
    ∧ ListWorkflows m range_order filter_order limit offset
      = Some (take (Z.to_nat limit) (drop (Z.to_nat offset) matches),
              Z.of_nat (length matches), None).
Proof.
  intros Hord Hfo Hoff Hlim Hsum.
  exists (listMatches m range_order filter_order).
  split; [by apply listMatches_members|].
  unfold ListWorkflows. cbv zeta.
  set (matches := listMatches m range_order filter_order).
  case_bool_decide as Hge.
  { rewrite drop_ge by lia. by rewrite take_nil. }
  rewrite wrap64_id by lia.
  unfold slice.
  destruct (decide (offset + limit > Z.of_nat (length matches))) as [Hend|Hend].
  - rewrite (bool_decide_true (offset + limit > _)) by done.
    rewrite bool_decide_true by lia. simpl. do 3 f_equal.
    rewrite take_ge; [|rewrite length_drop; lia].
    symmetry. apply take_ge. rewrite length_drop. lia.
  - rewrite (bool_decide_false (offset + limit > _)) by done.
    rewrite bool_decide_true by lia. simpl. do 4 f_equal. lia.
Qed.

Lemma ListWorkflows_page_witness :
  ∃ matches,
    matches ≡ₚ filter (passes Examples.w1_filter)
                 (map_to_list (workflows Examples.three_workflows)).*2
    ∧ ListWorkflows Examples.three_workflows Examples.three_order
        (map_to_list Examples.w1_filter) 1 1
      = Some (take 1 (drop 1 matches), Z.of_nat (length matches), None).
Proof.
  apply (ListWorkflows_page Examples.three_workflows Examples.three_order
           Examples.w1_filter (map_to_list Examples.w1_filter) 1 1).
  - unfold is_range_order. reflexivity.
  - reflexivity.
  - lia.
  - lia.
  - lia.
Defined.

(** What the filters of [ListWorkflows] mean. A ["status"] filter selects
    the instances of that status when its value is a [WorkflowStatus], and
    no instance at all when its value is of another type, a plain string
    included; the string filters select on equality with a string value;
    a filter under any other key selects everything. *)
Theorem ListWorkflows_filters (workflow : WorkflowInstance) :
  (∀ status, passes {[ "status" := FStatus status ]} workflow ↔ wi_Status workflow = status)
  ∧ (∀ v, ¬ passes {[ "status" := FPlain v ]} workflow)
  ∧ (∀ s, passes {[ "workflow_id" := FPlain (VStr s) ]} workflow
          ↔ wi_WorkflowID workflow = s)
  ∧ (∀ s, passes {[ "trace_id" := FPlain (VStr s) ]} workflow ↔ wi_TraceID workflow = s)
  ∧ (∀ s, passes {[ "correlation_id" := FPlain (VStr s) ]} workflow
          ↔ wi_CorrelationID workflow = s)
  ∧ (∀ s, passes {[ "business_id" := FPlain (VStr s) ]} workflow
          ↔ wi_BusinessID workflow = s)
  ∧ (∀ key value,
       key ∉ ["workflow_id"; "status"; "trace_id"; "correlation_id"; "business_id"] →
       passes {[ key := value ]} workflow)
  ∧ (∀ filters filters', passes (filters ∪ filters') workflow →
       passes filters workflow).
Proof.
  unfold passes.
  assert (Hs : ∀ key value,
    map_Forall (λ k v, filterFails workflow k v = false) ({[ key := value ]} : gmap _ _)
    ↔ filterFails workflow key value = false).
  { intros key value. apply (map_Forall_singleton (λ k v, filterFails workflow k v = false)). }
  split_and!.
  - intros status. rewrite Hs. unfold filterFails. simpl.
    rewrite negb_false_iff, bool_decide_eq_true. done.
  - intros v. rewrite Hs. unfold filterFails. simpl. done.
  - intros s. rewrite Hs. unfold filterFails. simpl.
    rewrite negb_false_iff, bool_decide_eq_true. done.
  - intros s. rewrite Hs. unfold filterFails. simpl.
    rewrite negb_false_iff, bool_decide_eq_true. done.
  - intros s. rewrite Hs. unfold filterFails. simpl.
    rewrite negb_false_iff, bool_decide_eq_true. done.
  - intros s. rewrite Hs. unfold filterFails. simpl.
    rewrite negb_false_iff, bool_decide_eq_true. done.
  - intros key value Hkey. rewrite Hs. unfold filterFails.
    repeat (rewrite bool_decide_false; [|intros ->; apply Hkey; set_solver]).
    done.
  - intros filters filters' H key value Hkv. apply (H key value).
    by apply lookup_union_Some_l.
Qed.

Lemma ListWorkflows_filters_witness :
  passes {[ "page" := FPlain (VInt 3) ]} (Examples.listed "a" "W1" WorkflowStatusCompleted).
Proof.
  apply (ListWorkflows_filters (Examples.listed "a" "W1" WorkflowStatusCompleted)).
  intros Hin. repeat (apply elem_of_cons in Hin as [Hin|Hin]; [discriminate Hin|]).
  by apply elem_of_nil in Hin.
Defined.

(** The bounds of [ListWorkflows]. An offset at or past the number of
    matches gives an empty page, whatever the limit. A negative offset
    makes the slice expression panic, and so does a negative limit when the
    offset is within the matches. *)
Theorem ListWorkflows_bounds (m : InMemoryStateManager) (range_order : list string)
    (filter_order : list (string * FilterValue)) (limit offset : Z) :
  let total := Z.of_nat (length (listMatches m range_order filter_order)) in
  (total <= offset →
     ListWorkflows m range_order filter_order limit offset = Some ([], total, None))
  ∧ (offset < 0 → ListWorkflows m range_order filter_order limit offset = None)
  ∧ (0 <= offset < total → - 2 ^ 63 <= limit < 0 → offset < 2 ^ 63 →
     ListWorkflows m range_order filter_order limit offset = None).
Proof.
  intros total. unfold ListWorkflows. cbv zeta. fold total. split_and!.
  - intros Hge. by rewrite bool_decide_true by lia.
  - intros Hneg. rewrite bool_decide_false by lia.
    unfold slice. rewrite (bool_decide_false (0 <= offset ∧ _)) by lia. done.
  - intros Hoff Hlim Hmax. rewrite bool_decide_false by lia.
    rewrite wrap64_id by lia.
    rewrite (bool_decide_false (offset + limit > total)) by lia.
    unfold slice. rewrite bool_decide_false by lia. done.
Qed.

Lemma ListWorkflows_bounds_witness :
  ListWorkflows Examples.three_workflows Examples.three_order [] 10 (-1) = None
  ∧ ListWorkflows Examples.three_workflows Examples.three_order [] (-1) 1 = None
  ∧ ListWorkflows Examples.three_workflows Examples.three_order [] 10 3 = Some ([], 3, None).
Proof.
  split_and!.
  - destruct (ListWorkflows_bounds Examples.three_workflows Examples.three_order [] 10 (-1))
      as (_ & H & _).
    apply H. lia.
  - destruct (ListWorkflows_bounds Examples.three_workflows Examples.three_order [] (-1) 1)
      as (_ & _ & H).
    apply H; [vm_compute; split; [discriminate|reflexivity]|lia|lia].
  - destruct (ListWorkflows_bounds Examples.three_workflows Examples.three_order [] 10 3)
      as (H & _).
    apply H. vm_compute. discriminate.
Defined.

Lemma omap_reverse {A B} (f : A → option B) (l : list A) :
  omap f (reverse l) = reverse (omap f l).
Proof.
  induction l as [|x l IH]; [done|].
  rewrite reverse_cons, omap_app, IH. simpl.
  destruct (f x); simpl; [by rewrite reverse_cons|by rewrite app_nil_r].
Qed.

Lemma listMatches_reverse (m : InMemoryStateManager) (range_order : list string)
    (filter_order : list (string * FilterValue)) :
  listMatches m (reverse range_order) filter_order
  = reverse (listMatches m range_order filter_order).
Proof.
  unfold listMatches. rewrite !listMatches_acc.
  by rewrite !app_nil_l, omap_reverse, filter_reverse.
Qed.

(** The listing follows the order of the map range, which Go leaves
    unspecified: when the map is visited in the reverse order, the first
    page of size one is what was the last page. Two calls that page through
    the store can therefore return the same instance twice. *)
Theorem ListWorkflows_order (m : InMemoryStateManager) (range_order : list string)
    (filter_order : list (string * FilterValue)) (page : list WorkflowInstance)
    (total : Z) :
  is_range_order (workflows m) range_order →
  ListWorkflows m range_order filter_order 1 0 = Some (page, total, None) →
  1 <= total < 2 ^ 63 →
  is_range_order (workflows m) (reverse range_order)
  ∧ ListWorkflows m (reverse range_order) filter_order 1 (total - 1)
    = Some (page, total, None).
Proof.
  intros Hord Hrun Htotal. split.
  { unfold is_range_order in *. by rewrite reverse_Permutation. }
  revert Hrun. unfold ListWorkflows. cbv zeta.
  rewrite listMatches_reverse, length_reverse.
  destruct (listMatches m range_order filter_order) as [|x matches'].
  { rewrite bool_decide_true by (simpl; lia). intros [= <- <-]. lia. }
  assert (Hlen : Z.of_nat (length (x :: matches')) = 1 + Z.of_nat (length matches'))
    by (cbn [length]; lia).
  rewrite Hlen.
  rewrite bool_decide_false by lia.
  rewrite wrap64_id by lia.
  rewrite (bool_decide_false (0 + 1 > _)) by lia.
  unfold slice. rewrite Hlen.
  rewrite bool_decide_true by lia. simpl. intros [= <- <-].
  rewrite bool_decide_false by lia.
  rewrite wrap64_id by lia.
  rewrite (bool_decide_false (_ > _)) by lia.
  rewrite length_reverse, Hlen.
  rewrite bool_decide_true by lia. simpl. do 3 f_equal.
  replace (Z.to_nat (1 + Z.of_nat (length matches') - 1 + 1
                     - (1 + Z.of_nat (length matches') - 1))) with 1%nat by lia.
  replace (Z.to_nat (1 + Z.of_nat (length matches') - 1))
    with (length (reverse matches')) by (rewrite length_reverse; lia).
  rewrite reverse_cons, drop_app_length. done.
Qed.

Lemma ListWorkflows_order_witness :
  ∃ page,
    ListWorkflows Examples.three_workflows Examples.three_order [] 1 0
    = Some (page, 3, None)
    ∧ ListWorkflows Examples.three_workflows (reverse Examples.three_order) [] 1 2
      = Some (page, 3, None).
Proof.
  eexists. split; [vm_compute; reflexivity|].
  eapply (ListWorkflows_order Examples.three_workflows Examples.three_order [] _ 3).
  - unfold is_range_order. reflexivity.
  - vm_compute. reflexivity.
  - lia.
Defined.

(** ** The map comparison of the tests *)

Lemma iface_ne_scalar x v :
  scalar v → ∃ res, iface_ne x v = Some res ∧ (res = false ↔ x = v).
Proof.
  intros Hv.
  destruct v as [|b|z|s|m]; try done; destruct x as [|b'|z'|s'|m'];
    simpl; try (by exists true; split; [|split]);
    eexists; (split; [reflexivity|]);
    case_bool_decide; simpl; split; congruence.
Qed.

Lemma mapsEqualLoop_scalar (a b : GoMap) keys :
  map_Forall (λ _ v, scalar v) a →
  ∃ res, mapsEqualLoop a b keys = Some res
         ∧ (res = true ↔ ∀ k v, k ∈ keys → a !! k = Some v → b !! k = Some v).
Proof.
  intros Ha. induction keys as [|k keys IH]; simpl.
  { exists true. split; [done|]. split; [|done]. intros _ k v Hk. by apply elem_of_nil in Hk. }
  destruct IH as (res & Hloop & Hres).
  destruct (a !! k) as [v|] eqn:Hk.
  - destruct (iface_ne_scalar (default VNil (b !! k)) v) as (ne & -> & Hne);
      [by apply (Ha k)|].
    destruct ne.
    + exists false. split; [done|]. split; [done|]. intros Hall.
      specialize (Hall k v (list_elem_of_here _ _) Hk).
      rewrite Hall in Hne. simpl in Hne. by destruct Hne as [_ ->].
    + exists res. split; [done|]. rewrite Hres. split.
      * intros Hall k' v' Hin Hk'. apply elem_of_cons in Hin as [->|Hin]; [|by apply Hall].
        destruct Hne as [Hne _]. specialize (Hne eq_refl).
        rewrite Hk in Hk'. injection Hk' as <-.
        destruct (b !! k) as [w|]; simpl in Hne; [by subst|].
        specialize (Ha k v Hk). by subst v.
      * intros Hall k' v' Hin. apply Hall. by right.
  - exists res. split; [done|]. rewrite Hres. split.
    + intros Hall k' v' Hin Hk'. apply elem_of_cons in Hin as [->|Hin]; [congruence|].
      by apply Hall.
    + intros Hall k' v' Hin. apply Hall. by right.
Qed.

(** On maps whose values are nil, booleans, integers, strings or maps (the
    values modelled here), [mapsEqual] decides equality when every value of
    the first map is a boolean, an integer or a string: it does not panic,
    in whatever order the keys are visited, and it returns true exactly
    when the two maps are equal. With a nil value it does not: a nil value
    stands for a missing key, so that two maps with different keys compare
    equal. *)
Theorem mapsEqual_scalar (a b : GoMap) range_order :
  is_range_order a range_order →
  map_Forall (λ _ v, scalar v) a →
  (∃ res, mapsEqual a b range_order = Some res ∧ (res = true ↔ a = b))
  ∧ (∀ (k1 k2 : string) v, k1 ≠ k2 →
       mapsEqual {[ k1 := VNil ]} {[ k2 := v ]} [k1] = Some true).
Proof.
  intros Hord Ha. split.
  - unfold mapsEqual. case_bool_decide as Hsize.
    { exists false. split; [done|]. split; [done|]. intros ->. done. }
    destruct (mapsEqualLoop_scalar a b range_order Ha) as (res & -> & Hres).
    exists res. split; [done|]. rewrite Hres. split.
    + intros Hall.
      assert (Hsub : a ⊆ b).
      { apply map_subseteq_spec. intros k v Hk. apply (Hall k v); [|done].
        unfold is_range_order in Hord. rewrite Hord.
        apply list_elem_of_fmap. exists (k, v). split; [done|].
        by apply elem_of_map_to_list. }
      apply map_eq. intros k.
      destruct (a !! k) as [v|] eqn:Hk.
      { symmetry. by apply (lookup_weaken a b). }
      destruct (b !! k) as [w|] eqn:Hk'; [exfalso|done].
      assert (Hlt : a ⊂ b).
      { split; [done|]. intros Hsub'.
        pose proof (lookup_weaken b a k w Hk' Hsub'). congruence. }
      apply map_subset_size in Hlt. lia.
    + intros -> k v _ Hk. done.
  - intros k1 k2 v Hne. unfold mapsEqual.
    rewrite bool_decide_false by (rewrite !map_size_singleton; auto).
    simpl. rewrite lookup_singleton_eq. by rewrite lookup_singleton_ne.
Qed.

Lemma mapsEqual_scalar_witness :
  ∃ res, mapsEqual {[ "x" := VInt 42 ]} {[ "x" := VInt 42 ]} ["x"] = Some res
         ∧ (res = true ↔ ({[ "x" := VInt 42 ]} : GoMap) = {[ "x" := VInt 42 ]}).
Proof.
  destruct (mapsEqual_scalar {[ "x" := VInt 42 ]} {[ "x" := VInt 42 ]} ["x"]) as [H _].
  - unfold is_range_order. by rewrite map_to_list_singleton.
  - by apply map_Forall_singleton.
  - exact H.
Defined.

(** ** The attempts of a step *)

Section Attempts.
Context {W : Type}.
Implicit Types (stepDef : @StepDefinition W) (r : @Runtime W).

Lemma quiet_refl r : quiet r r.
Proof. done. Qed.

Lemma quiet_trans r1 r2 r3 : quiet r1 r2 → quiet r2 r3 → quiet r1 r3.
Proof. intros (?&?&?&?) (?&?&?&?). split_and!; congruence. Qed.

Lemma wp_quiet {A B} (m : @M W A) (f : A → @M W B) (Q : B → @Runtime W → Prop) r :
  quiet_op m → (∀ a r', quiet r r' → wp (f a) Q r') → wp (m ≫= f) Q r.
Proof.
  intros Hm Hf. apply wp_bind. eapply wp_mono; [|apply Hm]. done.
Qed.

Lemma quiet_time_Now : quiet_op (@time_Now W).
Proof. by intros r. Qed.

Lemma quiet_uuid_New : quiet_op (@uuid_New W).
Proof. by intros r. Qed.

Lemma quiet_store_op op : quiet_op (@store_op W op).
Proof. intros r. unfold wp, store_op. by destruct (op _). Qed.

Lemma quiet_bind {A B} (m : @M W A) (f : A → @M W B) :
  quiet_op m → (∀ a, quiet_op (f a)) → quiet_op (m ≫= f).
Proof.
  intros Hm Hf r. apply wp_quiet; [done|]. intros a r' Hq.
  eapply wp_mono; [|apply Hf]. intros b r'' Hq'. by eapply quiet_trans.
Qed.

Lemma quiet_ret {A} (a : A) : quiet_op (mret a : @M W A).
Proof. by intros r. Qed.

Lemma quiet_emitEvent workflowInstID stepInstID eventType data :
  quiet_op (@emitEvent W workflowInstID stepInstID eventType data).
Proof.
  unfold emitEvent.
  repeat first [apply quiet_ret | apply quiet_bind; [first [apply quiet_uuid_New
    |apply quiet_time_Now|apply quiet_store_op]|intros ?]].
Qed.

Lemma quiet_sm_UpdateStepStatus stepInstID status :
  quiet_op (@sm_UpdateStepStatus W stepInstID status).
Proof.
  unfold sm_UpdateStepStatus.
  repeat first [apply quiet_ret | apply quiet_bind; [first [apply quiet_uuid_New
    |apply quiet_time_Now|apply quiet_store_op]|intros ?]].
Qed.

Lemma quiet_sm_UpdateStepOutput stepInstID output :
  quiet_op (@sm_UpdateStepOutput W stepInstID output).
Proof.
  unfold sm_UpdateStepOutput.
  repeat first [apply quiet_ret | apply quiet_bind; [first [apply quiet_uuid_New
    |apply quiet_time_Now|apply quiet_store_op]|intros ?]].
Qed.

Lemma quiet_sm_UpdateStepError stepInstID err :
  quiet_op (@sm_UpdateStepError W stepInstID err).
Proof.
  unfold sm_UpdateStepError.
  repeat first [apply quiet_ret | apply quiet_bind; [first [apply quiet_uuid_New
    |apply quiet_time_Now|apply quiet_store_op]|intros ?]].
Qed.


Lemma wp_logged_quiet {A B} (m : @M W A) (f : A → @M W B) (Q : B → @Runtime W → Prop)
    calls sleeps r :
  quiet_op m → logged calls sleeps r →
  (∀ a r', logged calls sleeps r' → wp (f a) Q r') → wp (m ≫= f) Q r.
Proof.
  intros Hm [Hc Hs] Hf. apply wp_quiet; [done|].
  intros a r' (Hc' & Hs' & _). apply Hf. split; congruence.
Qed.

Lemma wp_logged_Sleep {B} d (f : unit → @M W B) (Q : B → @Runtime W → Prop)
    calls sleeps r :
  logged calls sleeps r →
  (∀ r', logged calls (sleeps ++ [d]) r' → wp (f tt) Q r') → wp (time_Sleep d ≫= f) Q r.
Proof. intros [Hc Hs] Hf. apply Hf. split; simpl; congruence. Qed.

Lemma wp_logged_callExecutor {B} stepDef input (f : ExecResult → @M W B)
    (Q : B → @Runtime W → Prop) calls sleeps r :
  logged calls sleeps r →
  (∀ res r', logged (calls ++ [(sd_ID stepDef, input)]) sleeps r' → wp (f res) Q r') →
  wp (callExecutor stepDef input ≫= f) Q r.
Proof.
  intros [Hc Hs] Hf. unfold wp, mbind, M_bind, callExecutor.
  destruct (sd_Executor stepDef (rt_world r) input) as [res w].
  apply Hf. split; simpl; congruence.
Qed.

Lemma deref_assign p (f : StepInstance → StepInstance) inst :
  deref (assign p f inst) p = f <$> deref inst p.
Proof. unfold deref, assign. simpl. by rewrite list_lookup_alter_eq. Qed.

Lemma deref_mergeStepOutput inst stepID output p :
  deref (mergeStepOutput inst stepID output) p = deref inst p.
Proof. done. Qed.

(** One quiet step of symbolic execution from a runtime with the log [H]. *)
Ltac qstep r H :=
  eapply wp_logged_quiet;
  [ first [ apply quiet_time_Now | apply quiet_emitEvent
          | apply quiet_sm_UpdateStepStatus | apply quiet_sm_UpdateStepOutput
          | apply quiet_sm_UpdateStepError ]
  | exact H
  | clear r H; intros ? r H ].

(** The attempts from the second on: [k] iterations are left and the next
    is attempt [a]. Every iteration sleeps, records the retry and calls the
    executor once; the loop stops at the first success. *)
Lemma attemptLoop_schedule stepDef policy p id input k a lastErr inst c s r s0 :
  1 <= a → deref inst p = Some s0 → logged c s r →
  wp (attemptLoop stepDef policy p id input k a lastErr inst)
    (λ out r', ∃ j : nat,
       (j ≤ k)%nat
       ∧ logged (c ++ replicate j (sd_ID stepDef, input))
           (s ++ ((λ i, calculateRetryInterval policy (a + Z.of_nat i)) <$> seq 0 j)) r'
       ∧ match out with
         | inl inst' =>
             (1 ≤ j)%nat
             ∧ ∃ s', deref inst' p = Some s'
                     ∧ si_Status s' = StepStatusCompleted
                     ∧ si_RetryCount s' = a + Z.of_nat j - 1
         | inr (le, inst') =>
             j = k
             ∧ match k with
               | O => le = lastErr ∧ inst' = inst
               | S _ => is_Some le
                        ∧ ∃ s', deref inst' p = Some s'
                                ∧ si_RetryCount s' = a + Z.of_nat k - 1
               end
         end) r.
Proof.
  revert a lastErr inst c s r s0.
  induction k as [|k IH]; intros a lastErr inst c s r s0 Ha Hp Hlog.
  { apply wp_ret. exists 0%nat. simpl. rewrite !app_nil_r. done. }
  cbn [attemptLoop].
  rewrite (bool_decide_true (a > 0)) by lia.
  rewrite (bool_decide_false (a = 0)) by lia.
  apply wp_bind.
  eapply wp_logged_Sleep; [exact Hlog|]. clear r Hlog. intros r Hlog.
  do 3 qstep r Hlog.
  apply wp_ret, wp_bind, wp_ret.
  qstep r Hlog.
  eapply wp_logged_callExecutor; [exact Hlog|]. clear r Hlog. intros res r Hlog.
  qstep r Hlog.
  destruct res as [output|err].
  - do 4 qstep r Hlog.
    apply wp_ret. exists 1%nat. split; [lia|]. split.
    { simpl. by rewrite Z.add_0_r. }
    split; [done|].
    rewrite deref_mergeStepOutput, !deref_assign, Hp. simpl.
    eexists. split; [reflexivity|]. split; [done|]. simpl. lia.
  - eapply wp_mono; [|eapply (IH (a + 1)); [lia| |exact Hlog]].
    2:{ rewrite !deref_assign, Hp. simpl. reflexivity. }
    intros out r' (j & Hj & Hlog' & Hout).
    exists (S j). split; [lia|]. split.
    { replace (c ++ replicate (S j) (sd_ID stepDef, input))
        with ((c ++ [(sd_ID stepDef, input)]) ++ replicate j (sd_ID stepDef, input))
        by (by rewrite <- app_assoc).
      replace (s ++ ((λ i, calculateRetryInterval policy (a + Z.of_nat i)) <$> seq 0 (S j)))
        with ((s ++ [calculateRetryInterval policy a])
              ++ ((λ i, calculateRetryInterval policy (a + 1 + Z.of_nat i)) <$> seq 0 j));
        [done|].
      rewrite <- app_assoc. f_equal. simpl. rewrite Z.add_0_r. f_equal.
      rewrite <- fmap_S_seq, <- list_fmap_compose. apply list_fmap_ext.
      intros i x _. simpl. f_equal. lia. }
    destruct out as [inst'|[le inst']].
    + destruct Hout as (Hj1 & s' & Hs' & Hst & Hrc). split; [lia|].
      exists s'. split_and!; [done|done|lia].
    + destruct Hout as (-> & Hk). split; [done|].
      destruct k as [|k'].
      * destruct Hk as [-> ->]. split; [by eexists|].
        rewrite !deref_assign, Hp. simpl. eexists. split; [reflexivity|]. simpl. lia.
      * destruct Hk as (Hle & s' & Hs' & Hrc). split; [done|].
        exists s'. split; [done|]. lia.
Qed.


Lemma maxAttempts_effectivePolicy stepDef :
  maxAttempts stepDef = rp_MaxAttempts (effectivePolicy stepDef).
Proof. unfold maxAttempts, effectivePolicy. by destruct (sd_RetryPolicy stepDef). Qed.

Lemma retrySleeps_S policy (j : nat) :
  retrySleeps policy (S j)
  = (λ i, calculateRetryInterval policy (1 + Z.of_nat i)) <$> seq 0 j.
Proof.
  unfold retrySleeps. replace (S j - 1)%nat with j by lia.
  rewrite <- fmap_S_seq, <- list_fmap_compose. apply list_fmap_ext.
  intros i x _. simpl. f_equal. lia.
Qed.

Lemma executeStep_attempts_wp stepDef p inst stepInstMap stepInst c s r :
  deref inst p = Some stepInst → si_IsCompleted stepInst = false →
  logged c s r →
  wp (executeStep stepDef p inst stepInstMap)
     (executeStep_attempts_post stepDef p (prepareStepInput stepDef inst stepInstMap)
        stepInst c s) r.
Proof.
  intros Hp Hterm Hlog. unfold executeStep. rewrite Hp, Hterm.
  fold (effectivePolicy stepDef).
  set (input := prepareStepInput stepDef inst stepInstMap).
  set (policy := effectivePolicy stepDef).
  pose proof (maxAttempts_effectivePolicy stepDef) as Hmax. fold policy in Hmax.
  destruct (Z.to_nat (rp_MaxAttempts policy)) as [|k] eqn:HN.
  { done. }
  assert (HNz : rp_MaxAttempts policy = Z.of_nat (S k)) by lia.
  cbn [attemptLoop].
  rewrite (bool_decide_false (0 > 0)) by lia.
  rewrite (bool_decide_true (0 = 0)) by lia.
  apply wp_bind, wp_bind, wp_ret, wp_bind.
  do 3 qstep r Hlog.
  apply wp_ret.
  qstep r Hlog.
  eapply wp_logged_callExecutor; [exact Hlog|]. clear r Hlog. intros res r Hlog.
  qstep r Hlog.
  destruct res as [output|err].
  - do 4 qstep r Hlog.
    apply wp_ret, wp_ret. exists 1%nat. split; [lia|]. split.
    { unfold retrySleeps. simpl. by rewrite app_nil_r. }
    split; [by intros [? [=]]|].
    simpl. rewrite deref_mergeStepOutput, !deref_assign, Hp. simpl.
    eexists. split; [reflexivity|]. done.
  - eapply wp_mono; [|eapply (attemptLoop_schedule _ _ _ _ _ _ 1); [lia| |exact Hlog]].
    2:{ rewrite !deref_assign, Hp. simpl. reflexivity. }
    clear r Hlog. intros out r (j & Hj & Hlog & Hout).
    assert (Hlog' : logged (c ++ replicate (S j) (sd_ID stepDef, input))
                      (s ++ retrySleeps policy (S j)) r).
    { rewrite retrySleeps_S.
      replace (c ++ replicate (S j) (sd_ID stepDef, input))
        with ((c ++ [(sd_ID stepDef, input)]) ++ replicate j (sd_ID stepDef, input))
        by (by rewrite <- app_assoc).
      done. }
    clear Hlog.
    destruct out as [inst'|[le inst']].
    + destruct Hout as (Hj1 & s' & Hs' & Hst & Hrc).
      apply wp_ret. exists (S j). split; [lia|]. split; [done|].
      split; [by intros [? [=]]|].
      exists s'. simpl. split_and!; [done|done|].
      rewrite bool_decide_false by lia. lia.
    + destruct Hout as (-> & Hk).
      assert (Hfin : ∃ e s', le = Some e ∧ deref inst' p = Some s'
                ∧ si_RetryCount s'
                  = (if bool_decide (S k ≤ 1)%nat then si_RetryCount stepInst
                     else Z.of_nat (S k) - 1)).
      { destruct k as [|k'].
        - destruct Hk as [-> ->]. eexists _, _. split; [done|].
          rewrite !deref_assign, Hp. simpl. done.
        - destruct Hk as ([e ->] & s' & Hs' & Hrc). exists e, s'.
          split_and!; [done|done|]. rewrite bool_decide_false by lia. lia. }
      destruct Hfin as (e & s' & -> & Hs' & Hrc).
      qstep r Hlog'. do 3 qstep r Hlog'.
      apply wp_ret. exists (S k). split; [lia|]. split; [done|].
      split; [intros _; lia|].
      simpl. rewrite !deref_assign, Hs'. simpl.
      eexists. split; [reflexivity|]. done.
Qed.

(** The attempts of a step. When [executeStep] returns from a step that was
    not terminal, the executor has been called [n] times, with the input
    prepared on entry, [n] between one and the attempts the policy allows
    and equal to them when the step has failed; a sleep of the computed
    interval was taken before each attempt but the first; the step is left
    completed or failed; its retry count is [n - 1] once a second attempt
    was made and is untouched otherwise. *)
Theorem executeStep_attempts stepDef p inst stepInstMap stepInst r out r' :
  deref inst p = Some stepInst → si_IsCompleted stepInst = false →
  executeStep stepDef p inst stepInstMap r = Val out r' →
  ∃ n : nat,
    1 <= Z.of_nat n <= maxAttempts stepDef
    ∧ rt_calls r'
      = rt_calls r ++ replicate n (sd_ID stepDef, prepareStepInput stepDef inst stepInstMap)
    ∧ rt_sleeps r' = rt_sleeps r ++ retrySleeps (effectivePolicy stepDef) n
    ∧ (is_Some out.1 → Z.of_nat n = maxAttempts stepDef)
    ∧ ∃ s', deref out.2 p = Some s'
            ∧ si_Status s' = (if out.1 is Some _ then StepStatusFailed else StepStatusCompleted)
            ∧ si_RetryCount s'
              = (if bool_decide (n ≤ 1)%nat then si_RetryCount stepInst
                 else Z.of_nat n - 1).
Proof.
  intros Hp Hterm Hrun.
  pose proof (executeStep_attempts_wp stepDef p inst stepInstMap stepInst
                (rt_calls r) (rt_sleeps r) r Hp Hterm (conj eq_refl eq_refl)) as Hwp.
  eapply wp_val in Hwp; [|exact Hrun].
  destruct Hwp as (n & Hn & [Hc Hs] & Herr & Hfin). exists n. done.
Qed.


(** A policy that allows no attempt ([MaxAttempts] zero or negative) makes
    [executeStep] panic on a step that is not terminal: the loop body never
    runs and the failure handling calls [Error] on a nil error. *)
Theorem executeStep_no_attempt stepDef p inst stepInstMap stepInst r :
  deref inst p = Some stepInst → si_IsCompleted stepInst = false →
  maxAttempts stepDef <= 0 →
  executeStep stepDef p inst stepInstMap r = Panic.
Proof.
  intros Hp Hterm Hmax. unfold executeStep. rewrite Hp, Hterm.
  fold (effectivePolicy stepDef). rewrite maxAttempts_effectivePolicy in Hmax.
  replace (Z.to_nat (rp_MaxAttempts (effectivePolicy stepDef))) with 0%nat by lia.
  done.
Qed.

(** A step the engine has given up on still answers [CanRetry] with true:
    after the [MaxAttempts] attempts of a step that was created with a
    retry count of zero, the step is failed with a retry count of
    [MaxAttempts - 1], which is below [MaxAttempts]. *)
Theorem failed_step_CanRetry stepDef policy p inst stepInstMap stepInst r e inst' r' :
  sd_RetryPolicy stepDef = Some policy →
  deref inst p = Some stepInst → si_IsCompleted stepInst = false →
  si_RetryCount stepInst = 0 →
  executeStep stepDef p inst stepInstMap r = Val (Some e, inst') r' →
  ∃ s', deref inst' p = Some s'
        ∧ si_Status s' = StepStatusFailed
        ∧ si_RetryCount s' = rp_MaxAttempts policy - 1
        ∧ si_CanRetry s' (Some policy) = true.
Proof.
  intros Hpol Hp Hterm Hrc Hrun.
  pose proof (executeStep_attempts_wp stepDef p inst stepInstMap stepInst
                (rt_calls r) (rt_sleeps r) r Hp Hterm (conj eq_refl eq_refl)) as Hwp.
  eapply wp_val in Hwp; [|exact Hrun].
  destruct Hwp as (n & Hn & _ & Hmax & s' & Hs' & Hst & Hrc').
  simpl in *. specialize (Hmax ltac:(by eexists)).
  unfold maxAttempts in *. rewrite Hpol in *.
  assert (Hcount : si_RetryCount s' = rp_MaxAttempts policy - 1).
  { rewrite Hrc'. case_bool_decide; lia. }
  exists s'. split_and!; [done|done|done|].
  unfold si_CanRetry. rewrite Hst, Hcount.
  rewrite bool_decide_true by done. rewrite bool_decide_true by lia. done.
Qed.

End Attempts.

Lemma executeStep_attempts_witness :
  ∃ out r',
    Examples.flaky_run = Val out r'
    ∧ ∃ n : nat,
        1 <= Z.of_nat n <= maxAttempts Examples.flaky_step
        ∧ rt_calls r'
          = rt_calls (NewOrchestrator 0%nat)
            ++ replicate n (sd_ID Examples.flaky_step,
                            prepareStepInput Examples.flaky_step Examples.one_step_instance
                              (buildStepInstMap Examples.one_step_instance))
        ∧ rt_sleeps r'
          = rt_sleeps (NewOrchestrator 0%nat)
            ++ retrySleeps (effectivePolicy Examples.flaky_step) n
        ∧ (is_Some out.1 → Z.of_nat n = maxAttempts Examples.flaky_step)
        ∧ ∃ s', deref out.2 0 = Some s'
                ∧ si_Status s' = (if out.1 is Some _ then StepStatusFailed else StepStatusCompleted)
                ∧ si_RetryCount s'
                  = (if bool_decide (n ≤ 1)%nat then si_RetryCount Examples.one_step
                     else Z.of_nat n - 1).
Proof.
  eexists _, _. split; [vm_compute; reflexivity|].
  eapply (executeStep_attempts Examples.flaky_step 0 Examples.one_step_instance
            (buildStepInstMap Examples.one_step_instance) Examples.one_step
            (NewOrchestrator 0%nat)).
  - reflexivity.
  - reflexivity.
  - vm_compute; reflexivity.
Defined.

Lemma executeStep_no_attempt_witness :
  executeStep (WithRetryPolicy Examples.zero_policy Examples.flaky_step) 0
    Examples.one_step_instance (buildStepInstMap Examples.one_step_instance)
    (NewOrchestrator 0%nat)
  = Panic.
Proof.
  eapply (executeStep_no_attempt _ 0 Examples.one_step_instance _ Examples.one_step).
  - reflexivity.
  - reflexivity.
  - vm_compute. discriminate.
Defined.

Lemma failed_step_CanRetry_witness :
  ∃ e inst' r',
    Examples.hopeless_run = Val (Some e, inst') r'
    ∧ ∃ s', deref inst' 0 = Some s'
            ∧ si_Status s' = StepStatusFailed
            ∧ si_RetryCount s' = rp_MaxAttempts Scenario.uncapped_policy - 1
            ∧ si_CanRetry s' (Some Scenario.uncapped_policy) = true.
Proof.
  eexists _, _, _. split; [vm_compute; reflexivity|].
  eapply (failed_step_CanRetry Examples.hopeless_step Scenario.uncapped_policy 0
            Examples.one_step_instance (buildStepInstMap Examples.one_step_instance)
            Examples.one_step (NewOrchestrator 0%nat)).
  - reflexivity.
  - reflexivity.
  - reflexivity.
  - reflexivity.
  - vm_compute; reflexivity.
Defined.

(** ** The input of a step, in the runner *)

Section Accumulation.
Context {W : Type}.
Implicit Types (stepDef : @StepDefinition W) (r : @Runtime W).

Lemma wp_skip {A B} (m : @M W A) (f : A → @M W B) (Q : B → @Runtime W → Prop) r :
  (∀ a r', wp (f a) Q r') → wp (m ≫= f) Q r.
Proof. intros Hf. apply wp_bind. unfold wp at 1. destruct (m r); auto. Qed.

Lemma wp_callExecutor_result {B} stepDef input (f : ExecResult → @M W B)
    (Q : B → @Runtime W → Prop) r :
  (∀ w r', wp (f (sd_Executor stepDef w input).1) Q r') →
  wp (callExecutor stepDef input ≫= f) Q r.
Proof.
  intros Hf. unfold wp, mbind, M_bind, callExecutor.
  specialize (Hf (rt_world r)).
  destruct (sd_Executor stepDef (rt_world r) input) as [res w]. apply Hf.
Qed.

Lemma mergeStepOutput_context (w : WorkflowInstance) stepID output :
  wi_Context (mergeStepOutput w stepID output)
  = output ∪ <[stepID := VMap output]> (wi_Context w)
  ∧ wi_Output (mergeStepOutput w stepID output) = output ∪ wi_Output w.
Proof. unfold mergeStepOutput. simpl. by rewrite !rangeAssign_union. Qed.

(** The attempt loop leaves the context and the output of the workflow
    instance alone until an attempt succeeds, and then merges the output of
    that attempt into them. *)
Lemma attemptLoop_merge stepDef policy p id input k a lastErr inst r :
  wp (attemptLoop stepDef policy p id input k a lastErr inst)
    (λ out r',
       match out with
       | inl inst' =>
           ∃ output w,
             (sd_Executor stepDef w input).1 = ExecOk output
             ∧ wi_Context inst' = output ∪ <[sd_ID stepDef := VMap output]> (wi_Context inst)
             ∧ wi_Output inst' = output ∪ wi_Output inst
       | inr (_, inst') =>
           wi_Context inst' = wi_Context inst ∧ wi_Output inst' = wi_Output inst
       end) r.
Proof.
  revert a lastErr inst r. induction k as [|k IH]; intros a lastErr inst r.
  { by apply wp_ret. }
  cbn [attemptLoop].
  apply wp_bind.
  eapply (wp_mono _ (λ inst1 _, wi_Context inst1 = wi_Context inst
                                ∧ wi_Output inst1 = wi_Output inst)).
  2:{ case_bool_decide; [|by apply wp_ret].
      repeat first [by apply wp_ret | apply wp_skip; intros ? ?]. }
  clear r. intros inst1 r [Hc1 Ho1].
  apply wp_bind.
  eapply (wp_mono _ (λ inst2 _, wi_Context inst2 = wi_Context inst
                                ∧ wi_Output inst2 = wi_Output inst)).
  2:{ case_bool_decide; [|by apply wp_ret].
      repeat first [by apply wp_ret | apply wp_skip; intros ? ?]. }
  clear r inst1 Hc1 Ho1. intros inst2 r [Hc2 Ho2].
  apply wp_skip. clear r. intros startTime r.
  apply wp_callExecutor_result. clear r. intros w r.
  destruct (sd_Executor stepDef w input).1 as [output|err] eqn:Hres.
  - apply wp_skip. clear r. intros endTime r.
    do 4 (apply wp_skip; intros ? ?).
    apply wp_ret. exists output, w.
    match goal with
    | |- context [mergeStepOutput ?inst3 _ _] =>
        destruct (mergeStepOutput_context inst3 (sd_ID stepDef) output) as [-> ->]
    end.
    simpl. by rewrite Hc2, Ho2.
  - apply wp_skip. clear r. intros endTime r.
    eapply wp_mono; [|apply IH].
    intros [inst'|[le inst']] r'; simpl; rewrite ?Hc2, ?Ho2; done.
Qed.

(** A step that [executeStep] completes has had the output of its executor
    merged into the context and the output of the workflow instance. *)
Lemma executeStep_merge stepDef p inst stepInstMap stepInst r :
  deref inst p = Some stepInst → si_IsCompleted stepInst = false →
  wp (executeStep stepDef p inst stepInstMap)
    (λ out r',
       out.1 = None →
       ∃ output w,
         (sd_Executor stepDef w (prepareStepInput stepDef inst stepInstMap)).1 = ExecOk output
         ∧ wi_Context out.2 = output ∪ <[sd_ID stepDef := VMap output]> (wi_Context inst)
         ∧ wi_Output out.2 = output ∪ wi_Output inst) r.
Proof.
  intros Hp Hterm. unfold executeStep. rewrite Hp, Hterm.
  apply wp_bind. eapply wp_mono; [|apply attemptLoop_merge].
  intros [inst'|[[lastErr|] inst']] r' Hout; [|..|done].
  - apply wp_ret. intros _. exact Hout.
  - repeat first [by apply wp_ret | apply wp_skip; intros ? ?].
Qed.

End Accumulation.

(** C6. The input built for a step is the overlay, last writer winning, of
    the workflow input, then for each dependency in declaration order its
    outputs under their own keys and under the dependency's identifier,
    then the workflow context; and every call [executeStep] makes to the
    step's executor passes that input. The context is accumulated by the
    runner: a step that [executeStep] runs to completion has called its
    executor at least once, and the output of the successful call is merged
    into the context, under its own keys and under the step's identifier,
    so that it is in the input of every step prepared afterwards, declared
    dependency or not. In the run of scenario S2 the executor of [S2] is
    called once, with an input in which [x] is 42 and [S1] is the map
    [{"x": 42}], and the final output has [x = 42] and [y = 43]; in a run
    where [B] declares no dependency and runs after [A], the input of [B]
    has [x = 42] and [A = {"x": 42}] all the same, from the context. *)
Theorem prepareStepInput_overlay :
  (∀ (W : Type) (stepDef : @StepDefinition W) (workflowInst : WorkflowInstance)
     (stepInstMap : gmap string nat),
     prepareStepInput stepDef workflowInst stepInstMap
     = spec_stepInput stepDef workflowInst stepInstMap)
  ∧ (∀ (W : Type) (stepDef : @StepDefinition W) (p : nat) (workflowInst : WorkflowInstance)
       (stepInstMap : gmap string nat) (r r' : @Runtime W) out,
       executeStep stepDef p workflowInst stepInstMap r = Val out r' →
       ∃ n, rt_calls r'
            = rt_calls r
              ++ replicate n (sd_ID stepDef, spec_stepInput stepDef workflowInst stepInstMap))
  ∧ (∀ (W : Type) (stepDef : @StepDefinition W) (p : nat) (workflowInst : WorkflowInstance)
       (stepInstMap : gmap string nat) (stepInst : StepInstance) (r r' : @Runtime W) out,
       deref workflowInst p = Some stepInst → si_IsCompleted stepInst = false →
       executeStep stepDef p workflowInst stepInstMap r = Val out r' →
       (∃ n, (1 ≤ n)%nat
             ∧ rt_calls r'
               = rt_calls r
                 ++ replicate n (sd_ID stepDef,
                                 spec_stepInput stepDef workflowInst stepInstMap))
       ∧ (out.1 = None →
          ∃ output w,
            (sd_Executor stepDef w (spec_stepInput stepDef workflowInst stepInstMap)).1
            = ExecOk output
            ∧ wi_Context out.2
              = output ∪ <[sd_ID stepDef := VMap output]> (wi_Context workflowInst)
            ∧ ∀ (stepDef' : @StepDefinition W) (stepInstMap' : gmap string nat) k v,
                output !! k = Some v →
                prepareStepInput stepDef' out.2 stepInstMap' !! k = Some v))
  ∧ (∃ res r input,
       Scenario.s2_run = Val (Some res, None) r
       ∧ rt_world r = [input]
       ∧ input !! "x" = Some (VInt 42)
       ∧ input !! "S1" = Some (VMap {[ "x" := VInt 42 ]})
       ∧ wr_Success res = true
       ∧ wr_Output res !! "x" = Some (VInt 42)
       ∧ wr_Output res !! "y" = Some (VInt 43))
  ∧ (∃ res r input,
       Examples.context_run = Val (Some res, None) r
       ∧ Forall (λ stepDef, sd_Dependencies stepDef = [])
           (wd_Steps Examples.context_workflow)
       ∧ (rt_calls r).*1 = ["A"; "B"]
       ∧ rt_world r = [input]
       ∧ input !! "x" = Some (VInt 42)
       ∧ input !! "A" = Some (VMap {[ "x" := VInt 42 ]})).
Proof.
  assert (Hoverlay : ∀ (W : Type) (stepDef : @StepDefinition W)
            (workflowInst : WorkflowInstance) (stepInstMap : gmap string nat),
            prepareStepInput stepDef workflowInst stepInstMap
            = spec_stepInput stepDef workflowInst stepInstMap).
  { intros W stepDef workflowInst stepInstMap.
    unfold prepareStepInput, spec_stepInput.
    rewrite overlay_app, foldl_app. simpl.
    by rewrite !rangeAssign_union, dependency_loop. }
  split_and!.
  - exact Hoverlay.
  - intros W stepDef p workflowInst stepInstMap r r' out Hrun.
    rewrite <- Hoverlay.
    exact (wp_val _ _ _ _ _ (executeStep_inputs _ _ _ _ _) Hrun).
  - intros W stepDef p workflowInst stepInstMap stepInst r r' out Hp Hterm Hrun.
    rewrite <- Hoverlay. split.
    + pose proof (executeStep_attempts_wp stepDef p workflowInst stepInstMap stepInst
                    (rt_calls r) (rt_sleeps r) r Hp Hterm (conj eq_refl eq_refl)) as Hwp.
      eapply wp_val in Hwp; [|exact Hrun].
      destruct Hwp as (n & Hn & [Hc _] & _). exists n. split; [lia|done].
    + pose proof (executeStep_merge stepDef p workflowInst stepInstMap stepInst r Hp Hterm)
        as Hwp.
      eapply wp_val in Hwp; [|exact Hrun].
      intros Hnone. destruct (Hwp Hnone) as (output & w & Hexec & Hctx & _).
      exists output, w. split_and!; [done|done|].
      intros stepDef' stepInstMap' k v Hk. apply prepareStepInput_context.
      rewrite Hctx. by apply lookup_union_Some_l.
  - eexists _, _, _. split; [vm_compute; reflexivity|].
    repeat split; vm_compute; reflexivity.
  - eexists _, _, _. split; [vm_compute; reflexivity|].
    split; [repeat constructor|].
    repeat split; vm_compute; reflexivity.
Qed.

Lemma prepareStepInput_overlay_witness :
  ∃ out r',
    Scenario.s2_step_run = Val out r'
    ∧ ∃ n, rt_calls r'
           = rt_calls (NewOrchestrator ([] : list GoMap))
             ++ replicate n (sd_ID Scenario.s2_step2,
                             spec_stepInput Scenario.s2_step2 Scenario.s2_instance
                               (buildStepInstMap Scenario.s2_instance)).
Proof.
  eexists _, _. split; [vm_compute; reflexivity|].
  eapply (proj1 (proj2 prepareStepInput_overlay) _ Scenario.s2_step2 1%nat
           Scenario.s2_instance (buildStepInstMap Scenario.s2_instance)
           (NewOrchestrator [])).
  vm_compute; reflexivity.
Defined.

(** ** The workflow context *)

(** [SetContext] then [GetContext]: the value set is the value read under
    the key, the other keys read as before, and nothing but the context
    changes; a key that was never set reads as the nil interface. *)
Theorem SetContext_GetContext (w : WorkflowInstance) (key : string) (value : Value) :
  GetContext (SetContext key value w) key = value
  ∧ (∀ key', key' ≠ key → GetContext (SetContext key value w) key' = GetContext w key')
  ∧ wi_with_Context (wi_Context w) (SetContext key value w) = w
  ∧ (wi_Context w !! key = None → GetContext w key = VNil).
Proof.
  unfold GetContext, SetContext. simpl. split_and!.
  - by rewrite lookup_insert_eq.
  - intros key' Hne. by rewrite lookup_insert_ne.
  - by destruct w.
  - by intros ->.
Qed.

Lemma SetContext_GetContext_witness :
  GetContext (SetContext "a" (VInt 1) Examples.one_step_instance) "b" = VNil.
Proof.
  rewrite (proj1 (proj2 (SetContext_GetContext Examples.one_step_instance "a" (VInt 1))) "b")
    by discriminate.
  apply (SetContext_GetContext Examples.one_step_instance "b" VNil). reflexivity.
Defined.

(** What the output of a completed step becomes. Every entry of the output
    is written to the workflow context and to the workflow output under its
    own key, and the context is laid over every step input built
    afterwards: the entry is in the input of any later step, whether it
    declares the dependency or not, whatever the workflow input or another
    step's output says under that key. The whole output is also in the
    context under the step's identifier, unless the output has an entry
    under that very key, which then takes its place. Keys the output does
    not have are left as they were. *)
Theorem mergeStepOutput_visible {W} (stepDef : @StepDefinition W) (w : WorkflowInstance)
    (stepID : string) (output : GoMap) (stepInstMap : gmap string nat) :
  (∀ k v, output !! k = Some v →
     GetContext (mergeStepOutput w stepID output) k = v
     ∧ wi_Output (mergeStepOutput w stepID output) !! k = Some v
     ∧ prepareStepInput stepDef (mergeStepOutput w stepID output) stepInstMap !! k = Some v)
  ∧ (output !! stepID = None →
     GetContext (mergeStepOutput w stepID output) stepID = VMap output
     ∧ prepareStepInput stepDef (mergeStepOutput w stepID output) stepInstMap !! stepID
       = Some (VMap output))
  ∧ (∀ k, output !! k = None →
     wi_Output (mergeStepOutput w stepID output) !! k = wi_Output w !! k
     ∧ (k ≠ stepID → GetContext (mergeStepOutput w stepID output) k = GetContext w k))
  ∧ wi_Context (mergeStepOutput w stepID output)
    = wi_Context (map_fold SetContext (SetContext stepID (VMap output) w) output).
Proof.
  assert (Hctx : wi_Context (mergeStepOutput w stepID output)
                 = output ∪ <[stepID := VMap output]> (wi_Context w)).
  { unfold mergeStepOutput. simpl. by rewrite rangeAssign_union. }
  assert (Hout : wi_Output (mergeStepOutput w stepID output) = output ∪ wi_Output w).
  { unfold mergeStepOutput. simpl. by rewrite rangeAssign_union. }
  split_and!.
  - intros k v Hk.
    assert (Hc : wi_Context (mergeStepOutput w stepID output) !! k = Some v).
    { rewrite Hctx. by apply lookup_union_Some_l. }
    split_and!.
    + unfold GetContext. by rewrite Hc.
    + rewrite Hout. by apply lookup_union_Some_l.
    + by apply prepareStepInput_context.
  - intros Hid.
    assert (Hc : wi_Context (mergeStepOutput w stepID output) !! stepID = Some (VMap output)).
    { rewrite Hctx, lookup_union_r by done. by rewrite lookup_insert_eq. }
    split; [unfold GetContext; by rewrite Hc|by apply prepareStepInput_context].
  - intros k Hk. split.
    + rewrite Hout. by rewrite lookup_union_r.
    + intros Hne. unfold GetContext. rewrite Hctx, lookup_union_r by done.
      by rewrite lookup_insert_ne.
  - rewrite Hctx.
    apply (map_fold_weak_ind
             (λ (r : WorkflowInstance) (m : GoMap),
                m ∪ <[stepID := VMap output]> (wi_Context w) = wi_Context r)).
    + by rewrite (left_id ∅ (∪)).
    + intros k v m r Hm IH. unfold SetContext. simpl. rewrite <- IH.
      by rewrite insert_union_l.
Qed.

Lemma mergeStepOutput_visible_witness :
  prepareStepInput Scenario.s2_step1
    (mergeStepOutput Examples.one_step_instance "other" {[ "x" := VInt 42 ]}) ∅
  !! "x" = Some (VInt 42).
Proof.
  destruct (mergeStepOutput_visible Scenario.s2_step1 Examples.one_step_instance "other"
              {[ "x" := VInt 42 ]} ∅) as (H & _).
  refine (proj2 (proj2 (H "x" (VInt 42) _))).
  vm_compute. reflexivity.
Defined.

(** ** The registry and the error paths of the facade *)

Section FacadeErrors.
Context {W : Type}.
Implicit Types (r : @Runtime W) (workflow : @WorkflowDefinition W).

(** [RegisterWorkflow] then [GetWorkflow] (of the orchestrator): a
    definition with an identifier is returned as registered, whatever was
    registered under the identifier before; nothing else in the
    orchestrator changes; an identifier that was never registered gives
    ["workflow not found: <id>"]. *)
Theorem RegisterWorkflow_GetWorkflow workflow r :
  wd_ID workflow ≠ "" →
  ∃ r',
    RegisterWorkflow (Some workflow) r = Val None r'
    ∧ GetWorkflowDef (wd_ID workflow) r' = Val (inl workflow) r'
    ∧ r' = rt_with_workflows (<[wd_ID workflow := workflow]> (rt_workflows r)) r
    ∧ (∀ id, id ≠ wd_ID workflow → rt_workflows r !! id = None →
         GetWorkflowDef id r' = Val (inr ("workflow not found: " +:+ id)) r').
Proof.
  intros Hid. unfold RegisterWorkflow. rewrite bool_decide_false by done.
  eexists. split; [reflexivity|]. split_and!.
  - unfold GetWorkflowDef, mbind, M_bind. simpl. by rewrite lookup_insert_eq.
  - done.
  - intros id Hne Hnone. unfold GetWorkflowDef, mbind, M_bind. simpl.
    by rewrite lookup_insert_ne, Hnone.
Qed.

(** The facade on identifiers it does not know. [StartWorkflow] and
    [StartWorkflowAsync] of an unregistered workflow return
    ["workflow not found: <id>"]; [ResumeWorkflow] of an instance that is
    not stored returns ["failed to load workflow: workflow not found:
    <id>"], and of a stored instance whose definition is not registered
    ["workflow not found: <workflow id>"]. In each case nothing is written:
    no instance, no event, no identifier drawn, the clock not read. *)
Theorem facade_not_found ctx (id : string) input metadata r :
  (rt_workflows r !! id = None →
     StartWorkflow ctx id input metadata r
     = Val (None, Some ("workflow not found: " +:+ id)) r
     ∧ StartWorkflowAsync ctx id input metadata r
       = Val ("", Some ("workflow not found: " +:+ id), None) r)
  ∧ (workflows (rt_stateManager r) !! id = None →
     ResumeWorkflow id r
     = Val (None, Some ("failed to load workflow: workflow not found: " +:+ id)) r)
  ∧ (∀ w, workflows (rt_stateManager r) !! id = Some w →
     rt_workflows r !! wi_WorkflowID w = None →
     ResumeWorkflow id r
     = Val (None, Some ("workflow not found: " +:+ wi_WorkflowID w)) r).
Proof.
  split_and!.
  - intros Hnone.
    unfold StartWorkflow, StartWorkflowAsync, GetWorkflowDef, mbind, M_bind. simpl.
    by rewrite Hnone.
  - intros Hnone. unfold ResumeWorkflow, GetWorkflow, mbind, M_bind. simpl.
    by rewrite Hnone.
  - intros w Hw Hnone.
    unfold ResumeWorkflow, GetWorkflow, GetWorkflowDef, mbind, M_bind. simpl.
    rewrite Hw. simpl. rewrite deepCopyWorkflow_id. by rewrite Hnone.
Qed.

Lemma keeps_refl r : keeps r r.
Proof. done. Qed.

Lemma keeps_trans r1 r2 r3 : keeps r1 r2 → keeps r2 r3 → keeps r1 r3.
Proof.
  intros (Hq & ? & ?) (Hq' & ? & ?). split; [by eapply quiet_trans|]. split; congruence.
Qed.

Lemma returns_keeping_ret {A} (a : A) : returns_keeping (mret a : @M W A).
Proof. intros r. by exists a, r. Qed.

Lemma returns_keeping_bind {A B} (m : @M W A) (f : A → @M W B) :
  returns_keeping m → (∀ a, returns_keeping (f a)) → returns_keeping (m ≫= f).
Proof.
  intros Hm Hf r. destruct (Hm r) as (a & r1 & Hrun & Hk).
  destruct (Hf a r1) as (b & r2 & Hrun' & Hk').
  exists b, r2. split; [|by eapply keeps_trans].
  unfold mbind, M_bind. by rewrite Hrun.
Qed.

Lemma returns_keeping_time_Now : returns_keeping (@time_Now W).
Proof. intros r. by eexists _, _. Qed.

Lemma returns_keeping_uuid_New : returns_keeping (@uuid_New W).
Proof. intros r. by eexists _, _. Qed.

Lemma returns_keeping_emitEvent workflowInstID stepInstID eventType data :
  returns_keeping (@emitEvent W workflowInstID stepInstID eventType data).
Proof.
  intros r. unfold emitEvent, mbind, M_bind, store_op, SaveEvent. simpl.
  eexists _, _. split; [reflexivity|]. done.
Qed.

Lemma returns_keeping_getTraceID ctx metadata :
  returns_keeping (@getTraceID W ctx metadata).
Proof.
  unfold getTraceID.
  repeat case_match; first [apply returns_keeping_ret|apply returns_keeping_uuid_New].
Qed.

Lemma returns_keeping_getCorrelationID ctx metadata :
  returns_keeping (@getCorrelationID W ctx metadata).
Proof.
  unfold getCorrelationID.
  repeat case_match; first [apply returns_keeping_ret|apply returns_keeping_uuid_New].
Qed.

Lemma returns_keeping_getBusinessID ctx metadata :
  returns_keeping (@getBusinessID W ctx metadata).
Proof. unfold getBusinessID. repeat case_match; apply returns_keeping_ret. Qed.

End FacadeErrors.

Lemma RegisterWorkflow_GetWorkflow_witness :
  ∃ r', RegisterWorkflow (Some Scenario.s1_workflow) Scenario.s5_start = Val None r'
        ∧ GetWorkflowDef "W" r' = Val (inl Scenario.s1_workflow) r'.
Proof.
  destruct (RegisterWorkflow_GetWorkflow Scenario.s1_workflow Scenario.s5_start)
    as (r' & H1 & H2 & _); [vm_compute; discriminate|].
  exists r'. split; assumption.
Defined.

Lemma facade_not_found_witness :
  StartWorkflow ∅ "nope" ∅ ∅ Scenario.s5_start
  = Val (None, Some "workflow not found: nope") Scenario.s5_start
  ∧ ResumeWorkflow "wf-9" Scenario.s5_saved
    = Val (None, Some "failed to load workflow: workflow not found: wf-9") Scenario.s5_saved.
Proof.
  split.
  - destruct (facade_not_found ∅ "nope" ∅ ∅ Scenario.s5_start) as (H & _).
    apply H. reflexivity.
  - destruct (facade_not_found ∅ "wf-9" ∅ ∅ Scenario.s5_saved) as (_ & H & _).
    apply H. reflexivity.
Defined.

(** ** The scheduler: ready steps *)

Section Ready.
Context {W : Type}.
Implicit Types (workflow : @WorkflowDefinition W) (step : @StepDefinition W).

Lemma findReadySteps_acc executed graph (l acc : list (@StepDefinition W)) :
  foldl (λ ready step,
           if bool_decide (sd_ID step ∈ executed) then ready
           else
             let allDepsExecuted :=
               forallb (λ dep, bool_decide (dep ∈ executed))
                       (default [] (graph !! sd_ID step)) in
             if allDepsExecuted then ready ++ [step] else ready) acc l
  = acc ++ filter (ready executed graph) l.
Proof.
  revert acc. induction l as [|x l IH]; intros acc; simpl.
  { by rewrite app_nil_r. }
  rewrite IH, filter_cons. unfold ready at 2.
  case_bool_decide as Hex.
  { rewrite decide_False by (by intros [? _]). done. }
  destruct (forallb _ _) eqn:Hall.
  - rewrite decide_True; [by rewrite <- app_assoc|].
    split; [done|]. apply Forall_forall. intros dep Hdep.
    rewrite forallb_forall in Hall.
    apply list_elem_of_In in Hdep. specialize (Hall dep Hdep).
    by apply bool_decide_eq_true in Hall.
  - rewrite decide_False; [done|]. intros [_ Hf].
    assert (forallb (λ dep, bool_decide (dep ∈ executed))
              (default [] (graph !! sd_ID x)) = true); [|congruence].
    apply forallb_forall. intros dep Hdep. apply bool_decide_eq_true.
    rewrite Forall_forall in Hf. apply Hf. by apply list_elem_of_In.
Qed.

(** The dependencies the graph lists for a step identifier are those of the
    last step declared with that identifier; an identifier no step has is
    not in the graph. *)
Lemma buildDependencyGraph_lookup workflow id :
  buildDependencyGraph workflow !! id
  = sd_Dependencies <$> last (filter (λ step, sd_ID step = id) (wd_Steps workflow)).
Proof.
  unfold buildDependencyGraph.
  assert (Hgen : ∀ (l : list (@StepDefinition W)) (g : gmap string (list string)),
    foldl (λ graph step, <[sd_ID step := sd_Dependencies step]> graph) g l !! id
    = match last (filter (λ step, sd_ID step = id) l) with
      | Some step => Some (sd_Dependencies step)
      | None => g !! id
      end).
  { induction l as [|x l IH]; intros g; simpl; [done|].
    rewrite IH, filter_cons. case_decide as Hx.
    - destruct (filter _ l) as [|y l'] eqn:Hf; simpl.
      + by rewrite <- Hx, lookup_insert_eq.
      + destruct (last (y :: l')) eqn:Hl; [done|]. by apply last_None in Hl.
    - by rewrite lookup_insert_ne. }
  rewrite Hgen. by destruct (last _).
Qed.

Lemma findReadySteps_filter workflow executed graph :
  findReadySteps workflow executed graph = filter (ready executed graph) (wd_Steps workflow).
Proof. unfold findReadySteps. by rewrite findReadySteps_acc. Qed.

(** [findReadySteps] returns, in the order of declaration, the steps that
    are not marked executed and whose dependencies all are. With distinct
    step identifiers the dependencies looked at are the step's own. (When
    two steps share an identifier, those of the later one count for
    both.) *)
Theorem findReadySteps_ready workflow executed :
  (∀ graph, findReadySteps workflow executed graph
            = filter (ready executed graph) (wd_Steps workflow))
  ∧ (NoDup (sd_ID <$> wd_Steps workflow) →
     ∀ step, step ∈ findReadySteps workflow executed (buildDependencyGraph workflow)
             ↔ step ∈ wd_Steps workflow
               ∧ (sd_ID step ∉ executed)
               ∧ ∀ dep, dep ∈ sd_Dependencies step → dep ∈ executed).
Proof.
  split.
  { intros graph. apply findReadySteps_filter. }
  intros Hnd step. unfold findReadySteps. rewrite findReadySteps_acc. simpl.
  rewrite list_elem_of_filter. unfold ready.
  assert (Hdeps : step ∈ wd_Steps workflow →
            buildDependencyGraph workflow !! sd_ID step = Some (sd_Dependencies step)).
  { intros Hin. rewrite buildDependencyGraph_lookup.
    assert (Hf : filter (λ s, sd_ID s = sd_ID step) (wd_Steps workflow) = [step]);
      [|by rewrite Hf].
    revert Hnd Hin. generalize (wd_Steps workflow).
    induction l as [|x l IH]; intros Hnd Hin; [by apply elem_of_nil in Hin|].
    rewrite fmap_cons in Hnd. apply NoDup_cons in Hnd as [Hx Hnd].
    rewrite filter_cons. apply elem_of_cons in Hin as [Heq0|Hin]; [subst x|].
    - rewrite decide_True by done. f_equal.
      destruct (filter _ l) as [|y l'] eqn:Hf; [done|]. exfalso.
      assert (Hy : y ∈ filter (λ s, sd_ID s = sd_ID step) l) by (rewrite Hf; left).
      apply list_elem_of_filter in Hy as [Heq Hy]. apply Hx.
      rewrite <- Heq. by apply list_elem_of_fmap_2.
    - rewrite decide_False; [by apply IH|].
      intros Heq. apply Hx. rewrite Heq. by apply list_elem_of_fmap_2. }
  split.
  - intros [[Hex Hall] Hin]. rewrite (Hdeps Hin) in Hall. simpl in Hall.
    split_and!; [done|done|]. by apply Forall_forall.
  - intros (Hin & Hex & Hall). rewrite (Hdeps Hin). simpl.
    split; [|done]. split; [done|]. by apply Forall_forall.
Qed.

End Ready.

Lemma findReadySteps_ready_witness :
  Scenario.s2_step2
  ∈ findReadySteps Scenario.s2_workflow {[ "S1" ]} (buildDependencyGraph Scenario.s2_workflow).
Proof.
  apply (proj2 (findReadySteps_ready Scenario.s2_workflow {[ "S1" ]})).
  - vm_compute. repeat constructor; set_solver.
  - split_and!.
    + vm_compute. apply list_elem_of_further, list_elem_of_here.
    + vm_compute. set_solver.
    + intros dep Hdep. vm_compute in Hdep. set_solver.
Defined.

(** ** The scheduler: dependencies before dependents *)

Section Order.
Context {W : Type}.
Implicit Types (stepDef : @StepDefinition W) (r : @Runtime W).
Implicit Types (workflow : @WorkflowDefinition W) (l : list (@StepDefinition W)).

Lemma wp_conj {A} (m : @M W A) (Q1 Q2 : A → @Runtime W → Prop) r :
  wp m Q1 r → wp m Q2 r → wp m (λ a r', Q1 a r' ∧ Q2 a r') r.
Proof. unfold wp. destruct (m r); auto. Qed.

Lemma calledIDs_app (cs cs' : list (string * GoMap)) :
  calledIDs (cs ++ cs') = calledIDs cs ∪ calledIDs cs'.
Proof. unfold calledIDs. rewrite fmap_app. apply list_to_set_app_L. Qed.

Lemma calledIDs_replicate (n : nat) (id : string) (input : GoMap) :
  (1 ≤ n)%nat → id ∈ calledIDs (replicate n (id, input)).
Proof.
  destruct n; [lia|]. intros _. unfold calledIDs. simpl.
  apply elem_of_union_l, elem_of_singleton. reflexivity.
Qed.

(** Calls to a step whose dependencies were all called before keep the
    record ordered. *)
Lemma dependency_ordered_app graph before cs (n : nat) id input :
  dependency_ordered graph before cs →
  (∀ dep, dep ∈ default [] (graph !! id) → dep ∈ before ∪ calledIDs cs) →
  dependency_ordered graph before (cs ++ replicate n (id, input)).
Proof.
  intros Hord Hdeps i id' input' Hi dep Hdep.
  destruct (decide (i < length cs)%nat) as [Hlt|Hge].
  - rewrite lookup_app_l in Hi by done.
    rewrite take_app_le by lia. by eapply Hord.
  - rewrite lookup_app_r in Hi by lia.
    apply lookup_replicate in Hi as [[= -> ->] _].
    rewrite take_app_ge by lia. rewrite calledIDs_app.
    specialize (Hdeps dep Hdep). clear -Hdeps. set_solver.
Qed.

Lemma sched_inv_D graph before c0 D executed inst r :
  sched_inv graph before c0 D executed inst r →
  sched_inv graph before c0 executed executed inst r.
Proof. intros (cs & ? & ? & ? & ? & ?). exists cs. done. Qed.

(** The step behind [p], an instance of [id], has been worked on with [n]
    calls, or was terminal and left alone. *)
Lemma sched_inv_step graph before c0 D executed inst inst' r r' p id input (n : nat)
    stepInst :
  sched_inv graph before c0 D executed inst r →
  (∀ dep, dep ∈ default [] (graph !! id) → dep ∈ D) →
  wi_Steps inst !! p = Some stepInst → si_StepID stepInst = id →
  step_run p inst inst' →
  rt_calls r' = rt_calls r ++ replicate n (id, input) →
  (1 ≤ n)%nat ∨ si_IsCompleted stepInst = true →
  sched_inv graph before c0 D ({[id]} ∪ executed) inst' r'.
Proof.
  intros (cs & Hc & Hord & HD & Hex & Hst) Hdeps Hp Hid [Hf Honly] Hc' Hn.
  exists (cs ++ replicate n (id, input)).
  assert (Hid_in : id ∈ before ∪ calledIDs (cs ++ replicate n (id, input))).
  { rewrite calledIDs_app. destruct Hn as [Hn|Hterm].
    - pose proof (calledIDs_replicate n id input Hn) as Hin. clear -Hin. set_solver.
    - specialize (Hst p stepInst Hp Hterm). rewrite Hid in Hst. clear -Hst. set_solver. }
  split_and!.
  - by rewrite Hc', Hc, app_assoc.
  - apply dependency_ordered_app; [done|]. intros dep Hdep. apply HD. by apply Hdeps.
  - rewrite calledIDs_app. clear -HD. set_solver.
  - rewrite calledIDs_app in *. clear -Hid_in Hex. set_solver.
  - intros q s Hs Hterm. destruct (decide (q = p)) as [->|Hq].
    + destruct (same_frame_lookup _ _ _ _ Hf Hp) as (s' & Hs' & Hid' & _).
      rewrite Hs in Hs'. injection Hs' as ->. by rewrite Hid', Hid.
    + rewrite Honly in Hs by done. specialize (Hst q s Hs Hterm).
      rewrite calledIDs_app. clear -Hst. set_solver.
Qed.

Lemma executeStep_sched graph before c0 D executed stepDef p inst stepInstMap stepInst r :
  wi_Steps inst !! p = Some stepInst → si_StepID stepInst = sd_ID stepDef →
  (∀ dep, dep ∈ default [] (graph !! sd_ID stepDef) → dep ∈ D) →
  sched_inv graph before c0 D executed inst r →
  wp (executeStep stepDef p inst stepInstMap)
     (λ out r',
        executeStep_post stepDef p inst out
        ∧ sched_inv graph before c0 D ({[sd_ID stepDef]} ∪ executed) out.2 r'
        ∧ sched_inv graph before c0 D ({[sd_ID stepDef]} ∪ executed)
            (assign p (si_with_Status StepStatusSkipped) out.2) r') r.
Proof.
  intros Hp Hid Hdeps Hinv.
  assert (Hstable : ∀ call, Stable call (λ _ : @Runtime W, True)) by by split.
  pose proof (executeStep_run _ stepDef p inst stepInstMap (Hstable _) r I) as Hrun.
  destruct (si_IsCompleted stepInst) eqn:Hterm.
  - revert Hrun. unfold executeStep, deref. rewrite Hp, Hterm. intros [_ Hpost].
    apply wp_ret. split; [done|].
    split.
    + eapply (sched_inv_step _ _ _ _ _ _ _ _ _ _ _ ∅ 0); eauto.
      * apply step_run_refl.
      * simpl. by rewrite app_nil_r.
    + eapply (sched_inv_step _ _ _ _ _ _ _ _ _ _ _ ∅ 0); eauto.
      * by apply step_run_assign.
      * simpl. by rewrite app_nil_r.
  - pose proof (executeStep_attempts_wp stepDef p inst stepInstMap stepInst
                  (rt_calls r) (rt_sleeps r) r Hp Hterm (conj eq_refl eq_refl)) as Hatt.
    eapply wp_mono; [|exact (wp_conj _ _ _ _ Hrun Hatt)].
    intros out r' [[_ Hpost] (n & Hn & [Hc _] & _)].
    split; [done|]. destruct Hpost as (Hsr & _).
    split.
    + eapply (sched_inv_step _ _ _ _ _ _ _ _ _ _ _ _ n); eauto. left. lia.
    + eapply (sched_inv_step _ _ _ _ _ _ _ _ _ _ _ _ n); eauto; [|left; lia].
      eapply step_run_trans; [exact Hsr|]. by apply step_run_assign.
Qed.


Lemma sched_inv_quiet graph before c0 D executed inst r r' :
  sched_inv graph before c0 D executed inst r → rt_calls r' = rt_calls r →
  sched_inv graph before c0 D executed inst r'.
Proof. intros (cs & Hc & ?) Hc'. exists cs. by rewrite Hc'. Qed.

Lemma sched_inv_executed graph before c0 D executed executed' inst r :
  sched_inv graph before c0 D executed inst r → executed' ⊆ executed →
  sched_inv graph before c0 D executed' inst r.
Proof.
  intros (cs & Hc & Hord & HD & Hex & Hst) Hsub. exists cs.
  split_and!; try done. clear -Hex Hsub. set_solver.
Qed.

Lemma map_points_StepID (stepInstMap : gmap string nat) inst id p stepInst :
  map_points stepInstMap inst → stepInstMap !! id = Some p →
  wi_Steps inst !! p = Some stepInst → si_StepID stepInst = id.
Proof. intros Hm Hsim Hp. destruct (Hm _ _ Hsim) as (s & Hs & Hid). congruence. Qed.

Lemma Completed_IsCompleted (s : StepInstance) :
  si_Status s = StepStatusCompleted → si_IsCompleted s = true.
Proof. intros Hs. unfold si_IsCompleted. by rewrite Hs. Qed.

Lemma runSyncSteps_sched graph before c0 D l stepInstMap executed inst r :
  map_points stepInstMap inst →
  (∀ stepDef, stepDef ∈ l →
     ∀ dep, dep ∈ default [] (graph !! sd_ID stepDef) → dep ∈ D) →
  sched_inv graph before c0 D executed inst r →
  wp (runSyncSteps l stepInstMap executed inst)
     (λ out r', same_frame inst out.2 ∧ sched_inv graph before c0 D out.1.2 out.2 r') r.
Proof.
  revert executed inst r.
  induction l as [|stepDef l IH]; intros executed inst r Hmap Hdeps Hinv; simpl.
  { apply wp_ret. split; [by split|done]. }
  destruct (stepInstMap !! sd_ID stepDef ≫= (λ p, (p,.) <$> deref inst p))
    as [[p stepInst]|] eqn:Hlook; [|done].
  apply stepInst_lookup in Hlook as [Hsim Hp].
  pose proof (map_points_StepID _ _ _ _ _ Hmap Hsim Hp) as Hid.
  assert (Hdeps' : ∀ stepDef0, stepDef0 ∈ l →
            ∀ dep, dep ∈ default [] (graph !! sd_ID stepDef0) → dep ∈ D).
  { intros sd Hsd. apply Hdeps. by apply list_elem_of_further. }
  assert (Hdep0 : ∀ dep, dep ∈ default [] (graph !! sd_ID stepDef) → dep ∈ D).
  { apply Hdeps, list_elem_of_here. }
  assert (Hrest : ∀ inst1 r1, same_frame inst inst1 →
    sched_inv graph before c0 D ({[sd_ID stepDef]} ∪ executed) inst1 r1 →
    wp (runSyncSteps l stepInstMap ({[sd_ID stepDef]} ∪ executed) inst1)
       (λ out r', same_frame inst out.2 ∧ sched_inv graph before c0 D out.1.2 out.2 r') r1).
  { intros inst1 r1 Hf1 Hinv1.
    eapply wp_mono; [|apply IH; [by eapply map_points_frame|done|done]].
    intros out r' [Hf Hinv']. split; [by eapply same_frame_trans|done]. }
  case_bool_decide as Hdone.
  { apply Hrest; [by split|].
    eapply (sched_inv_step _ _ _ _ _ _ _ _ _ _ _ ∅ 0); eauto.
    - apply step_run_refl.
    - simpl. by rewrite app_nil_r.
    - right. by apply Completed_IsCompleted. }
  apply wp_bind. eapply wp_mono; [|by eapply executeStep_sched].
  intros [err inst1] r1 (Hpost & Hinv1 & Hinv1s). simpl in *.
  destruct Hpost as ([Hf1 _] & _).
  destruct err as [err|].
  - destruct (sd_Required stepDef).
    + apply wp_ret. split; [done|]. simpl.
      eapply sched_inv_executed; [exact Hinv1|]. set_solver.
    + apply wp_quiet; [apply quiet_sm_UpdateStepStatus|].
      intros _ r2 (Hc2 & _). apply Hrest.
      * eapply same_frame_trans; [exact Hf1|]. by apply step_run_assign.
      * by eapply sched_inv_quiet.
  - by apply Hrest.
Qed.

Lemma runAsyncSteps_sched graph before c0 D l stepInstMap errors executed inst r :
  map_points stepInstMap inst →
  (∀ stepDef, stepDef ∈ l →
     ∀ dep, dep ∈ default [] (graph !! sd_ID stepDef) → dep ∈ D) →
  sched_inv graph before c0 D executed inst r →
  wp (runAsyncSteps l stepInstMap errors executed inst)
     (λ out r', same_frame inst out.2 ∧ sched_inv graph before c0 D out.1.2 out.2 r') r.
Proof.
  revert errors executed inst r.
  induction l as [|stepDef l IH]; intros errors executed inst r Hmap Hdeps Hinv; simpl.
  { apply wp_ret. split; [by split|done]. }
  destruct (stepInstMap !! sd_ID stepDef ≫= (λ p, (p,.) <$> deref inst p))
    as [[p stepInst]|] eqn:Hlook; [|done].
  apply stepInst_lookup in Hlook as [Hsim Hp].
  pose proof (map_points_StepID _ _ _ _ _ Hmap Hsim Hp) as Hid.
  assert (Hdeps' : ∀ stepDef0, stepDef0 ∈ l →
            ∀ dep, dep ∈ default [] (graph !! sd_ID stepDef0) → dep ∈ D).
  { intros sd Hsd. apply Hdeps. by apply list_elem_of_further. }
  assert (Hdep0 : ∀ dep, dep ∈ default [] (graph !! sd_ID stepDef) → dep ∈ D).
  { apply Hdeps, list_elem_of_here. }
  assert (Hrest : ∀ errors1 inst1 r1, same_frame inst inst1 →
    sched_inv graph before c0 D ({[sd_ID stepDef]} ∪ executed) inst1 r1 →
    wp (runAsyncSteps l stepInstMap errors1 ({[sd_ID stepDef]} ∪ executed) inst1)
       (λ out r', same_frame inst out.2 ∧ sched_inv graph before c0 D out.1.2 out.2 r') r1).
  { intros errors1 inst1 r1 Hf1 Hinv1.
    eapply wp_mono; [|apply IH; [by eapply map_points_frame|done|done]].
    intros out r' [Hf Hinv']. split; [by eapply same_frame_trans|done]. }
  case_bool_decide as Hdone.
  { apply Hrest; [by split|].
    eapply (sched_inv_step _ _ _ _ _ _ _ _ _ _ _ ∅ 0); eauto.
    - apply step_run_refl.
    - simpl. by rewrite app_nil_r.
    - right. by apply Completed_IsCompleted. }
  apply wp_bind. eapply wp_mono; [|by eapply executeStep_sched].
  intros [err inst1] r1 (Hpost & Hinv1 & Hinv1s). simpl in *.
  destruct Hpost as ([Hf1 _] & _).
  destruct err as [err|].
  - destruct (sd_Required stepDef).
    + by apply Hrest.
    + apply wp_quiet; [apply quiet_sm_UpdateStepStatus|].
      intros _ r2 (Hc2 & _). apply Hrest.
      * eapply same_frame_trans; [exact Hf1|]. by apply step_run_assign.
      * by eapply sched_inv_quiet.
  - by apply Hrest.
Qed.

(** The steps of a wave are ready steps. *)
Lemma wavePlan_ready workflow executed graph stepDef :
  stepDef ∈ (wavePlan workflow executed graph).1
  ∨ stepDef ∈ (wavePlan workflow executed graph).2 →
  ready executed graph stepDef.
Proof.
  unfold wavePlan. simpl. rewrite !list_elem_of_filter, sort_Slice_perm.
  rewrite findReadySteps_filter, list_elem_of_filter.
  tauto.
Qed.

Lemma executeStepsLoop_sched graph before c0 fuel workflow stepInstMap executed inst r :
  map_points stepInstMap inst →
  sched_inv graph before c0 executed executed inst r →
  wp (executeStepsLoop fuel workflow graph stepInstMap executed inst)
     (λ _ r', ∃ cs, rt_calls r' = c0 ++ cs ∧ dependency_ordered graph before cs) r.
Proof.
  revert executed inst r.
  induction fuel as [|fuel IH]; intros executed inst r Hmap Hinv; [done|].
  assert (Hfin : ∀ D executed1 inst1 r1, sched_inv graph before c0 D executed1 inst1 r1 →
            ∃ cs, rt_calls r1 = c0 ++ cs ∧ dependency_ordered graph before cs).
  { intros D executed1 inst1 r1 (cs & ? & ? & _). by exists cs. }
  cbn [executeStepsLoop].
  case_bool_decide as Hready; [apply wp_ret; by eapply Hfin|].
  pose proof (wavePlan_ready workflow executed graph) as Hplan.
  destruct (wavePlan workflow executed graph) as [syncSteps asyncSteps]. simpl in Hplan.
  assert (Hdeps : ∀ stepDef, stepDef ∈ syncSteps ∨ stepDef ∈ asyncSteps →
            ∀ dep, dep ∈ default [] (graph !! sd_ID stepDef) → dep ∈ executed).
  { intros sd Hsd dep Hdep. destruct (Hplan sd Hsd) as [_ Hall].
    rewrite Forall_forall in Hall. by apply Hall. }
  apply wp_bind.
  eapply wp_mono; [|apply (runSyncSteps_sched graph before c0 executed); [done| |done]].
  2:{ intros sd Hsd. apply Hdeps. by left. }
  intros [[err executed1] inst1] r1 [Hf1 Hinv1]. simpl in *.
  destruct err as [err|]; [apply wp_ret; by eapply Hfin|].
  apply wp_bind.
  eapply (wp_mono _ (λ out r', same_frame inst out.2
                               ∧ sched_inv graph before c0 executed out.1.2 out.2 r')).
  2:{ case_bool_decide.
      - eapply wp_mono;
          [|apply (runAsyncSteps_sched graph before c0 executed);
            [by eapply map_points_frame| |done]].
        + intros out r' [Hf Hinv']. split; [by eapply same_frame_trans|done].
        + intros sd Hsd. apply Hdeps. by right.
      - by apply wp_ret. }
  intros [[errors executed2] inst2] r2 [Hf2 Hinv2]. simpl in *.
  destruct errors; [|apply wp_ret; by eapply Hfin].
  case_bool_decide; [apply wp_ret; by eapply Hfin|].
  apply IH; [by eapply map_points_frame|by eapply sched_inv_D].
Qed.


Lemma terminalIDs_elem inst q s :
  wi_Steps inst !! q = Some s → si_IsCompleted s = true → si_StepID s ∈ terminalIDs inst.
Proof.
  intros Hs Hterm. unfold terminalIDs.
  apply elem_of_list_to_set, list_elem_of_fmap. exists s. split; [done|].
  apply list_elem_of_filter. split; [done|]. by eapply list_elem_of_lookup_2.
Qed.

(** [executeSteps] calls the executors in an order that respects the
    dependency graph it is given: every call to a step comes after a call
    to each of the dependencies listed for it, except for dependencies
    whose step instance was already terminal when [executeSteps] began. *)
Lemma executeSteps_order workflow inst graph r :
  wp (executeSteps workflow inst graph)
     (λ _ r', ∃ cs, rt_calls r' = rt_calls r ++ cs
                    ∧ dependency_ordered graph (terminalIDs inst) cs) r.
Proof.
  unfold executeSteps.
  apply executeStepsLoop_sched; [apply buildStepInstMap_points|].
  exists []. split_and!.
  - by rewrite app_nil_r.
  - intros i id input Hi. by rewrite lookup_nil in Hi.
  - set_solver.
  - set_solver.
  - intros q s Hs Hterm. apply elem_of_union_l. by eapply terminalIDs_elem.
Qed.

Lemma quiet_initSteps l i inst : quiet_op (initSteps l i inst).
Proof.
  revert i inst. induction l as [|stepDef l IH]; intros i inst; simpl.
  { apply quiet_ret. }
  apply quiet_bind; [apply quiet_uuid_New|]. intros id.
  apply quiet_bind; [apply quiet_store_op|]. intros [err|]; [apply quiet_ret|apply IH].
Qed.

(** The step instances [executeWorkflow] creates are pending. *)
Lemma initSteps_pending l i inst r :
  wp (initSteps l i inst)
     (λ out _, match out with
               | inl inst' =>
                   ∃ news, inst' = wi_with_Steps (wi_Steps inst ++ news) inst
                           ∧ Forall (λ s, si_Status s = StepStatusPending) news
               | inr _ => True
               end) r.
Proof.
  revert i inst r. induction l as [|stepDef l IH]; intros i inst r; simpl.
  { apply wp_ret. exists []. split; [|done]. destruct inst; simpl. by rewrite app_nil_r. }
  apply wp_quiet; [apply quiet_uuid_New|]. intros id r1 _.
  apply wp_quiet; [apply quiet_store_op|]. intros [err|] r2 _; [by apply wp_ret|].
  eapply wp_mono; [|apply IH].
  intros [inst'|] r' Hpost; [|done].
  destruct Hpost as (news & -> & Hnews). simpl.
  eexists (_ :: news). split; [by rewrite <- app_assoc|].
  by apply Forall_cons.
Qed.

Lemma terminalIDs_pending inst news :
  Forall (λ s, si_Status s = StepStatusPending) news →
  terminalIDs (wi_with_Steps (wi_Steps inst ++ news) inst) = terminalIDs inst.
Proof.
  intros Hnews. unfold terminalIDs. simpl. rewrite filter_app.
  assert (Hnil : filter (λ s, si_IsCompleted s = true) news = []).
  { induction Hnews as [|s news Hs _ IH]; [done|].
    rewrite filter_cons, decide_False; [done|].
    unfold si_IsCompleted. by rewrite Hs. }
  by rewrite Hnil, app_nil_r.
Qed.

Lemma terminalIDs_Status inst status :
  terminalIDs (wi_with_Status status inst) = terminalIDs inst.
Proof. done. Qed.

(** Quiet steps keep what has been established of the calls. *)
Ltac ostep :=
  apply wp_quiet;
  [ first [ apply quiet_time_Now | apply quiet_emitEvent | apply quiet_store_op
          | apply quiet_uuid_New ]
  | let r' := fresh "r" in
    let Hq := fresh "Hq" in
    intros ? r' Hq; destruct Hq as (Hq & _) ].

Lemma executeWorkflow_order workflow inst r :
  wp (executeWorkflow workflow inst)
     (λ _ r', ∃ cs, rt_calls r' = rt_calls r ++ cs
                    ∧ dependency_ordered (buildDependencyGraph workflow)
                        (terminalIDs inst) cs) r.
Proof.
  assert (Hnil : ∀ r', rt_calls r' = rt_calls r →
            ∃ cs, rt_calls r' = rt_calls r ++ cs
                  ∧ dependency_ordered (buildDependencyGraph workflow) (terminalIDs inst) cs).
  { intros r' Hc. exists []. split; [by rewrite app_nil_r|].
    intros i id input Hi. by rewrite lookup_nil in Hi. }
  unfold executeWorkflow.
  ostep. ostep.
  apply wp_quiet; [apply quiet_store_op|]. intros [err|] r2 (Hq2 & _);
    [apply wp_ret, Hnil; congruence|].
  assert (Hc : rt_calls r2 = rt_calls r) by congruence. clear Hq Hq0 Hq2.
  apply wp_bind.
  eapply (wp_mono _ (λ out r', rt_calls r' = rt_calls r
                      ∧ match out with
                        | inl inst' => terminalIDs inst' = terminalIDs inst
                        | inr _ => True
                        end)).
  2:{ case_bool_decide.
      - eapply wp_mono; [|apply (wp_conj _ _ _ _ (quiet_initSteps _ _ _ r2)
                                    (initSteps_pending _ _ _ r2))].
        intros [inst'|] r' [(Hq & _) Hpost]; [|split; [congruence|done]].
        split; [congruence|]. destruct Hpost as (news & -> & Hnews).
        by rewrite terminalIDs_pending.
      - by apply wp_ret. }
  clear r0 r1 r2 Hc. intros [inst1|err] r1 [Hc Hterm]; [|apply wp_ret; by apply Hnil].
  apply wp_bind. eapply wp_mono; [|apply executeSteps_order].
  intros [err inst2] r2 (cs & Hcs & Hord).
  assert (Hfin : ∀ r', rt_calls r' = rt_calls r2 →
            ∃ cs, rt_calls r' = rt_calls r ++ cs
                  ∧ dependency_ordered (buildDependencyGraph workflow) (terminalIDs inst) cs).
  { intros r' Hc'. exists cs. rewrite Hc', Hcs, Hc, <- Hterm. done. }
  destruct err as [err|].
  - repeat ostep. apply wp_ret, Hfin. congruence.
  - ostep. ostep.
    apply wp_quiet; [apply quiet_store_op|]. intros [err|] r5 (Hq5 & _);
      [apply wp_ret, Hfin; congruence|].
    repeat ostep. apply wp_ret, Hfin. congruence.
Qed.

(** Dependencies before dependents. In a run of [StartWorkflow], every call
    to the executor of a step comes after a call to the executor of each of
    its dependencies (with distinct step identifiers the graph lists, for a
    step, its own dependencies). A dependency
    that has failed without being required counts as called: its
    dependents run all the same. *)
Theorem StartWorkflow_dependency_order ctx workflowID input metadata workflow r out r' :
  rt_workflows r !! workflowID = Some workflow →
  StartWorkflow ctx workflowID input metadata r = Val out r' →
  ∃ cs, rt_calls r' = rt_calls r ++ cs
        ∧ dependency_ordered (buildDependencyGraph workflow) ∅ cs.
Proof.
  intros Hdef Hrun.
  cut (wp (StartWorkflow ctx workflowID input metadata)
          (λ _ r', ∃ cs, rt_calls r' = rt_calls r ++ cs
                         ∧ dependency_ordered (buildDependencyGraph workflow) ∅ cs) r).
  { intros Hwp. exact (wp_val _ _ _ _ _ Hwp Hrun). }
  clear Hrun. unfold StartWorkflow, GetWorkflowDef.
  apply wp_bind, wp_get_rt. rewrite Hdef. apply wp_ret. simpl.
  apply wp_quiet; [apply quiet_uuid_New|]. intros id r1 (Hq1 & _).
  apply wp_quiet; [apply quiet_time_Now|]. intros startedAt r2 (Hq2 & _).
  apply wp_quiet.
  { unfold getTraceID. repeat case_match; first [apply quiet_ret|apply quiet_uuid_New]. }
  intros traceID r3 (Hq3 & _).
  apply wp_quiet.
  { unfold getCorrelationID.
    repeat case_match; first [apply quiet_ret|apply quiet_uuid_New]. }
  intros correlationID r4 (Hq4 & _).
  apply wp_quiet.
  { unfold getBusinessID. repeat case_match; apply quiet_ret. }
  intros businessID r5 (Hq5 & _).
  apply wp_quiet; [apply quiet_store_op|]. intros [err|] r6 (Hq6 & _).
  { apply wp_ret. exists []. split; [rewrite app_nil_r; congruence|].
    intros i id' input' Hi. by rewrite lookup_nil in Hi. }
  apply wp_quiet; [apply quiet_emitEvent|]. intros _ r7 (Hq7 & _).
  eapply wp_mono; [|apply executeWorkflow_order].
  intros _ r8 (cs & Hcs & Hord). exists cs. split; [|done].
  rewrite Hcs. congruence.
Qed.

End Order.

Lemma StartWorkflow_dependency_order_witness :
  ∃ out r',
    StartWorkflow ∅ "W" ∅ ∅ Examples.s2_start = Val out r'
    ∧ ∃ cs, rt_calls r' = rt_calls Examples.s2_start ++ cs
            ∧ dependency_ordered (buildDependencyGraph Scenario.s2_workflow) ∅ cs.
Proof.
  eexists _, _. split; [vm_compute; reflexivity|].
  eapply (StartWorkflow_dependency_order ∅ "W" ∅ ∅ Scenario.s2_workflow Examples.s2_start).
  - reflexivity.
  - vm_compute; reflexivity.
Defined.

(** ** Runs without concurrent goroutines *)

Section OneGoroutine.
Context {W : Type}.
Implicit Types (r : @Runtime W) (workflow : @WorkflowDefinition W).

Lemma length_filter_filter {A} (P Q : A → Prop) `{∀ x, Decision (P x)} `{∀ x, Decision (Q x)}
    (l : list A) :
  (length (filter P (filter Q l)) ≤ length (filter P l))%nat.
Proof.
  induction l as [|x l IH]; [done|].
  rewrite !filter_cons. repeat case_decide; simpl; rewrite ?filter_cons;
    repeat case_decide; simpl; try done; lia.
Qed.

(** With at most one asynchronous step in the definition, the parallel
    part of every wave has at most one step: no two goroutines run at the
    same time. *)
Lemma at_most_one_async_wave workflow executed graph :
  at_most_one_async workflow →
  (length (wavePlan workflow executed graph).2 ≤ 1)%nat.
Proof.
  unfold at_most_one_async, wavePlan. simpl. intros Hone.
  rewrite (sort_Slice_perm (findReadySteps workflow executed graph)).
  rewrite findReadySteps_filter.
  etransitivity; [apply length_filter_filter|done].
Qed.

(** C4, as amended. When [executeWorkflow] returns a result whose instance
    is failed, some required step of the definition has a step instance in
    that result with status failed and an error message, and the error
    message of the workflow, in the result and in the store, is that
    step's message wrapped as
    ["step <id> failed after <n> attempts: <message>"], [n] being the
    attempts the step's policy allows. This is for a definition with at
    most one asynchronous step, of which every wave starts at most one
    goroutine: the steps are then executed one after the other, as
    [runAsyncSteps] has it. *)
Theorem executeWorkflow_failed_step workflow
    (instance : WorkflowInstance) (r r' : @Runtime W)
    (res : WorkflowResult) (err : option string) :
  at_most_one_async workflow →
  executeWorkflow workflow instance r = Val (Some res, err) r' →
  wi_Status (wr_WorkflowInst res) = WorkflowStatusFailed →
  (∀ executed graph, (length (wavePlan workflow executed graph).2 ≤ 1)%nat)
  ∧ ∃ stepDef stepInst msg stored,
      stepDef ∈ wd_Steps workflow
      ∧ sd_Required stepDef = true
      ∧ stepInst ∈ wi_Steps (wr_WorkflowInst res)
      ∧ si_StepID stepInst = sd_ID stepDef
      ∧ si_Status stepInst = StepStatusFailed
      ∧ si_Error stepInst = Some msg
      ∧ wi_Error (wr_WorkflowInst res)
        = Some (stepFailedError (sd_ID stepDef) (maxAttempts stepDef) msg)
      ∧ workflows (rt_stateManager r') !! wi_ID instance = Some stored
      ∧ wi_Status stored = WorkflowStatusFailed
      ∧ wi_Error stored = wi_Error (wr_WorkflowInst res).
Proof.
  intros Hone Hrun Hfailed.
  split; [intros executed graph; by apply at_most_one_async_wave|].
  pose proof (executeWorkflow_spec workflow instance (λ _, True) (rt_workflows r) r
                update_closed_True) as Hspec.
  eapply wp_val in Hspec; [|by split|exact Hrun].
  destruct Hspec as [_ Hpost]. specialize (Hpost res eq_refl). simpl in Hpost.
  destruct Hpost as (_ & _ & _ & stored & Hstored & _ & Hst & Hcase).
  destruct err as [e|].
  - destruct Hcase as (_ & _ & Herr & Hserr & stepDef & Hin & Hreq & Hfail).
    destruct Hfail as (p & stepInst & msg & Hp & Hid & Hstatus & Hmsg & ->).
    exists stepDef, stepInst, msg, stored. split_and!; try done.
    + by eapply list_elem_of_lookup_2.
    + congruence.
    + congruence.
  - destruct Hcase as (_ & Hcompleted & _). congruence.
Qed.

End OneGoroutine.

Lemma executeWorkflow_failed_step_witness :
  ∃ stepDef stepInst msg stored,
    stepDef ∈ wd_Steps Scenario.s5_workflow
    ∧ sd_Required stepDef = true
    ∧ stepInst ∈ wi_Steps (wr_WorkflowInst (Scenario.result_of Scenario.s5_exec))
    ∧ si_StepID stepInst = sd_ID stepDef
    ∧ si_Status stepInst = StepStatusFailed
    ∧ si_Error stepInst = Some msg
    ∧ wi_Error (wr_WorkflowInst (Scenario.result_of Scenario.s5_exec))
      = Some (stepFailedError (sd_ID stepDef) (maxAttempts stepDef) msg)
    ∧ workflows (rt_stateManager (Scenario.runtime_of Scenario.s5_exec Scenario.s5_saved))
        !! wi_ID Scenario.s5_instance = Some stored
    ∧ wi_Status stored = WorkflowStatusFailed
    ∧ wi_Error stored = wi_Error (wr_WorkflowInst (Scenario.result_of Scenario.s5_exec)).
Proof.
  apply (executeWorkflow_failed_step Scenario.s5_workflow Scenario.s5_instance
           Scenario.s5_saved (Scenario.runtime_of Scenario.s5_exec Scenario.s5_saved)
           (Scenario.result_of Scenario.s5_exec)
           (Some "step S failed after 1 attempts: boom")).
  - unfold at_most_one_async. vm_compute. lia.
  - vm_compute. reflexivity.
  - vm_compute. reflexivity.
Defined.

(** ** The outcome of a run *)

Section Outcome.
Context {W : Type}.
Implicit Types (r : @Runtime W) (workflow : @WorkflowDefinition W).

(** [StartWorkflow] of a registered definition with at most one
    asynchronous step (every wave then starts at most one goroutine, and
    the steps are executed one after the other, as [runAsyncSteps] has it)
    whose steps may each be attempted at least once returns a result, when
    the executors return; and the result is either a
    success, with a nil error and the instance completed, or a failure,
    with the error of a required step that has failed and the instance
    failed; the store holds the instance under the same status; the
    instance has one step instance per step of the definition, in the order
    of declaration. A definition with no required step never fails. *)
Theorem StartWorkflow_outcome ctx workflowID input metadata r workflow :
  rt_workflows r !! workflowID = Some workflow →
  at_most_one_async workflow →
  (∀ stepDef, stepDef ∈ wd_Steps workflow → 1 <= maxAttempts stepDef) →
  (∀ executed graph, (length (wavePlan workflow executed graph).2 ≤ 1)%nat)
  ∧ ∃ res err r',
      StartWorkflow ctx workflowID input metadata r = Val (Some res, err) r'
      ∧ wr_Success res = bool_decide (err = None)
      ∧ wi_Status (wr_WorkflowInst res)
        = (if err is Some _ then WorkflowStatusFailed else WorkflowStatusCompleted)
      ∧ si_StepID <$> wi_Steps (wr_WorkflowInst res) = sd_ID <$> wd_Steps workflow
      ∧ (∃ stored,
           GetWorkflow (rt_stateManager r') (wi_ID (wr_WorkflowInst res)) = inl stored
           ∧ wi_Status stored = wi_Status (wr_WorkflowInst res))
      ∧ (∀ e, err = Some e →
           wi_Error (wr_WorkflowInst res) = Some e
           ∧ ∃ stepDef, stepDef ∈ wd_Steps workflow ∧ sd_Required stepDef = true
                        ∧ failed_step stepDef (wr_WorkflowInst res) e)
      ∧ (Forall (λ stepDef, sd_Required stepDef = false) (wd_Steps workflow) → err = None).
Proof.
  intros Hdef Hone Hmax.
  split; [intros executed graph; by apply at_most_one_async_wave|].
  destruct (StartWorkflow_returns ctx workflowID input metadata r workflow Hdef Hmax)
    as (res & err & r' & Hrun).
  exists res, err, r'. split; [done|].
  pose proof (StartWorkflow_spec ctx workflowID input metadata r) as Hspec.
  eapply wp_val in Hspec; [|exact Hrun].
  destruct (Hspec res eq_refl) as (workflow' & instance & Hdef' & Hreg & Hwid & Hnil & Hpost).
  rewrite Hdef in Hdef'. injection Hdef' as <-.
  destruct (Hpost res eq_refl) as (Hid & _ & Hsteps & stored & Hstored & _ & Hst & Hcase).
  simpl in Hcase.
  assert (Hget : ∃ stored0,
            GetWorkflow (rt_stateManager r') (wi_ID (wr_WorkflowInst res)) = inl stored0
            ∧ wi_Status stored0 = wi_Status (wr_WorkflowInst res)).
  { exists stored. split; [|done]. unfold GetWorkflow.
    by rewrite Hid, Hstored, deepCopyWorkflow_id. }
  destruct err as [e|].
  - destruct Hcase as (Hsuccess & Hfailed & Herr & _ & stepDef & Hin & Hreq & Hfail).
    split_and!; try done; [by apply Hsteps| |].
    + intros e' [= <-]. split; [done|]. by exists stepDef.
    + intros Hall. rewrite Forall_forall in Hall. specialize (Hall stepDef Hin). congruence.
  - destruct Hcase as (Hsuccess & Hcompleted & _).
    split_and!; try done. by apply Hsteps.
Qed.

End Outcome.

Lemma StartWorkflow_outcome_witness :
  ∃ res r',
    StartWorkflow ∅ "W" ∅ ∅ Examples.optional_start = Val (Some res, None) r'
    ∧ wr_Success res = true
    ∧ wi_Status (wr_WorkflowInst res) = WorkflowStatusCompleted.
Proof.
  destruct (StartWorkflow_outcome ∅ "W" ∅ ∅ Examples.optional_start
              Examples.optional_workflow)
    as (_ & res & err & r' & Hrun & Hsuccess & Hstatus & _ & _ & _ & Hoptional).
  - reflexivity.
  - unfold at_most_one_async. vm_compute. lia.
  - intros stepDef Hin. vm_compute in Hin.
    repeat (apply elem_of_cons in Hin as [->|Hin]; [vm_compute; discriminate|]).
    by apply elem_of_nil in Hin.
  - assert (Herr : err = None).
    { apply Hoptional. vm_compute. repeat constructor. }
    subst err. exists res, r'. split_and!; assumption.
Defined.

(** ** Definitions in which no step is ever ready *)

Section Blocked.
Context {W : Type}.
Implicit Types (r : @Runtime W) (workflow : @WorkflowDefinition W).

Lemma twp_ret {A} (a : A) (Q : A → @Runtime W → Prop) r : Q a r → twp (mret a) Q r.
Proof. intros HQ. by exists a, r. Qed.

Lemma twp_bind {A B} (m : @M W A) (f : A → @M W B) (Q : B → @Runtime W → Prop) r :
  twp m (λ a r', twp (f a) Q r') r → twp (m ≫= f) Q r.
Proof.
  intros (a & r1 & Hrun & b & r2 & Hrun' & HQ). exists b, r2. split; [|done].
  unfold mbind, M_bind. by rewrite Hrun.
Qed.

Lemma keeps_wf_refl r : keeps_wf r r.
Proof. done. Qed.

Lemma keeps_wf_trans r1 r2 r3 : keeps_wf r1 r2 → keeps_wf r2 r3 → keeps_wf r1 r3.
Proof. intros [Hq H] [Hq' H']. split; [by eapply quiet_trans|]. auto. Qed.

Lemma twp_wf {A B} (m : @M W A) (f : A → @M W B) (Q : B → @Runtime W → Prop) r :
  returns_wf m → (∀ a r', keeps_wf r r' → twp (f a) Q r') → twp (m ≫= f) Q r.
Proof.
  intros Hm Hf. apply twp_bind. destruct (Hm r) as (a & r' & Hrun & Hk).
  exists a, r'. split; [done|]. by apply Hf.
Qed.

Lemma returns_wf_ret {A} (a : A) : returns_wf (mret a : @M W A).
Proof. intros r. by exists a, r. Qed.

Lemma returns_wf_bind {A B} (m : @M W A) (f : A → @M W B) :
  returns_wf m → (∀ a, returns_wf (f a)) → returns_wf (m ≫= f).
Proof.
  intros Hm Hf r. destruct (Hm r) as (a & r1 & Hrun & Hk).
  destruct (Hf a r1) as (b & r2 & Hrun' & Hk').
  exists b, r2. split; [|by eapply keeps_wf_trans].
  unfold mbind, M_bind. by rewrite Hrun.
Qed.

Lemma returns_wf_keeping {A} (m : @M W A) : returns_keeping m → returns_wf m.
Proof.
  intros Hm r. destruct (Hm r) as (a & r' & Hrun & Hq & Hw & _).
  exists a, r'. split; [done|]. split; [done|]. intros id. by rewrite Hw.
Qed.

Lemma returns_wf_SaveStep step : returns_wf (@store_op W (λ m, SaveStep m step)).
Proof. intros r. by eexists _, _. Qed.

Lemma returns_wf_UpdateWorkflowStatus now id status :
  returns_wf (@store_op W (λ m, UpdateWorkflowStatus now m id status)).
Proof.
  intros r. unfold store_op, UpdateWorkflowStatus.
  destruct (workflows (rt_stateManager r) !! id) as [w|] eqn:Hw; simpl.
  - eexists _, _. split; [reflexivity|]. split; [done|]. simpl. intros id' Hid'.
    rewrite lookup_insert. case_decide; [by eexists|done].
  - eexists _, _. split; [reflexivity|]. split; [done|]. by destruct r as [[]].
Qed.

Lemma twp_UpdateWorkflowStatus_stored {B} now id status (f : option string → @M W B)
    (Q : B → @Runtime W → Prop) r :
  is_Some (workflows (rt_stateManager r) !! id) →
  (∀ r', keeps_wf r r' → twp (f None) Q r') →
  twp (store_op (λ m, UpdateWorkflowStatus now m id status) ≫= f) Q r.
Proof.
  intros [w Hw] Hf. apply twp_bind. unfold twp at 1, store_op, UpdateWorkflowStatus.
  rewrite Hw. simpl. eexists _, _. split; [reflexivity|]. apply Hf.
  split; [done|]. simpl. intros id' Hid'.
  rewrite lookup_insert. case_decide; [by eexists|done].
Qed.

Lemma twp_SaveWorkflow {B} instance (f : option string → @M W B)
    (Q : B → @Runtime W → Prop) r :
  (∀ r', keeps_wf r r' → is_Some (workflows (rt_stateManager r') !! wi_ID instance) →
         twp (f None) Q r') →
  twp (store_op (λ m, SaveWorkflow m instance) ≫= f) Q r.
Proof.
  intros Hf. apply twp_bind. unfold twp at 1, store_op, SaveWorkflow. simpl.
  eexists _, _. split; [reflexivity|]. apply Hf.
  - split; [done|]. simpl. intros id' Hid'.
    rewrite lookup_insert. case_decide; [by eexists|done].
  - simpl. rewrite lookup_insert_eq. by eexists.
Qed.

(** The creation of the step instances always succeeds with the in-memory
    store: one pending instance per step. *)
Lemma initSteps_returns (l : list (@StepDefinition W)) i inst r :
  ∃ news r',
    initSteps l i inst r = Val (inl (wi_with_Steps (wi_Steps inst ++ news) inst)) r'
    ∧ keeps_wf r r'
    ∧ length news = length l
    ∧ Forall (λ s, si_Status s = StepStatusPending) news.
Proof.
  revert i inst r. induction l as [|stepDef l IH]; intros i inst r; simpl.
  { exists [], r. split_and!; try done. destruct inst; simpl. by rewrite app_nil_r. }
  unfold mbind, M_bind. simpl.
  match goal with
  | |- context [initSteps l ?i' ?inst' ?r'] => destruct (IH i' inst' r') as (news & r2 & Hrun & Hk & Hlen & Hp)
  end.
  rewrite Hrun. eexists (_ :: news), r2. split_and!.
  - simpl. by rewrite <- app_assoc.
  - destruct Hk as [Hq Hw]. split; [done|]. intros id Hid. by apply Hw.
  - simpl. by rewrite Hlen.
  - by apply Forall_cons.
Qed.

(** With no ready step the loop of [executeSteps] ends at once. *)
Lemma executeSteps_blocked workflow inst graph r :
  findReadySteps workflow ∅ graph = [] →
  executeSteps workflow inst graph r = Val (None, inst) r.
Proof.
  intros Hnone. unfold executeSteps. cbn [executeStepsLoop].
  rewrite Hnone. by rewrite bool_decide_true.
Qed.

Lemma findReadySteps_blocked workflow graph :
  (∀ stepDef, stepDef ∈ wd_Steps workflow → default [] (graph !! sd_ID stepDef) ≠ []) →
  findReadySteps workflow ∅ graph = [].
Proof.
  intros Hdeps. rewrite findReadySteps_filter.
  destruct (filter _ _) as [|stepDef l] eqn:Hf; [done|]. exfalso.
  assert (Hin : stepDef ∈ filter (ready ∅ graph) (wd_Steps workflow)) by (rewrite Hf; left).
  apply list_elem_of_filter in Hin as [[_ Hall] Hin].
  specialize (Hdeps stepDef Hin).
  destruct (default [] (graph !! sd_ID stepDef)) as [|dep deps]; [done|].
  apply Forall_cons in Hall as [Hdep _]. set_solver.
Qed.

Ltac tstep_wf :=
  apply twp_wf;
  [ first [ apply returns_wf_keeping;
            first [ apply returns_keeping_time_Now | apply returns_keeping_uuid_New
                  | apply returns_keeping_emitEvent | apply returns_keeping_getTraceID
                  | apply returns_keeping_getCorrelationID
                  | apply returns_keeping_getBusinessID ] ]
  | let r' := fresh "r" in
    let Hk := fresh "Hk" in
    intros ? r' Hk ].

Ltac chain_wf :=
  repeat (eapply keeps_wf_trans; [eassumption|]); apply keeps_wf_refl.

(** A definition in which every step has a dependency listed, a cyclic one
    for instance, is run to a successful end without any step being run:
    [StartWorkflow] returns success with the instance completed, no
    executor has been called, and every step instance is still pending. *)
Theorem StartWorkflow_blocked ctx workflowID input metadata r workflow :
  rt_workflows r !! workflowID = Some workflow →
  (∀ stepDef, stepDef ∈ wd_Steps workflow →
     default [] (buildDependencyGraph workflow !! sd_ID stepDef) ≠ []) →
  ∃ res r',
    StartWorkflow ctx workflowID input metadata r = Val (Some res, None) r'
    ∧ wr_Success res = true
    ∧ wi_Status (wr_WorkflowInst res) = WorkflowStatusCompleted
    ∧ rt_calls r' = rt_calls r
    ∧ length (wi_Steps (wr_WorkflowInst res)) = length (wd_Steps workflow)
    ∧ Forall (λ s, si_Status s = StepStatusPending) (wi_Steps (wr_WorkflowInst res)).
Proof.
  intros Hdef Hdeps.
  cut (twp (StartWorkflow ctx workflowID input metadata)
         (λ out r', ∃ res, out = (Some res, None)
            ∧ wr_Success res = true
            ∧ wi_Status (wr_WorkflowInst res) = WorkflowStatusCompleted
            ∧ rt_calls r' = rt_calls r
            ∧ length (wi_Steps (wr_WorkflowInst res)) = length (wd_Steps workflow)
            ∧ Forall (λ s, si_Status s = StepStatusPending)
                (wi_Steps (wr_WorkflowInst res))) r).
  { intros (out & r' & Hrun & res & -> & H). by exists res, r'. }
  unfold StartWorkflow.
  apply twp_bind. exists (inl workflow), r. split.
  { unfold GetWorkflowDef, mbind, M_bind, get_rt. by rewrite Hdef. }
  do 5 tstep_wf.
  apply twp_SaveWorkflow. intros r5 Hk4 Hstored. cbn [wi_ID] in Hstored.
  tstep_wf.
  assert (Hstart : keeps_wf r r6) by chain_wf.
  assert (Hst : is_Some (workflows (rt_stateManager r6) !! a)).
  { destruct Hk5 as [_ Hw]. by apply Hw. }
  clear Hk Hk0 Hk1 Hk2 Hk3 Hk4 Hk5 Hstored r0 r1 r2 r3 r4 r5.
  unfold executeWorkflow.
  do 2 tstep_wf. cbn [wi_ID wi_with_Status].
  apply twp_UpdateWorkflowStatus_stored.
  { assert (Hk1 : keeps_wf r6 r1) by chain_wf. by apply Hk1. }
  intros r2 Hk1.
  rewrite bool_decide_true by done.
  apply twp_bind.
  match goal with
  | |- twp (initSteps ?l ?i ?inst) _ _ =>
      destruct (initSteps_returns l i inst r2) as (news & r3 & Hrun & Hk2 & Hlen & Hpending)
  end.
  eexists _, r3. split; [exact Hrun|].
  apply twp_bind. eexists _, r3. split.
  { apply executeSteps_blocked. by apply findReadySteps_blocked. }
  do 2 tstep_wf. cbn [wi_ID wi_with_Status wi_with_CompletedAt wi_with_Steps].
  apply twp_UpdateWorkflowStatus_stored.
  { assert (Hk5 : keeps_wf r6 r5) by chain_wf. by apply Hk5. }
  intros r7 Hk5.
  do 3 tstep_wf.
  apply twp_ret. eexists. split; [reflexivity|]. simpl.
  assert (Hend : keeps_wf r r10) by chain_wf.
  split_and!; try done.
  destruct Hend as [(Hcalls & _) _]. by rewrite Hcalls.
Qed.

End Blocked.

Lemma StartWorkflow_blocked_witness :
  ∃ res r',
    StartWorkflow ∅ "W" ∅ ∅ Examples.cyclic_start = Val (Some res, None) r'
    ∧ wr_Success res = true
    ∧ rt_calls r' = []
    ∧ length (wi_Steps (wr_WorkflowInst res)) = 2%nat.
Proof.
  destruct (StartWorkflow_blocked ∅ "W" ∅ ∅ Examples.cyclic_start Scenario.cyclic_workflow)
    as (res & r' & Hrun & Hsuccess & _ & Hcalls & Hlen & _).
  - vm_compute. reflexivity.
  - intros stepDef Hin. vm_compute in Hin.
    inversion Hin as [|? ? ? Hin']; subst; [vm_compute; discriminate|].
    inversion Hin' as [|? ? ? Hin'']; subst; [vm_compute; discriminate|].
    inversion Hin''.
  - exists res, r'. split; [exact Hrun|]. split; [exact Hsuccess|].
    split; [exact Hcalls|exact Hlen].
Defined.

(** ** What the store holds after a run *)

Section Persisted.
Context {W : Type}.

Lemma unwritten_closed : update_closed unwritten.
Proof. split; intros w ? (? & ? & ?); by split_and!. Qed.

Lemma StartWorkflow_unwritten ctx workflowID input metadata (r : @Runtime W) :
  wp (StartWorkflow ctx workflowID input metadata)
     (λ out r', ∀ res, out.1 = Some res →
        ∃ stored, workflows (rt_stateManager r') !! wi_ID (wr_WorkflowInst res) = Some stored
                  ∧ unwritten stored
                  ∧ wi_Status stored = wi_Status (wr_WorkflowInst res)) r.
Proof.
  unfold StartWorkflow, GetWorkflowDef.
  apply wp_bind, wp_get_rt.
  destruct (rt_workflows r !! workflowID) as [workflow|] eqn:Hdef;
    [|by apply wp_ret, wp_ret; intros res].
  apply wp_ret. simpl.
  set (reg := rt_workflows r) in *.
  set (R := table_inv "" (λ _, True) reg).
  assert (HS : Stable ("", ∅) R) by apply table_inv_stable.
  assert (HR : R r) by by split.
  clearbody reg.
  apply wp_bind. eapply triple_wp; [by apply (triple_uuid_New ("", ∅))|done|].
  clear r HR. intros id r HR _.
  apply wp_bind. eapply triple_wp; [by apply (triple_time_Now ("", ∅))|done|].
  clear r HR. intros startedAt r HR _.
  apply wp_bind. eapply triple_wp; [by apply triple_getTraceID|done|].
  clear r HR. intros traceID r HR _.
  apply wp_bind. eapply triple_wp; [by apply triple_getCorrelationID|done|].
  clear r HR. intros correlationID r HR _.
  apply wp_bind. eapply triple_wp; [by apply triple_getBusinessID|done|].
  clear r HR. intros businessID r HR _.
  apply wp_bind. apply (wp_SaveWorkflow reg); [by destruct HR|].
  clear r HR. intros r HR.
  apply wp_bind. eapply triple_wp; [apply (triple_emitEvent ("", ∅)), stored_inv_stable|done|].
  clear r HR. intros _ r HR _.
  eapply wp_mono;
    [|apply (executeWorkflow_spec _ _ unwritten reg); [apply unwritten_closed|]].
  - intros out r' [_ Hpost] res Hres.
    destruct (Hpost res Hres) as (Hid & _ & _ & stored & Hstored & Hun & Hstatus & _).
    exists stored. rewrite Hid. done.
  - eapply stored_table_inv; [|exact HR]. by intros w ->.
Qed.

(** The engine never writes the output of a run to the store. Whatever
    result [StartWorkflow] returns, [GetWorkflowStatus] on the instance
    then answers with the status of the result, but with an empty output,
    an empty context and no step instances. *)
Theorem StartWorkflow_output_not_stored ctx workflowID input metadata (r r' : @Runtime W)
    res err :
  StartWorkflow ctx workflowID input metadata r = Val (Some res, err) r' →
  ∃ stored,
    GetWorkflowStatus (wi_ID (wr_WorkflowInst res)) r' = Val (inl stored) r'
    ∧ wi_Status stored = wi_Status (wr_WorkflowInst res)
    ∧ wi_Output stored = ∅ ∧ wi_Context stored = ∅ ∧ wi_Steps stored = [].
Proof.
  intros Hrun.
  pose proof (StartWorkflow_unwritten ctx workflowID input metadata r) as Hwp.
  unfold wp in Hwp. rewrite Hrun in Hwp.
  destruct (Hwp res eq_refl) as (stored & Hstored & (Hsteps & Hout & Hctx) & Hstatus).
  exists (deepCopyWorkflow stored). split_and!.
  - unfold GetWorkflowStatus, GetWorkflow, mbind, M_bind, get_rt, mret, M_ret.
    by rewrite Hstored.
  - by rewrite deepCopyWorkflow_id.
  - by rewrite deepCopyWorkflow_id.
  - by rewrite deepCopyWorkflow_id.
  - by rewrite deepCopyWorkflow_id.
Qed.

End Persisted.

Lemma StartWorkflow_output_not_stored_witness :
  ∃ res r',
    StartWorkflow ∅ "W" ∅ ∅ Examples.single_start = Val (Some res, None) r'
    ∧ wr_Output res !! "b" = Some (VInt 1)
    ∧ ∃ stored,
        GetWorkflowStatus (wi_ID (wr_WorkflowInst res)) r' = Val (inl stored) r'
        ∧ wi_Output stored = ∅.
Proof.
  eexists _, _. split; [vm_compute; reflexivity|].
  split; [vm_compute; reflexivity|].
  match goal with
  | |- ∃ stored, GetWorkflowStatus (wi_ID (wr_WorkflowInst ?res)) ?r' = _ ∧ _ =>
      destruct (StartWorkflow_output_not_stored ∅ "W" ∅ ∅ Examples.single_start r' res None)
        as (stored & Hget & _ & Hout & _); [vm_compute; reflexivity|]
  end.
  exists stored. split; [exact Hget|exact Hout].
Defined.
